(** * Choome: capture, composite, persist

    A shallow embedding of the recording core of Choome and the proofs of
    the properties its specification states about it.

    - [JsString], [NodePath]: the string and [node:path] helpers the main
      process uses on file names.
    - [Recovery]: [RecordingRecoveryService] (begin / append / finalize /
      discard / recoverOrphaned) over a model of the file system and of the
      recordings catalog kept by [StorageService].
    - [Session]: [startRecording], the audio mixer and the duration timer of
      the [useRecording] hook.
    - [Watchdog]: the webcam reacquire logic of the compositor.
    - [Geometry]: the placement of the webcam bubble in [drawFrame].
    - [RecoveryLaws]: the failure paths of the recovery service and its
      startup sweep on any scratch directory.
    - [Handlers]: the [recording:save] and [storage:addRecording] handlers.
    - [Catalog]: soft delete, purge and repair of [StorageService].
    - [SessionLaws]: what a start needs, and pause and resume.
    - [Stop]: [stopRecording] against the handlers of the main process.
    - [WatchdogLaws], [GeometryLaws]: more on the compositor.

    JavaScript numbers are modelled by exact rationals ([Q]) where
    fractions can occur and by [Z] where the source only ever holds
    integers (millisecond clocks, byte counts). *)

From Stdlib.Strings Require Import Byte.
From Stdlib Require Import Ascii String ZArith QArith Qround Qminmax Lia Lqa.
From stdpp Require Import gmap strings list.

Local Open Scope string_scope.
Local Open Scope list_scope.

(** ** JavaScript string helpers *)

Module JsString.

Definition dot : ascii := "."%char.
Definition colon : ascii := ":"%char.
Definition dash : ascii := "-"%char.

(** [\w] of a JavaScript regular expression: [A-Za-z0-9_]. *)
Definition isWordChar (c : ascii) : bool :=
  let n := nat_of_ascii c in
  ((48 <=? n) && (n <=? 57) || (65 <=? n) && (n <=? 90)
   || (97 <=? n) && (n <=? 122) || (n =? 95))%nat.

Fixpoint allWord (s : string) : bool :=
  match s with
  | EmptyString => true
  | String c s' => isWordChar c && allWord s'
  end.

Fixpoint hasDot (s : string) : bool :=
  match s with
  | EmptyString => false
  | String c s' => if Ascii.eqb c dot then true else hasDot s'
  end.

(** Splits a string at its last ['.']: [Some (before, after)]. *)
Fixpoint splitLastDot (s : string) : option (string * string) :=
  match s with
  | EmptyString => None
  | String c s' =>
      match splitLastDot s' with
      | Some (p, e) => Some (String c p, e)
      | None => if Ascii.eqb c dot then Some (EmptyString, s') else None
      end
  end.

(** [s.replace('.', '')]: removes the first ['.'] only. *)
Fixpoint removeFirstDot (s : string) : string :=
  match s with
  | EmptyString => EmptyString
  | String c s' => if Ascii.eqb c dot then s' else String c (removeFirstDot s')
  end.

(** [s.replace(/[:.]/g, '-')]. *)
Fixpoint replaceColonDot (s : string) : string :=
  match s with
  | EmptyString => EmptyString
  | String c s' =>
      String (if Ascii.eqb c colon || Ascii.eqb c dot then dash else c)
             (replaceColonDot s')
  end.

(** [s.replace(/\.\w+$/, '')]. A match runs to the end of the string and
    holds no ['.'] after its first character, so it can only start at the
    last ['.']. *)
Definition stripWordExt (s : string) : string :=
  match splitLastDot s with
  | Some (p, e) =>
      if negb (String.eqb e EmptyString) && allWord e then p else s
  | None => s
  end.

(** [a || b] on strings: the empty string is falsy. *)
Definition orElse (a b : string) : string :=
  if String.eqb a EmptyString then b else a.

(** [s.startsWith(p)]. *)
Definition startsWith (s p : string) : bool := String.prefix p s.

(** [s.endsWith(p)]. *)
Fixpoint endsWith (s p : string) : bool :=
  if String.eqb s p then true
  else match s with
       | EmptyString => false
       | String _ s' => endsWith s' p
       end.

(** [s.slice(0, s.length - n)]. *)
Definition dropRight (n : nat) (s : string) : string :=
  String.substring 0 (String.length s - n) s.

(** Facts about the last dot of a file name. *)

Lemma splitLastDot_nodot (s : string) :
  hasDot s = false -> splitLastDot s = None.
Proof.
  induction s as [|c s IH]; simpl; [reflexivity|].
  destruct (Ascii.eqb c dot); [discriminate|].
  intros H. now rewrite (IH H).
Qed.

Lemma splitLastDot_ext (p e : string) :
  hasDot e = false -> splitLastDot (p +:+ String dot e) = Some (p, e).
Proof.
  intros He. induction p as [|c p IH]; simpl.
  - now rewrite (splitLastDot_nodot e He).
  - now rewrite IH.
Qed.

Lemma append_inv_head (p a b : string) : p +:+ a = p +:+ b -> a = b.
Proof.
  induction p as [|c p IH]; simpl; intros H; [exact H|].
  injection H as H. exact (IH H).
Qed.

Lemma length_append (a b : string) :
  String.length (a +:+ b) = (String.length a + String.length b)%nat.
Proof. induction a as [|c a IH]; simpl; [reflexivity|]. now rewrite IH. Qed.

(** Replacing the extension of [p.e] by [.jpg] gives another name unless
    [e] is [jpg] itself. *)
Lemma stripWordExt_jpg_ne (p e : string) :
  hasDot e = false -> e <> "jpg" ->
  stripWordExt (p +:+ String dot e) +:+ ".jpg" <> p +:+ String dot e.
Proof.
  intros He Hjpg. unfold stripWordExt. rewrite (splitLastDot_ext p e He).
  destruct (negb (e =? "")%string && allWord e).
  - intros H. apply append_inv_head in H. injection H as H. now subst e.
  - intros H. apply (f_equal String.length) in H.
    rewrite length_append in H. simpl in H. lia.
Qed.

End JsString.

(** ** [node:path] on (directory, file name) pairs

  Every path the recovery service handles is built by
  [path.join(dir, name)] from a directory and a file name that holds no
  separator (a UUID or a timestamp with a fixed prefix and an extension).
  A path is therefore kept as the pair that [path.join] was given:
  [path.dirname] and the last path segment are its projections. *)

Module NodePath.
Import JsString.

Definition path : Type := string * string.

Definition join (dir name : string) : path := (dir, name).
Definition dirname (p : path) : string := p.1.
Definition lastSegment (p : path) : string := p.2.

(** [path.join] of two directory segments. *)
Definition joinDir (dir name : string) : string := dir +:+ "/" +:+ name.

(** [path.extname]: from the last ['.'] of the last segment to its end;
    empty when there is no dot, when the only dot is the first character,
    and for [".."]. *)
Definition extnameOf (name : string) : string :=
  match splitLastDot name with
  | None => EmptyString
  | Some (p, e) =>
      if String.eqb p EmptyString then EmptyString
      else if String.eqb p "." && String.eqb e EmptyString then EmptyString
      else String dot e
  end.

Definition extname (p : path) : string := extnameOf (lastSegment p).

(** [path.basename(p, ext)]: the last segment, without [ext] when it ends
    with it and is not equal to it. *)
Definition basename (p : path) (ext : string) : string :=
  let name := lastSegment p in
  if negb (String.eqb ext EmptyString) && negb (String.eqb name ext)
     && endsWith name ext
  then dropRight (String.length ext) name
  else name.

(** [p.replace(/\.\w+$/, '')] on a full path: ['/'] is not a word
    character, so a match lies inside the last segment. *)
Definition stripExt (p : path) : path := (p.1, stripWordExt p.2).

(** [`${p}${suffix}`]. *)
Definition addSuffix (p : path) (suffix : string) : path := (p.1, p.2 +:+ suffix).


End NodePath.

Module PathExamples.
Import JsString NodePath.

Example extname_webm : extnameOf "recovery-1b4e.webm" = ".webm".
Proof. reflexivity. Qed.

Example extname_hidden : extnameOf ".bashrc" = "".
Proof. reflexivity. Qed.

Example extname_dotdot : extnameOf ".." = "".
Proof. reflexivity. Qed.

Example extname_trailing : extnameOf "index." = ".".
Proof. reflexivity. Qed.

Example basename_strip :
  basename ("/videos/Choome", "recording-2026-01-01T00-00-00-000Z.webm") ".webm"
  = "recording-2026-01-01T00-00-00-000Z".
Proof. reflexivity. Qed.

Example stripExt_jpg :
  addSuffix (stripExt ("/v", "recording-2026-01-01T00-00-00-000Z.webm")) ".jpg"
  = ("/v", "recording-2026-01-01T00-00-00-000Z.jpg").
Proof. reflexivity. Qed.

Example timestamp_clean :
  replaceColonDot "2026-01-01T10:20:30.123Z" = "2026-01-01T10-20-30-123Z".
Proof. reflexivity. Qed.

End PathExamples.

(** ** The recovery log: [RecordingRecoveryService]

    The service of [src/main/services] that persists encoded chunks to a
    scratch file while a recording runs, and the parts of [StorageService]
    and [FFmpegService] it calls. *)

Module Recovery.
Import JsString NodePath.

(** *** Data *)

Inductive QualityPreset := Q720p | Q1080p | Q1440p | Q4k.

(** [interface Recording] of [shared/types]. [undefined] and [null] are
    both [None]. *)
Record Recording := mkRecording {
  rec_id : string;
  rec_name : string;
  rec_path : path;
  rec_duration : Q;
  rec_fileSize : nat;
  rec_quality : QualityPreset;
  rec_createdAt : string;
  rec_thumbnailPath : option path;
  rec_deletedAt : option string;
}.

(** The [meta] argument of [finalize]. *)
Record Meta := mkMeta {
  meta_duration : Q;
  meta_quality : QualityPreset;
}.

(** *** The file system

    Directories that exist, and what each path holds: a regular file with
    its bytes, or a directory entry. *)

Inductive node :=
| File (data : list byte)
| Directory.

Record FS := mkFS {
  dirs : gset string;
  entries : gmap path node;
}.

(** [fs.Stats], the fields the service reads. *)
Record Stats := mkStats {
  isFile : bool;
  size : nat;
  mtimeMs : Z;
}.

(** *** The world the service runs in

    [active] is the service's [Map] from a session id to its scratch file;
    [recordings] is the catalog of [StorageService]; the two counters say
    how many UUIDs and clock readings have been drawn so far. *)

Record World := mkWorld {
  fs : FS;
  active : gmap string path;
  recordings : list Recording;
  uuidCalls : nat;
  dateCalls : nat;
}.

Definition withFs (f : FS) (w : World) : World :=
  mkWorld f (active w) (recordings w) (uuidCalls w) (dateCalls w).
Definition withEntries (e : gmap path node) (w : World) : World :=
  withFs (mkFS (dirs (fs w)) e) w.
Definition withDirs (d : gset string) (w : World) : World :=
  withFs (mkFS d (entries (fs w))) w.
Definition withActive (a : gmap string path) (w : World) : World :=
  mkWorld (fs w) a (recordings w) (uuidCalls w) (dateCalls w).
Definition withRecordings (r : list Recording) (w : World) : World :=
  mkWorld (fs w) (active w) r (uuidCalls w) (dateCalls w).

(** *** Computations that may throw

    A JavaScript exception leaves the state as it was when it was thrown. *)

Inductive outcome (A : Type) :=
| Ok (a : A) (w : World)
| Throw (err : string) (w : World).
Arguments Ok {A} a w.
Arguments Throw {A} err w.

Definition M (A : Type) : Type := World -> outcome A.

Definition ret {A} (a : A) : M A := fun w => Ok a w.
Definition throw {A} (err : string) : M A := fun w => Throw err w.
Definition bind {A B} (m : M A) (k : A -> M B) : M B :=
  fun w => match m w with
           | Ok a w' => k a w'
           | Throw e w' => Throw e w'
           end.
(** [try { m } catch (error) { h error }]. *)
Definition tryCatch {A} (m : M A) (h : string -> M A) : M A :=
  fun w => match m w with
           | Ok a w' => Ok a w'
           | Throw e w' => h e w'
           end.

Notation "'let!' x ':=' m 'in' k" := (bind m (fun x => k))
  (at level 10, x pattern, m at level 100, k at level 200).

(** *** [node:fs] *)

Definition existsSyncDir (d : string) : M bool :=
  fun w => Ok (bool_decide (d ∈ dirs (fs w))) w.

Definition existsSync (p : path) : M bool :=
  fun w => Ok (bool_decide (is_Some (entries (fs w) !! p))) w.

(** [fs.mkdirSync(d, { recursive: true })]. *)
Definition mkdirSync (d : string) : M unit :=
  fun w => Ok tt (withDirs ({[d]} ∪ dirs (fs w)) w).

Definition writeFileSync (p : path) (data : list byte) : M unit :=
  fun w =>
    if negb (bool_decide (dirname p ∈ dirs (fs w))) then Throw "ENOENT" w
    else match entries (fs w) !! p with
         | Some Directory => Throw "EISDIR" w
         | _ => Ok tt (withEntries (<[p := File data]> (entries (fs w))) w)
         end.

Definition appendFileSync (p : path) (data : list byte) : M unit :=
  fun w =>
    if negb (bool_decide (dirname p ∈ dirs (fs w))) then Throw "ENOENT" w
    else match entries (fs w) !! p with
         | Some Directory => Throw "EISDIR" w
         | Some (File old) =>
             Ok tt (withEntries (<[p := File (old ++ data)%list]> (entries (fs w))) w)
         | None => Ok tt (withEntries (<[p := File data]> (entries (fs w))) w)
         end.

Definition renameSync (src dst : path) : M unit :=
  fun w =>
    match entries (fs w) !! src with
    | None => Throw "ENOENT" w
    | Some n =>
        if negb (bool_decide (dirname dst ∈ dirs (fs w))) then Throw "ENOENT" w
        else match n, entries (fs w) !! dst with
             | File _, Some Directory => Throw "EISDIR" w
             | Directory, Some (File _) => Throw "ENOTDIR" w
             | _, _ =>
                 Ok tt (withEntries (<[dst := n]> (delete src (entries (fs w)))) w)
             end
    end.

Definition unlinkSync (p : path) : M unit :=
  fun w =>
    match entries (fs w) !! p with
    | None => Throw "ENOENT" w
    | Some Directory => Throw "EISDIR" w
    | Some (File _) => Ok tt (withEntries (delete p (entries (fs w))) w)
    end.

(** [fs.readdirSync(d)]: the names of the entries of [d]. *)
Definition readdirSync (d : string) : M (list string) :=
  fun w =>
    if negb (bool_decide (d ∈ dirs (fs w))) then Throw "ENOENT" w
    else Ok (omap (fun kv : path * node =>
                     if String.eqb (dirname kv.1) d
                     then Some (lastSegment kv.1) else None)
                  (map_to_list (entries (fs w)))) w.

(** *** [Math.round] and truthiness of a number *)

Definition mathRound (q : Q) : Z := Qfloor (q + (1 # 2)).
Definition truthy (q : Q) : bool := negb (Qeq_bool q 0).

(** *** The host: what the service reads from outside itself *)

Record Host := mkHost {
  (** [app.getPath('temp')] *)
  appTemp : string;
  (** [settings.storagePath] *)
  storagePath : string;
  (** the k-th UUID that [randomUUID()] returns *)
  uuidAt : nat -> string;
  (** the k-th reading of [new Date()], in milliseconds *)
  dateAt : nat -> Z;
  (** [Date.prototype.toISOString] *)
  toISOString : Z -> string;
  (** the modification time the file system reports for a path *)
  mtimeOf : path -> Z;
  (** ffmpeg's screenshot of a video: the bytes of the image, or a failure *)
  ffmpegScreenshot : path -> list byte -> option Q -> option (list byte);
  (** ffprobe on a file: a failure, or the metadata's [format.duration]
      (which may be missing) *)
  ffprobe : path -> list byte -> option (option Q);
}.

Section Service.
Variable host : Host.

Definition randomUUID : M string :=
  fun w => Ok (uuidAt host (uuidCalls w))
              (mkWorld (fs w) (active w) (recordings w) (S (uuidCalls w)) (dateCalls w)).

(** [new Date().toISOString()]. *)
Definition newDateISO : M string :=
  fun w => Ok (toISOString host (dateAt host (dateCalls w)))
              (mkWorld (fs w) (active w) (recordings w) (uuidCalls w) (S (dateCalls w))).

Definition statSync (p : path) : M Stats :=
  fun w =>
    match entries (fs w) !! p with
    | None => Throw "ENOENT" w
    | Some (File data) => Ok (mkStats true (length data) (mtimeOf host p)) w
    | Some Directory => Ok (mkStats false 0 (mtimeOf host p)) w
    end.

(** *** [StorageService] *)

Definition getTempPath : string := joinDir (appTemp host) "choome".

Definition generateRecordingPath (extension : string) : M path :=
  let! iso := newDateISO in
  let timestamp := replaceColonDot iso in
  let filename := "recording-" +:+ timestamp +:+ "." +:+ extension in
  ret (join (storagePath host) filename).

(** [recordings.unshift({ ...recording, deletedAt: recording.deletedAt ?? null })]. *)
Definition addRecording (recording : Recording) : M unit :=
  fun w => Ok tt (withRecordings (recording :: recordings w) w).

(** *** [FFmpegService] *)

Definition generateThumbnail (videoPath outputPath : path) (timestamp : option Q)
  : M unit :=
  fun w =>
    match entries (fs w) !! videoPath with
    | Some (File data) =>
        match ffmpegScreenshot host videoPath data timestamp with
        | Some image => writeFileSync outputPath image w
        | None => Throw "ffmpeg exited with an error" w
        end
    | _ => Throw "ffmpeg: no such file" w
    end.

Definition getMetadata (videoPath : path) : M (option Q) :=
  fun w =>
    match entries (fs w) !! videoPath with
    | Some (File data) =>
        match ffprobe host videoPath data with
        | Some md => Ok md w
        | None => Throw "ffprobe exited with an error" w
        end
    | _ => Throw "ffprobe: no such file" w
    end.

(** *** [RecordingRecoveryService] *)


Definition activeGet (id : string) : M (option path) :=
  fun w => Ok (active w !! id) w.
Definition activeDelete (id : string) : M unit :=
  fun w => Ok tt (withActive (delete id (active w)) w).



Definition append (id : string) (buffer : list byte) : M unit :=
  let! filePath := activeGet id in
  match filePath with
  | None => ret tt
  | Some filePath => appendFileSync filePath buffer
  end.

Definition extensionOf (filePath : path) : string :=
  orElse (removeFirstDot (extname filePath)) "webm".

Definition finalize (id : string) (meta : Meta) : M Recording :=
  let! filePath := activeGet id in
  match filePath with
  | None => throw "Recovery session not found"
  | Some filePath =>
      let extension := extensionOf filePath in
      let! outputPath := generateRecordingPath extension in
      let outputDir := dirname outputPath in
      let! present := existsSyncDir outputDir in
      let! _ := (if present then ret tt else mkdirSync outputDir) in
      let! _ := renameSync filePath outputPath in
      let! _ := activeDelete id in
      let! stats := statSync outputPath in
      let! createdAt := newDateISO in
      let name := basename outputPath (extname outputPath) in
      let! thumbnailPath :=
        tryCatch
          (let basePath := stripExt outputPath in
           let thumbnailOutput := addSuffix basePath ".jpg" in
           let safeTimestamp :=
             if Qle_bool (meta_duration meta) 1 then None else Some 1%Q in
           let! _ := generateThumbnail outputPath thumbnailOutput safeTimestamp in
           ret (Some thumbnailOutput))
          (fun _ => ret None) in
      let recording :=
        mkRecording id name outputPath (meta_duration meta) (size stats)
                    (meta_quality meta) createdAt thumbnailPath None in
      let! _ := addRecording recording in
      ret recording
  end.

Definition discard (id : string) : M unit :=
  let! filePath := activeGet id in
  let! _ :=
    match filePath with
    | Some filePath =>
        let! present := existsSync filePath in
        if present then unlinkSync filePath else ret tt
    | None => ret tt
    end in
  activeDelete id.

(** One turn of the [for (const entry of entries)] loop of
    [recoverOrphaned]; [continue] returns the list unchanged. *)
Definition recoverEntry (tempDir entry : string) (recovered : list Recording)
  : M (list Recording) :=
  if negb (startsWith entry "recovery-") then ret recovered
  else
    let filePath := join tempDir entry in
    let! stats := statSync filePath in
    if negb (isFile stats) || Nat.eqb (size stats) 0 then ret recovered
    else
      let extension := extensionOf filePath in
      let! outputPath := generateRecordingPath extension in
      let outputDir := dirname outputPath in
      let! present := existsSyncDir outputDir in
      let! _ := (if present then ret tt else mkdirSync outputDir) in
      let! _ := renameSync filePath outputPath in
      let! duration :=
        tryCatch
          (let! metadata := getMetadata outputPath in
           ret (match metadata with
                | Some d => if truthy d then inject_Z (mathRound d) else 0%Q
                | None => 0%Q
                end))
          (fun _ => ret 0%Q) in
      let createdAt := toISOString host (mtimeMs stats) in
      let name := basename outputPath (extname outputPath) in
      let! newId := randomUUID in
      let recording :=
        mkRecording newId (name +:+ "-recovered") outputPath duration (size stats)
                    Q1080p createdAt None None in
      let! _ := addRecording recording in
      ret (recovered ++ [recording])%list.

Fixpoint recoverEntries (tempDir : string) (names : list string)
  (recovered : list Recording) : M (list Recording) :=
  match names with
  | [] => ret recovered
  | entry :: rest =>
      let! recovered' := recoverEntry tempDir entry recovered in
      recoverEntries tempDir rest recovered'
  end.

Definition recoverOrphaned : M (list Recording) :=
  let tempDir := getTempPath in
  let! present := existsSyncDir tempDir in
  if negb present then ret []
  else
    let! names := readdirSync tempDir in
    recoverEntries tempDir names [].


End Service.

(** *** Reasoning about computations: postconditions

    [post m Q E w]: run from [w], [m] returns [a] in a world [w'] with
    [Q a w'], or throws [e] in a world [w'] with [E e w']. *)

Definition post {A} (m : M A) (Q : A -> World -> Prop)
  (E : string -> World -> Prop) (w : World) : Prop :=
  match m w with
  | Ok a w' => Q a w'
  | Throw e w' => E e w'
  end.

Lemma post_bind {A B} (m : M A) (k : A -> M B) Q E w :
  post m (fun a w1 => post (k a) Q E w1) E w -> post (bind m k) Q E w.
Proof. unfold post, bind. now destruct (m w). Qed.

Lemma post_ret {A} (a : A) (Q : A -> World -> Prop) E w :
  Q a w -> post (ret a) Q E w.
Proof. exact (fun H => H). Qed.

Lemma post_ok {A} (m : M A) Q E w a w' :
  post m Q E w -> m w = Ok a w' -> Q a w'.
Proof. unfold post. intros H Hm. now rewrite Hm in H. Qed.

(** A computation whose throws are all excluded returns. *)
Lemma post_returns {A} (m : M A) Q (E : string -> World -> Prop) w :
  post m Q E w -> (forall e w', ~ E e w') ->
  exists a w', m w = Ok a w' /\ Q a w'.
Proof.
  unfold post. destruct (m w) as [a w'|e w']; intros H HE.
  - now exists a, w'.
  - now destruct (HE e w').
Qed.

(** The world after a clock reading, and after [mkdirSync] on demand. *)
Definition bumpDate (w : World) : World :=
  mkWorld (fs w) (active w) (recordings w) (uuidCalls w) (S (dateCalls w)).
Definition ensured (d : string) (w : World) : World :=
  if bool_decide (d ∈ dirs (fs w)) then w else withDirs ({[d]} ∪ dirs (fs w)) w.

Lemma ensured_dirs d w : d ∈ dirs (fs (ensured d w)).
Proof.
  unfold ensured. case_bool_decide as H; [exact H|]. cbn. set_solver.
Qed.

Lemma ensured_rest d w :
  entries (fs (ensured d w)) = entries (fs w)
  /\ active (ensured d w) = active w
  /\ recordings (ensured d w) = recordings w
  /\ uuidCalls (ensured d w) = uuidCalls w
  /\ dateCalls (ensured d w) = dateCalls w.
Proof. unfold ensured. now case_bool_decide. Qed.

Lemma ensured_entries d w : entries (fs (ensured d w)) = entries (fs w).
Proof. apply ensured_rest. Qed.
Lemma ensured_active d w : active (ensured d w) = active w.
Proof. apply ensured_rest. Qed.
Lemma ensured_recordings d w : recordings (ensured d w) = recordings w.
Proof. apply ensured_rest. Qed.
Lemma ensured_uuidCalls d w : uuidCalls (ensured d w) = uuidCalls w.
Proof. apply ensured_rest. Qed.
Lemma ensured_dateCalls d w : dateCalls (ensured d w) = dateCalls w.
Proof. apply ensured_rest. Qed.

Lemma post_ensure {B} (d : string) (k : M B) Q E w :
  post k Q E (ensured d w) ->
  post (let! present := existsSyncDir d in
        let! _ := (if present then ret tt else mkdirSync d) in
        k) Q E w.
Proof.
  unfold post, bind, existsSyncDir, ensured, ret, mkdirSync.
  now case_bool_decide.
Qed.

Lemma withActive_same (w : World) : withActive (active w) w = w.
Proof. now destruct w. Qed.

Ltac wsimpl1 :=
  cbn [fs active recordings uuidCalls dateCalls dirs entries
       withFs withEntries withDirs withActive withRecordings bumpDate
       dirname lastSegment join fst snd isFile size mtimeMs] in *;
  rewrite ?ensured_entries, ?ensured_active, ?ensured_recordings,
    ?ensured_uuidCalls, ?ensured_dateCalls in *.
Ltac wsimpl := repeat (progress wsimpl1).

Section Facts.
Variable host : Host.

(** The path [generateRecordingPath] returns in world [w]. *)
Definition recordingPathAt (w : World) (extension : string) : path :=
  join (storagePath host)
       ("recording-"
        +:+ replaceColonDot (toISOString host (dateAt host (dateCalls w)))
        +:+ "." +:+ extension).

Lemma post_generateRecordingPath ext (Q : path -> World -> Prop) E w :
  Q (recordingPathAt w ext) (bumpDate w) ->
  post (generateRecordingPath host ext) Q E w.
Proof. exact (fun H => H). Qed.

(** The [try { ... generateThumbnail ... } catch] block of [finalize]. *)
Lemma post_thumbnail video out ts (Q : option path -> World -> Prop) E w :
  Q None w ->
  (forall image,
     Q (Some out) (withEntries (<[out := File image]> (entries (fs w))) w)) ->
  post (tryCatch
          (let! _ := generateThumbnail host video out ts in ret (Some out))
          (fun _ => ret None)) Q E w.
Proof.
  intros Hnone Hsome.
  unfold post, tryCatch, bind, generateThumbnail, writeFileSync, ret.
  repeat case_match; simplify_eq; auto.
Qed.

(** The entries after [src] was renamed to [dst]. *)
Definition moved (src dst : path) (n : node) (e : gmap path node) : gmap path node :=
  <[dst := n]> (delete src e).

Definition nodeSize (n : node) : nat :=
  match n with File data => length data | Directory => 0 end.

(** When [renameSync src dst] throws. *)
Definition renameThrows (src dst : path) (w : World) : Prop :=
  match entries (fs w) !! src with
  | None => True
  | Some n =>
      dirname dst ∉ dirs (fs w)
      \/ match n, entries (fs w) !! dst with
         | File _, Some Directory => True
         | Directory, Some (File _) => True
         | _, _ => False
         end
  end.

Lemma post_renameSync src dst (Q : unit -> World -> Prop) E w :
  (forall n, entries (fs w) !! src = Some n ->
             Q tt (withEntries (moved src dst n (entries (fs w))) w)) ->
  (forall e, renameThrows src dst w -> E e w) ->
  post (renameSync src dst) Q E w.
Proof.
  intros HQ HE. unfold post, renameSync, renameThrows in *.
  destruct (entries (fs w) !! src) as [n|]; [|now apply HE].
  case_bool_decide as Hd; cbn [negb]; [|apply HE; now left].
  destruct n, (entries (fs w) !! dst) as [[]|];
    first [now apply HQ | apply HE; now right].
Qed.

Lemma post_statSync p (Q : Stats -> World -> Prop) E w n :
  entries (fs w) !! p = Some n ->
  Q (mkStats (match n with File _ => true | Directory => false end)
             (nodeSize n) (mtimeOf host p)) w ->
  post (statSync host p) Q E w.
Proof. intros Hp HQ. unfold post, statSync. rewrite Hp. now destruct n. Qed.

(** What [finalize] does. When it returns, the session was open on an
    entry that has been moved to the path of the new recording, the id is
    gone from the session map, the recording is at the head of the catalog
    and at most a thumbnail was written. It throws only when the id is not
    open or [renameSync] throws. *)
Lemma finalize_post (id : string) (meta : Meta) (w : World) :
  post (finalize host id meta)
    (fun r w' =>
       exists p n thumb,
         let out := recordingPathAt w (extensionOf p) in
         active w !! id = Some p /\ entries (fs w) !! p = Some n
         /\ r = mkRecording id (basename out (extname out)) out
                  (meta_duration meta) (nodeSize n) (meta_quality meta)
                  (toISOString host (dateAt host (S (dateCalls w)))) thumb None
         /\ active w' = delete id (active w)
         /\ recordings w' = r :: recordings w
         /\ (entries (fs w') = moved p out n (entries (fs w))
             \/ exists image,
                 entries (fs w')
                 = <[addSuffix (stripExt out) ".jpg" := File image]>
                     (moved p out n (entries (fs w)))))
    (fun _ _ =>
       forall p data,
         active w !! id = Some p -> entries (fs w) !! p = Some (File data) ->
         entries (fs w) !! recordingPathAt w (extensionOf p) = Some Directory)
    w.
Proof.
  unfold finalize. apply post_bind. unfold post at 1, activeGet.
  destruct (active w !! id) as [p|] eqn:Hact; [|now intros p data].
  cbv zeta. apply post_bind, post_generateRecordingPath.
  set (out := recordingPathAt w (extensionOf p)).
  apply post_ensure, post_bind, post_renameSync.
  - intros n Hn. wsimpl.
    apply post_bind. unfold post at 1, activeDelete.
    apply post_bind.
    eapply post_statSync; [wsimpl; apply lookup_insert_eq|].
    apply post_bind. unfold post at 1, newDateISO. wsimpl.
    apply post_bind, post_thumbnail.
    + apply post_bind. unfold post at 1, addRecording. apply post_ret. wsimpl.
      exists p, n, None. cbv zeta. fold out.
      repeat split; try reflexivity; try assumption. now left.
    + intros image.
      apply post_bind. unfold post at 1, addRecording. apply post_ret. wsimpl.
      exists p, n, (Some (addSuffix (stripExt out) ".jpg")). cbv zeta. fold out.
      repeat split; try reflexivity; try assumption. right. now exists image.
  - intros _ Hthrows p' data [= <-] Hp'. unfold renameThrows in Hthrows.
    wsimpl. rewrite Hp' in Hthrows.
    destruct Hthrows as [Hd|Hd]; [destruct Hd; apply ensured_dirs|].
    fold out. now destruct (entries (fs w) !! out) as [[]|].
Qed.

Lemma finalize_invalidates (w w' : World) (id : string) (meta : Meta) (r : Recording) :
  finalize host id meta w = Ok r w' -> active w' !! id = None.
Proof.
  intros H. pose proof (post_ok _ _ _ _ _ _ (finalize_post id meta w) H) as Hp.
  cbv beta zeta in Hp. destruct Hp as (p & n & thumb & _ & _ & _ & Hact & _).
  rewrite Hact. apply lookup_delete_eq.
Qed.

Lemma discard_invalidates (w w' : World) (id : string) :
  discard id w = Ok tt w' -> active w' !! id = None.
Proof.
  unfold discard, bind, activeGet, existsSync, unlinkSync, activeDelete, ret.
  intros H. repeat case_match; simplify_eq; cbn; apply lookup_delete_eq.
Qed.

(** *** begin *)

Lemma post_writeFileSync p data (Q : unit -> World -> Prop) E w :
  Q tt (withEntries (<[p := File data]> (entries (fs w))) w) ->
  (forall e, dirname p ∉ dirs (fs w) \/ entries (fs w) !! p = Some Directory ->
             E e w) ->
  post (writeFileSync p data) Q E w.
Proof.
  intros HQ HE. unfold post, writeFileSync.
  case_bool_decide as Hd; cbn [negb]; [|apply HE; now left].
  destruct (entries (fs w) !! p) as [[]|]; first [exact HQ | apply HE; now right].
Qed.



(** *** append *)




End Facts.

Section SweepFacts.
Variable host : Host.


(** The thumbnail of a recording made from a [begin] session never lands on
    the recording itself. *)
Lemma thumbnail_ne_recording (w : World) (ext : string) :
  hasDot ext = false -> ext <> "jpg" ->
  addSuffix (stripExt (recordingPathAt host w ext)) ".jpg" <> recordingPathAt host w ext.
Proof.
  intros Hd Hj. unfold recordingPathAt, addSuffix, stripExt, join. cbn [fst snd].
  intros [= H]. revert H.
  set (ts := replaceColonDot _).
  change ("recording-" +:+ ts +:+ "." +:+ ext)
    with (("recording-" +:+ ts) +:+ String dot ext).
  now apply stripWordExt_jpg_ne.
Qed.



(** *** Ids with no open session *)

Lemma append_inactive (w : World) (id : string) (buffer : list byte) :
  active w !! id = None -> append id buffer w = Ok tt w.
Proof. intros H. unfold append, bind, activeGet. now rewrite H. Qed.

Lemma discard_inactive (w : World) (id : string) :
  active w !! id = None -> discard id w = Ok tt w.
Proof.
  intros H. unfold discard, bind, activeGet, activeDelete, ret. rewrite H.
  rewrite (delete_id _ _ H). now rewrite withActive_same.
Qed.

(** *** The orphan sweep *)

(** What the loop of [recoverOrphaned] does not skip: a regular, non-empty
    file of the scratch directory whose name starts with [recovery-]. *)
Definition isOrphan (tempDir : string) (w : World) (entry : string) : bool :=
  startsWith entry "recovery-"
  && match entries (fs w) !! join tempDir entry with
     | Some (File (_ :: _)) => true
     | _ => false
     end.

(** The duration the sweep derives from what ffprobe says about a file. *)
Definition probedDuration (probe : option (option Q)) : Q :=
  match probe with
  | Some (Some d) => if truthy d then inject_Z (mathRound d) else 0%Q
  | _ => 0%Q
  end.

Lemma post_probe out data (Q : Q -> World -> Prop) E w :
  entries (fs w) !! out = Some (File data) ->
  Q (probedDuration (ffprobe host out data)) w ->
  post (tryCatch
          (let! metadata := getMetadata host out in
           ret (match metadata with
                | Some d => if truthy d then inject_Z (mathRound d) else 0%Q
                | None => 0%Q
                end))
          (fun _ => ret 0%Q)) Q E w.
Proof.
  intros Hout HQ. unfold post, tryCatch, bind, getMetadata, ret, probedDuration in *.
  rewrite Hout. now destruct (ffprobe host out data) as [[d|]|].
Qed.

Lemma recoverEntry_skip tempDir entry acc w :
  isOrphan tempDir w entry = false ->
  is_Some (entries (fs w) !! join tempDir entry) ->
  recoverEntry host tempDir entry acc w = Ok acc w.
Proof.
  unfold isOrphan, recoverEntry. intros Hno [n Hn].
  destruct (startsWith entry "recovery-"); cbn [negb andb] in *; [|reflexivity].
  unfold bind, statSync. rewrite Hn in *.
  destruct n as [[|b data]|]; [reflexivity|discriminate|reflexivity].
Qed.

Lemma recoverEntries_skip tempDir names acc w :
  Forall (fun e => isOrphan tempDir w e = false
                   /\ is_Some (entries (fs w) !! join tempDir e)) names ->
  recoverEntries host tempDir names acc w = Ok acc w.
Proof.
  induction names as [|e rest IH]; intros H; [reflexivity|].
  apply Forall_cons in H as [[Hno Hsome] Hrest].
  cbn [recoverEntries]. unfold bind.
  rewrite (recoverEntry_skip _ _ _ _ Hno Hsome). now apply IH.
Qed.

Lemma recoverEntries_app tempDir l k acc w :
  recoverEntries host tempDir (l ++ k) acc w
  = match recoverEntries host tempDir l acc w with
    | Ok acc' w' => recoverEntries host tempDir k acc' w'
    | Throw e w' => Throw e w'
    end.
Proof.
  revert acc w. induction l as [|e l IH]; intros acc w; [reflexivity|].
  cbn [app recoverEntries]. unfold bind.
  destruct (recoverEntry host tempDir e acc w); [apply IH|reflexivity].
Qed.

(** The catalog entry and the world that one recovered orphan leaves. *)
Definition recoveredEntry (w : World) (src : path) (data : list byte) : Recording :=
  let out := recordingPathAt host w (extensionOf src) in
  mkRecording (uuidAt host (uuidCalls w))
              (basename out (extname out) +:+ "-recovered") out
              (probedDuration (ffprobe host out data)) (length data) Q1080p
              (toISOString host (mtimeOf host src)) None None.

Definition afterRecovery (w : World) (src : path) (data : list byte) : World :=
  let out := recordingPathAt host w (extensionOf src) in
  mkWorld (mkFS (dirs (fs (ensured (dirname out) w)))
                (moved src out (File data) (entries (fs w))))
          (active w) (recoveredEntry w src data :: recordings w)
          (S (uuidCalls w)) (S (dateCalls w)).

Lemma withDirs_ensured d w :
  dirs (fs (ensured d (bumpDate w))) = dirs (fs (ensured d w)).
Proof. unfold ensured. cbn. now case_bool_decide. Qed.

Lemma recoverEntry_orphan tempDir entry acc w data :
  startsWith entry "recovery-" = true ->
  entries (fs w) !! join tempDir entry = Some (File data) ->
  data <> [] ->
  entries (fs w) !! recordingPathAt host w (extensionOf (join tempDir entry))
    <> Some Directory ->
  post (recoverEntry host tempDir entry acc)
    (fun l w' => l = acc ++ [recoveredEntry w (join tempDir entry) data]
                 /\ w' = afterRecovery w (join tempDir entry) data)
    (fun _ _ => False) w.
Proof.
  intros Hstart Hsrc Hdata Hout. unfold recoverEntry. rewrite Hstart. cbn [negb].
  apply post_bind. eapply post_statSync; [exact Hsrc|]. wsimpl.
  destruct data as [|b data]; [contradiction|]. cbn [nodeSize length Nat.eqb negb orb].
  cbv zeta. apply post_bind, post_generateRecordingPath.
  set (src := join tempDir entry) in *.
  set (out := recordingPathAt host w (extensionOf src)) in *.
  apply post_ensure, post_bind, post_renameSync.
  - intros n Hn. wsimpl. rewrite Hsrc in Hn. injection Hn as <-.
    apply post_bind. eapply post_probe; [wsimpl; apply lookup_insert_eq|].
    apply post_bind. unfold post at 1, randomUUID.
    apply post_bind. unfold post at 1, addRecording. apply post_ret. wsimpl.
    split; [reflexivity|].
    unfold afterRecovery, recoveredEntry. cbv zeta. fold out. wsimpl.
    now rewrite withDirs_ensured.
  - intros _ Hthrows. unfold renameThrows in Hthrows. wsimpl.
    rewrite Hsrc in Hthrows. destruct Hthrows as [Hd|Hd].
    + destruct Hd. apply ensured_dirs.
    + now destruct (entries (fs w) !! out) as [[]|].
Qed.

Lemma filter_nil_Forall {A} (f : A -> bool) (l : list A) :
  List.filter f l = [] -> Forall (fun y => f y = false) l.
Proof.
  induction l as [|a l IH]; cbn; [constructor|].
  destruct (f a) eqn:Ha; [discriminate|]. intros H. constructor; auto.
Qed.

Lemma filter_singleton {A} (f : A -> bool) (l : list A) (x : A) :
  List.filter f l = [x] ->
  exists l1 l2, l = l1 ++ x :: l2 /\ f x = true
                /\ Forall (fun y => f y = false) l1
                /\ Forall (fun y => f y = false) l2.
Proof.
  induction l as [|a l IH]; cbn; [discriminate|].
  destruct (f a) eqn:Ha.
  - intros [= -> Hl]. exists [], l. repeat split; auto using filter_nil_Forall.
  - intros H. destruct (IH H) as (l1 & l2 & -> & Hx & H1 & H2).
    exists (a :: l1), l2. repeat split; auto.
Qed.

Lemma readdirSync_elem d w names e :
  readdirSync d w = Ok names w -> e ∈ names ->
  is_Some (entries (fs w) !! join d e).
Proof.
  unfold readdirSync. destruct (negb _); [discriminate|]. intros [= <-] He.
  apply list_elem_of_omap in He as ([[d' e'] n] & Hin & Hf).
  cbn [fst snd dirname lastSegment] in Hf.
  destruct (String.eqb d' d) eqn:Hd; [|discriminate].
  apply String.eqb_eq in Hd as ->. injection Hf as ->.
  apply elem_of_map_to_list in Hin. now exists n.
Qed.

(** A recording is never written over a scratch file: their names start
    differently. *)
Lemma recordingPath_not_scratch (w : World) (ext d e : string) :
  startsWith e "recovery-" = true -> join d e <> recordingPathAt host w ext.
Proof.
  unfold recordingPathAt, join. intros Hs [= _ ->]. discriminate Hs.
Qed.

End SweepFacts.

Section Claims.
Variable host : Host.


(** C7. A startup sweep that finds exactly one regular, non-empty
    [recovery-] file in the scratch directory returns exactly one recording
    and puts it at the head of the catalog: its name ends in [-recovered],
    its file has been moved (not copied) to the recordings directory, and
    its duration is what ffprobe reports for the moved file's bytes, rounded
    (zero when the probe fails); the session map plays no part. The other
    scratch files, the empty ones among them, stay where they are. *)
Theorem orphan_sweep_recovers_one (w : World) (names : list string) (entry : string) :
  let tempDir := getTempPath host in
  let src := join tempDir entry in
  let out := recordingPathAt host w (extensionOf src) in
  readdirSync tempDir w = Ok names w ->
  List.filter (isOrphan tempDir w) names = [entry] ->
  entries (fs w) !! out <> Some Directory ->
  exists data r w',
    entries (fs w) !! src = Some (File data) /\ data <> []
    /\ recoverOrphaned host w = Ok [r] w'
    /\ recordings w' = r :: recordings w
    /\ rec_name r = basename out (extname out) +:+ "-recovered"
    /\ rec_path r = out
    /\ rec_duration r = probedDuration (ffprobe host out data)
    /\ rec_fileSize r = length data
    /\ entries (fs w') !! src = None
    /\ entries (fs w') !! out = Some (File data)
    /\ active w' = active w
    /\ (forall e, e <> entry -> startsWith e "recovery-" = true ->
          entries (fs w') !! join tempDir e = entries (fs w) !! join tempDir e).
Proof.
  intros tempDir src out Hdir Hfilter Hout.
  destruct (filter_singleton _ _ _ Hfilter) as (l1 & l2 & -> & Horph & H1 & H2).
  unfold isOrphan in Horph. apply andb_prop in Horph as [Hstart Hfile].
  fold src in Hfile.
  destruct (entries (fs w) !! src) as [[[|b data']|]|] eqn:Hsrc; try discriminate.
  set (data := b :: data') in *.
  set (w' := afterRecovery host w src data).
  assert (Hexists : forall e, e ∈ l1 ++ entry :: l2 ->
                              is_Some (entries (fs w) !! join tempDir e))
    by (intros e He; exact (readdirSync_elem _ _ _ _ Hdir He)).
  assert (Hothers : forall e, e <> entry -> startsWith e "recovery-" = true ->
            entries (fs w') !! join tempDir e = entries (fs w) !! join tempDir e).
  { intros e Hne Hs. subst w'. unfold afterRecovery, moved. wsimpl.
    rewrite lookup_insert_ne
      by (apply not_eq_sym; now apply recordingPath_not_scratch).
    apply lookup_delete_ne. unfold src, join. congruence. }
  assert (Hrun : recoverOrphaned host w
                 = Ok [recoveredEntry host w src data] w').
  { unfold recoverOrphaned. cbv zeta. fold tempDir.
    unfold bind at 1, existsSyncDir.
    assert (Hin : tempDir ∈ dirs (fs w)).
    { unfold readdirSync in Hdir. case_bool_decide; [assumption|discriminate]. }
    rewrite (bool_decide_eq_true_2 _ Hin). cbn [negb].
    unfold bind at 1. rewrite Hdir.
    rewrite recoverEntries_app.
    rewrite recoverEntries_skip.
    2:{ apply Forall_forall. intros e He. split.
        - rewrite Forall_forall in H1. now apply H1.
        - apply Hexists. apply elem_of_app. now left. }
    cbn [recoverEntries]. unfold bind at 1.
    pose proof (recoverEntry_orphan host tempDir entry [] w data Hstart Hsrc
                  ltac:(discriminate) Hout) as Hpost.
    unfold post in Hpost.
    destruct (recoverEntry host tempDir entry [] w) as [l w0|]; [|contradiction].
    destruct Hpost as [-> ->]. fold src w'. cbn [app].
    apply recoverEntries_skip, Forall_forall. intros e He.
    assert (Hno : isOrphan tempDir w e = false)
      by (rewrite Forall_forall in H2; now apply H2).
    assert (Hne : e <> entry).
    { intros ->. unfold isOrphan in Hno. fold src in Hno.
      rewrite Hstart, Hsrc in Hno. discriminate. }
    assert (Hsome : is_Some (entries (fs w) !! join tempDir e))
      by (apply Hexists, elem_of_app; right; now apply elem_of_cons; right).
    unfold isOrphan in *.
    destruct (startsWith e "recovery-") eqn:Hs; cbn [andb] in *.
    - rewrite (Hothers e Hne Hs). now split.
    - split; [reflexivity|]. subst w'. unfold afterRecovery, moved. wsimpl.
      destruct (decide (recordingPathAt host w (extensionOf src) = join tempDir e))
        as [->|Hd].
      + rewrite lookup_insert_eq. now eexists.
      + rewrite lookup_insert_ne by exact Hd.
        rewrite lookup_delete_ne; [exact Hsome|]. unfold src, join. congruence. }
  exists data, (recoveredEntry host w src data), w'.
  split; [reflexivity|]. split; [discriminate|]. split; [exact Hrun|].
  repeat split; try reflexivity.
  - subst w'. unfold afterRecovery, moved. wsimpl.
    rewrite lookup_insert_ne
      by (apply not_eq_sym; now apply recordingPath_not_scratch).
    apply lookup_delete_eq.
  - subst w'. unfold afterRecovery, moved. wsimpl. apply lookup_insert_eq.
  - exact Hothers.
Qed.

(** C8. Once [finalize] has returned for an id, [discard] of that id
    returns without throwing and leaves the world as it is: the recording
    file, every other file and the catalog are untouched. *)
Theorem discard_after_finalize_noop (w w' : World) (id : string) (meta : Meta)
  (r : Recording) :
  finalize host id meta w = Ok r w' ->
  discard id w' = Ok tt w'.
Proof.
  intros H. apply discard_inactive. exact (finalize_invalidates host _ _ _ _ _ H).
Qed.

(** C10. [append] on an id that is not an open session (never begun, or
    closed by a [finalize] or a [discard] that returned) returns without
    throwing and leaves the world, and so every file, as it is. *)
Theorem append_not_open_dropped (w : World) (id : string) (buffer : list byte) :
  (active w !! id = None -> append id buffer w = Ok tt w)
  /\ (forall meta r w', finalize host id meta w = Ok r w' ->
                        append id buffer w' = Ok tt w')
  /\ (forall w', discard id w = Ok tt w' -> append id buffer w' = Ok tt w').
Proof.
  split; [apply append_inactive|]. split.
  - intros meta r w' H. apply append_inactive.
    exact (finalize_invalidates host _ _ _ _ _ H).
  - intros w' H. apply append_inactive. exact (discard_invalidates _ _ _ H).
Qed.

End Claims.

(** *** Scenario 1 and the sweep after a crash, on a concrete host *)

Definition demoHost : Host :=
  mkHost "/tmp" "/videos/Choome"
    (fun n => match n with O => "1b4e28ba" | _ => "9c2f11d0" end)
    (fun n => 1767225600000 + Z.of_nat n)%Z
    (fun z => "2026-01-01T00:00:00.00" +:+ (if Z.even z then "0" else "1") +:+ "Z")
    (fun _ => 1767225500000%Z)
    (fun _ _ _ => Some [x01; x02])
    (fun _ _ => Some (Some (7 # 2))).

Definition emptyWorld : World := mkWorld (mkFS ∅ ∅) ∅ [] 0 0.


Definition crashedWorld : World :=
  mkWorld
    (mkFS {[ "/tmp/choome" ]}
       (<[("/tmp/choome", "recovery-aa.webm") := File [x1a; x45; xdf; xa3]]>
       (<[("/tmp/choome", "recovery-bb.webm") := File []]>
       (<[("/tmp/choome", "notes.txt") := File [x05]]> ∅))))
    ∅ [] 0 0.


Lemma orphan_sweep_recovers_one_witness :
  exists data r w',
    entries (fs crashedWorld) !! ("/tmp/choome", "recovery-aa.webm") = Some (File data)
    /\ data <> []
    /\ recoverOrphaned demoHost crashedWorld = Ok [r] w'
    /\ recordings w' = [r]
    /\ rec_name r = "recording-2026-01-01T00-00-00-000Z-recovered"
    /\ rec_path r = ("/videos/Choome", "recording-2026-01-01T00-00-00-000Z.webm")
    /\ rec_duration r = 4%Q
    /\ rec_fileSize r = 4
    /\ entries (fs w') !! ("/tmp/choome", "recovery-aa.webm") = None
    /\ entries (fs w') !! ("/videos/Choome", "recording-2026-01-01T00-00-00-000Z.webm")
       = Some (File data)
    /\ active w' = ∅
    /\ (forall e, e <> "recovery-aa.webm" -> startsWith e "recovery-" = true ->
          entries (fs w') !! ("/tmp/choome", e)
          = entries (fs crashedWorld) !! ("/tmp/choome", e)).
Proof.
  destruct (orphan_sweep_recovers_one demoHost crashedWorld
              ["notes.txt"; "recovery-aa.webm"; "recovery-bb.webm"]
              "recovery-aa.webm")
    as (data & r & w' & Hsrc & Hdata & Hrun & Hrec & Hname & Hpath & Hdur & Hsize
        & Hgone & Hout & Hact & Hothers).
  - vm_compute. reflexivity.
  - vm_compute. reflexivity.
  - intros H. vm_compute in H. discriminate H.
  - exists data, r, w'.
    assert (Hd : data = [x1a; x45; xdf; xa3]).
    { vm_compute in Hsrc. now injection Hsrc as <-. }
    subst data.
    split; [exact Hsrc|]. split; [exact Hdata|]. split; [exact Hrun|].
    split; [exact Hrec|]. split; [exact Hname|]. split; [exact Hpath|].
    split; [exact Hdur|]. split; [exact Hsize|]. split; [exact Hgone|].
    split; [exact Hout|]. split; [exact Hact|]. exact Hothers.
Defined.

(** A world in which a session is open on a scratch file that holds data. *)
Definition recordingWorld : World :=
  mkWorld
    (mkFS {[ "/tmp/choome" ]}
       (<[("/tmp/choome", "recovery-1b4e28ba.webm") := File [x1a; x45; xdf; xa3]]> ∅))
    (<["1b4e28ba" := ("/tmp/choome", "recovery-1b4e28ba.webm")]> ∅) [] 1 0.

Lemma discard_after_finalize_noop_witness :
  exists r w',
    finalize demoHost "1b4e28ba" (mkMeta 12 Q1080p) recordingWorld = Ok r w'
    /\ discard "1b4e28ba" w' = Ok tt w'.
Proof.
  destruct (finalize demoHost "1b4e28ba" (mkMeta 12 Q1080p) recordingWorld)
    as [r w'|e w'] eqn:H.
  - exists r, w'. split; [reflexivity|].
    exact (discard_after_finalize_noop demoHost recordingWorld w' "1b4e28ba"
             (mkMeta 12 Q1080p) r H).
  - vm_compute in H. discriminate H.
Defined.

Lemma append_not_open_dropped_witness :
  append "never-begun" [x00] recordingWorld = Ok tt recordingWorld
  /\ (exists r w',
        finalize demoHost "1b4e28ba" (mkMeta 12 Q1080p) recordingWorld = Ok r w'
        /\ append "1b4e28ba" [x00] w' = Ok tt w')
  /\ (exists w',
        discard "1b4e28ba" recordingWorld = Ok tt w'
        /\ append "1b4e28ba" [x00] w' = Ok tt w').
Proof.
  split; [|split].
  - apply (append_not_open_dropped demoHost recordingWorld "never-begun" [x00]).
    vm_compute. reflexivity.
  - destruct (finalize demoHost "1b4e28ba" (mkMeta 12 Q1080p) recordingWorld)
      as [r w'|e w'] eqn:H.
    + exists r, w'. split; [reflexivity|].
      exact (proj1 (proj2 (append_not_open_dropped demoHost recordingWorld
                             "1b4e28ba" [x00])) (mkMeta 12 Q1080p) r w' H).
    + vm_compute in H. discriminate H.
  - destruct (discard "1b4e28ba" recordingWorld) as [[] w'|e w'] eqn:H.
    + exists w'. split; [reflexivity|].
      exact (proj2 (proj2 (append_not_open_dropped demoHost recordingWorld
                             "1b4e28ba" [x00])) w' H).
    + vm_compute in H. discriminate H.
Defined.

End Recovery.

(** ** The recording session: the [useRecording] hook

    [startRecording], the mixing of the audio sources and the duration
    timer, from [src/renderer/hooks/useRecording.ts]. What the hook asks of
    the browser and of the main process is answered by an [Env]; the calls
    it makes are logged in the order it makes them. *)

Module Session.

Inductive QualityPreset := Q720p | Q1080p | Q1440p | Q4k.
Inductive RecordingStatus := idle | recording | paused | processing.
Inductive WebcamShape := circle | rounded | square.

(** *** Media streams *)

Inductive TrackKind := video | audio.

Record Track := mkTrack { trackId : nat; kind : TrackKind }.

Record MediaStream := mkStream { streamId : nat; tracks : list Track }.

#[global] Instance QualityPreset_eq_dec : EqDecision QualityPreset.
Proof. solve_decision. Defined.
#[global] Instance TrackKind_eq_dec : EqDecision TrackKind.
Proof. solve_decision. Defined.
#[global] Instance Track_eq_dec : EqDecision Track.
Proof. solve_decision. Defined.

Definition isVideo (t : Track) : bool :=
  match kind t with video => true | audio => false end.
Definition isAudio (t : Track) : bool :=
  match kind t with video => false | audio => true end.

Definition getVideoTracks (s : MediaStream) : list Track :=
  List.filter isVideo (tracks s).
Definition getAudioTracks (s : MediaStream) : list Track :=
  List.filter isAudio (tracks s).

(** [stream.addTrack(track)]: nothing happens when the track is already in
    the stream. *)
Definition addTrack (s : MediaStream) (t : Track) : MediaStream :=
  if bool_decide (t ∈ tracks s) then s
  else mkStream (streamId s) (tracks s ++ [t]).

(** [ts.forEach((track) => stream.addTrack(track))]. *)
Definition addTracks (s : MediaStream) (ts : list Track) : MediaStream :=
  foldl addTrack s ts.

(** *** What the hook is given *)

Record SourceInfo := mkSource {
  source_id : string;
  display_id : option string;
}.

(** The fields of the recording store the hook reads. *)
Record Props := mkProps {
  selectedSource : option SourceInfo;
  includeMicrophone : bool;
  includeSystemAudio : bool;
  includeWebcam : bool;
  selectedWebcamId : option string;
  selectedMicrophoneId : option string;
  microphoneMuted : bool;
  systemAudioMuted : bool;
  quality : QualityPreset;
}.

Record Settings := mkSettings {
  s_frameRate : option Z;
  s_quality : option QualityPreset;
  s_videoBitrateKbps : option Z;
  s_webcamShape : option WebcamShape;
  s_webcamDeviceId : option string;
}.

Record OverlayConfig := mkOverlay {
  o_x : Q; o_y : Q; o_width : Q; o_height : Q;
  o_shape : option WebcamShape;
}.

(** The answers of the browser and of the main process. [None] for a call
    is a rejected promise or a thrown exception. *)
Record Env := mkEnv {
  (** [window.electronAPI?.getSettings()] *)
  envSettings : option (option Settings);
  (** [getUserMedia] on the desktop source *)
  envScreen : option MediaStream;
  (** [getWebcamOverlayConfig(displayId)]; the handler may return [null] *)
  envOverlayConfig : option (option OverlayConfig);
  (** [localStorage.getItem('choome:webcamDeviceId')] *)
  envStoredWebcamId : option string;
  (** [getUserMedia] on the webcam *)
  envWebcam : option MediaStream;
  (** whether [canvas.getContext('2d')] returns a context *)
  envCanvasContext : bool;
  (** [canvas.captureStream(frameRate)] *)
  envCanvasStream : MediaStream;
  (** whether [navigator.mediaDevices.getDisplayMedia] exists *)
  envHasGetDisplayMedia : bool;
  (** whether [setPreferredSource] resolves *)
  envSetPreferredSource : bool;
  (** [getDisplayMedia({ video: true, audio: true })] *)
  envDisplayMedia : option MediaStream;
  (** [getUserMedia] on the microphone *)
  envMicrophone : option MediaStream;
  (** whether [new AudioContext()] returns *)
  envAudioContext : bool;
  (** [createMediaStreamDestination()]: the destination's stream *)
  envDestination : option MediaStream;
  (** whether [createMediaStreamSource(stream)] returns *)
  envCreateSource : MediaStream -> bool;
  (** [MediaRecorder.isTypeSupported] *)
  envIsTypeSupported : string -> bool;
  (** [beginRecordingRecovery(mimeType)]: the [id] of what it resolves to *)
  envBeginRecovery : option (option string);
  (** whether [new MediaRecorder(stream, options)] returns *)
  envRecorderCreated : bool;
  (** whether [recorder.start(1000)] returns (the recorder then fires
      [start]) *)
  envRecorderStarted : bool;
  (** [Date.now()] when [start] fires *)
  envStartedAt : Z;
}.

(** *** Calls the hook makes, as logged *)

Inductive Call :=
| GetSettings
| SetQuality (q : QualityPreset)
| GetUserMediaScreen (sourceId : string)
| GetWebcamOverlayConfig (displayId : option string)
| GetUserMediaWebcam (deviceId : option string)
| StartCompositor (shape : WebcamShape) (overlay : option OverlayConfig)
| CaptureStream
| StopTracks (ts : list Track)
| SetSystemAudioAvailable (v : option bool)
| SetPreferredSource (sourceId : string)
| GetDisplayMedia
| GetUserMediaMicrophone (deviceId : option string)
| Toast (title : string)
| NewAudioContext
| CreateMediaStreamDestination
| CreateMediaStreamSource (s : nat)
| Connect (s : nat)
| BeginRecordingRecovery (mimeType : string)
| NewMediaRecorder (mimeType : string) (videoBitsPerSecond : Z)
| RecorderStart (timeslice : Z)
| RecorderPause
| RecorderResume
| SetStatus (s : RecordingStatus)
| SetDuration (seconds : Z).

(** *** The hook's state: its refs and what it has set in the store *)

Inductive StreamRef :=
| streamRef | screenStreamRef | webcamStreamRef | canvasStreamRef
| systemAudioStreamRef | micAudioStreamRef | mixedAudioStreamRef.

#[global] Instance StreamRef_eq_dec : EqDecision StreamRef.
Proof. solve_decision. Defined.

(** [MediaRecorder.state]. *)
Inductive RecorderState := rsInactive | rsRecording | rsPaused.

Record MediaRecorder := mkRecorder {
  r_stream : MediaStream;
  r_mimeType : string;
  r_videoBitsPerSecond : Z;
  r_state : RecorderState;
}.

Record St := mkSt {
  refs : StreamRef -> option MediaStream;
  audioContextRef : bool;
  animationFrameRef : bool;
  recoveryIdRef : option string;
  mediaRecorderRef : option MediaRecorder;
  (** [timerRef]: whether an interval is running *)
  timerRunning : bool;
  startTimeRef : Z;
  pausedDurationRef : Z;
  (** the store's [status] and [duration] *)
  status : RecordingStatus;
  duration : Z;
  (** the calls made so far, the latest first *)
  calls : list Call;
}.

Definition initial : St :=
  mkSt (fun _ => None) false false None None false 0 0 idle 0 [].

(** The calls in the order they were made. *)
Definition trace (s : St) : list Call := rev (calls s).

Definition setRef (r : StreamRef) (v : option MediaStream) (s : St) : St :=
  mkSt (fun r' => if bool_decide (r' = r) then v else refs s r')
       (audioContextRef s) (animationFrameRef s) (recoveryIdRef s)
       (mediaRecorderRef s) (timerRunning s) (startTimeRef s)
       (pausedDurationRef s) (status s) (duration s) (calls s).
Definition setAudioContext (v : bool) (s : St) : St :=
  mkSt (refs s) v (animationFrameRef s) (recoveryIdRef s) (mediaRecorderRef s)
       (timerRunning s) (startTimeRef s) (pausedDurationRef s) (status s)
       (duration s) (calls s).
Definition setAnimationFrame (v : bool) (s : St) : St :=
  mkSt (refs s) (audioContextRef s) v (recoveryIdRef s) (mediaRecorderRef s)
       (timerRunning s) (startTimeRef s) (pausedDurationRef s) (status s)
       (duration s) (calls s).
Definition setRecoveryId (v : option string) (s : St) : St :=
  mkSt (refs s) (audioContextRef s) (animationFrameRef s) v (mediaRecorderRef s)
       (timerRunning s) (startTimeRef s) (pausedDurationRef s) (status s)
       (duration s) (calls s).
Definition setRecorder (v : option MediaRecorder) (s : St) : St :=
  mkSt (refs s) (audioContextRef s) (animationFrameRef s) (recoveryIdRef s) v
       (timerRunning s) (startTimeRef s) (pausedDurationRef s) (status s)
       (duration s) (calls s).
Definition setTimer (running : bool) (s : St) : St :=
  mkSt (refs s) (audioContextRef s) (animationFrameRef s) (recoveryIdRef s)
       (mediaRecorderRef s) running (startTimeRef s) (pausedDurationRef s)
       (status s) (duration s) (calls s).
Definition setStartTime (t : Z) (s : St) : St :=
  mkSt (refs s) (audioContextRef s) (animationFrameRef s) (recoveryIdRef s)
       (mediaRecorderRef s) (timerRunning s) t (pausedDurationRef s)
       (status s) (duration s) (calls s).
Definition setPausedDuration (t : Z) (s : St) : St :=
  mkSt (refs s) (audioContextRef s) (animationFrameRef s) (recoveryIdRef s)
       (mediaRecorderRef s) (timerRunning s) (startTimeRef s) t
       (status s) (duration s) (calls s).
Definition log (c : Call) (s : St) : St :=
  mkSt (refs s) (audioContextRef s) (animationFrameRef s) (recoveryIdRef s)
       (mediaRecorderRef s) (timerRunning s) (startTimeRef s)
       (pausedDurationRef s) (status s) (duration s) (c :: calls s).
(** [setStatus(v)] of the store. *)
Definition setStatus (v : RecordingStatus) (s : St) : St :=
  log (SetStatus v)
      (mkSt (refs s) (audioContextRef s) (animationFrameRef s) (recoveryIdRef s)
            (mediaRecorderRef s) (timerRunning s) (startTimeRef s)
            (pausedDurationRef s) v (duration s) (calls s)).
(** [setDuration(v)] of the store. *)
Definition setDuration (v : Z) (s : St) : St :=
  log (SetDuration v)
      (mkSt (refs s) (audioContextRef s) (animationFrameRef s) (recoveryIdRef s)
            (mediaRecorderRef s) (timerRunning s) (startTimeRef s)
            (pausedDurationRef s) (status s) v (calls s)).

(** *** Steps that may throw *)

Inductive res (A : Type) :=
| Done (a : A) (s : St)
| Raise (s : St).
Arguments Done {A} a s.
Arguments Raise {A} s.

Definition P (A : Type) : Type := St -> res A.

Definition ret {A} (a : A) : P A := fun s => Done a s.
Definition raise {A} : P A := fun s => Raise s.
Definition bind {A B} (m : P A) (k : A -> P B) : P B :=
  fun s => match m s with
           | Done a s' => k a s'
           | Raise s' => Raise s'
           end.
Definition tryCatch {A} (m : P A) (h : P A) : P A :=
  fun s => match m s with
           | Done a s' => Done a s'
           | Raise s' => h s'
           end.
(** A state change that cannot throw. *)
Definition act (f : St -> St) : P unit := fun s => Done tt (f s).
(** A logged call answered by the environment. *)
Definition call {A} (c : Call) (answer : option A) : P A :=
  fun s => match answer with
           | Some a => Done a (log c s)
           | None => Raise (log c s)
           end.
(** [if (c) { m }]. *)
Definition when (c : bool) (m : P unit) : P unit := if c then m else ret tt.

Notation "'do!' x ':=' m 'in' k" := (bind m (fun x => k))
  (at level 10, x pattern, m at level 100, k at level 200).
Notation "m ';;;' k" := (bind m (fun _ => k))
  (at level 100, k at level 200, right associativity).

(** *** [startRecording] *)

(** [a || b] on strings that may be missing: [null], [undefined] and the
    empty string are falsy. *)
Definition orString (a b : option string) : option string :=
  match a with
  | Some x => if String.eqb x "" then b else a
  | None => b
  end.

(** [a ?? b]. *)
Definition orNullish {A} (a b : option A) : option A :=
  match a with Some _ => a | None => b end.

(** [stream.getTracks().forEach((track) => track.stop())]. *)
Definition stopAll (ts : list Track) : P unit := act (log (StopTracks ts)).

(** The body of [try] under [if (includeWebcam)]: returns the stream of the
    canvas the compositor draws on. *)
Definition webcamOverlay (props : Props) (env : Env) (source : SourceInfo)
  (settings : option Settings) : P MediaStream :=
  do! overlayConfig :=
    call (GetWebcamOverlayConfig (display_id source)) (envOverlayConfig env) in
  let webcamShape :=
    default circle (orNullish (overlayConfig ≫= o_shape)
                              (settings ≫= s_webcamShape)) in
  let persistedWebcamId :=
    orString (orString (selectedWebcamId props) (settings ≫= s_webcamDeviceId))
             (envStoredWebcamId env) in
  do! webcamStream :=
    call (GetUserMediaWebcam persistedWebcamId) (envWebcam env) in
  act (setRef webcamStreamRef (Some webcamStream)) ;;;
  (if envCanvasContext env then ret tt else raise) ;;;
  act (log (StartCompositor webcamShape overlayConfig)) ;;;
  act (setAnimationFrame true) ;;;
  do! canvasStream := call CaptureStream (Some (envCanvasStream env)) in
  act (setRef canvasStreamRef (Some canvasStream)) ;;;
  ret canvasStream.

(** The [catch (webcamError)] that falls back to the screen alone. *)
Definition webcamFallback : P unit :=
  fun s => match refs s webcamStreamRef with
           | Some webcamStream =>
               Done tt (setRef webcamStreamRef None
                          (log (StopTracks (tracks webcamStream)) s))
           | None => Done tt s
           end.

(** The system audio block: the streams it pushes onto [audioStreams]. *)
Definition systemAudio (props : Props) (env : Env) (source : SourceInfo)
  : P (list MediaStream) :=
  if includeSystemAudio props && negb (systemAudioMuted props) then
    tryCatch
      ((if envHasGetDisplayMedia env then ret tt else raise) ;;;
       call (SetPreferredSource (source_id source))
            (if envSetPreferredSource env then Some tt else None) ;;;
       do! displayStream := call GetDisplayMedia (envDisplayMedia env) in
       act (setRef systemAudioStreamRef (Some displayStream)) ;;;
       stopAll (getVideoTracks displayStream) ;;;
       if (0 <? length (getAudioTracks displayStream))%nat then
         act (log (SetSystemAudioAvailable (Some true))) ;;;
         ret [displayStream]
       else
         act (log (SetSystemAudioAvailable (Some false))) ;;;
         ret [])
      (act (log (Toast "System audio unavailable")) ;;;
       act (log (SetSystemAudioAvailable (Some false))) ;;;
       ret [])
  else ret [].

(** The microphone block: the streams it pushes onto [audioStreams]. *)
Definition microphone (props : Props) (env : Env) : P (list MediaStream) :=
  if includeMicrophone props && negb (microphoneMuted props) then
    tryCatch
      (do! micStream :=
         call (GetUserMediaMicrophone (orString (selectedMicrophoneId props) None))
              (envMicrophone env) in
       act (setRef micAudioStreamRef (Some micStream)) ;;;
       ret [micStream])
      (act (log (Toast "Microphone unavailable")) ;;; ret [])
  else ret [].

(** [audioStreams.forEach((stream) => { createMediaStreamSource; connect })]. *)
Fixpoint connectAll (env : Env) (audioStreams : list MediaStream) : P unit :=
  match audioStreams with
  | [] => ret tt
  | stream :: rest =>
      call (CreateMediaStreamSource (streamId stream))
           (if envCreateSource env stream then Some tt else None) ;;;
      act (log (Connect (streamId stream))) ;;;
      connectAll env rest
  end.

(** The audio of the recording: one source is passed through, several are
    mixed, and a failure to build the mixing graph falls back to the first
    source. Returns [combinedStream] with the audio tracks added. *)
Definition mixAudio (env : Env) (audioStreams : list MediaStream)
  (combinedStream : MediaStream) : P MediaStream :=
  match audioStreams with
  | [] => ret combinedStream
  | [only] => ret (addTracks combinedStream (getAudioTracks only))
  | first :: _ =>
      tryCatch
        (call NewAudioContext (if envAudioContext env then Some tt else None) ;;;
         act (setAudioContext true) ;;;
         do! destination :=
           call CreateMediaStreamDestination (envDestination env) in
         connectAll env audioStreams ;;;
         act (setRef mixedAudioStreamRef (Some destination)) ;;;
         ret (addTracks combinedStream (getAudioTracks destination)))
        (ret (addTracks combinedStream (getAudioTracks first)))
  end.

(** The codec: VP9 with Opus, else VP8 with Opus, else plain WebM. *)
Definition chooseMimeType (env : Env) : string :=
  let m1 := "video/webm;codecs=vp9,opus" in
  let m2 := if envIsTypeSupported env m1 then m1 else "video/webm;codecs=vp8,opus" in
  if envIsTypeSupported env m2 then m2 else "video/webm".

Definition bitrates (q : QualityPreset) : Z :=
  match q with
  | Q720p => 6000000
  | Q1080p => 12000000
  | Q1440p => 20000000
  | Q4k => 40000000
  end.

Definition chooseBitrate (settings : option Settings) (effectiveQuality : QualityPreset) : Z :=
  match settings ≫= s_videoBitrateKbps with
  | Some kbps => if (kbps =? 0)%Z then bitrates effectiveQuality else (kbps * 1000)%Z
  | None => bitrates effectiveQuality
  end.

Definition setRecorderState (st : RecorderState) (s : St) : St :=
  match mediaRecorderRef s with
  | Some r =>
      setRecorder (Some (mkRecorder (r_stream r) (r_mimeType r)
                                    (r_videoBitsPerSecond r) st)) s
  | None => s
  end.

(** [mediaRecorder.onstart]. *)
Definition onstart (now : Z) (s : St) : St :=
  setTimer true (setPausedDuration 0 (setStartTime now (setStatus recording s))).

(** The callback of the one-second interval. *)
Definition onInterval (now : Z) (s : St) : St :=
  if timerRunning s then
    let elapsed := (now - startTimeRef s - pausedDurationRef s)%Z in
    setDuration (elapsed / 1000)%Z s
  else s.

(** The video of the recording: the screen, or with [includeWebcam] the
    canvas on which the compositor overlays the webcam, falling back to the
    screen when the overlay cannot be started. *)
Definition videoSource (props : Props) (env : Env) (source : SourceInfo)
  (settings : option Settings) (screenStream : MediaStream) : P MediaStream :=
  if includeWebcam props then
    tryCatch (webcamOverlay props env source settings)
             (webcamFallback ;;; ret screenStream)
  else ret screenStream.

(** The audio sources acquired, system audio first. *)
Definition audioSources (props : Props) (env : Env) (source : SourceInfo)
  : P (list MediaStream) :=
  act (log (SetSystemAudioAvailable None)) ;;;
  do! fromSystem := systemAudio props env source in
  do! fromMicrophone := microphone props env in
  ret (fromSystem ++ fromMicrophone).

(** From [streamRef.current = combinedStream] to [recorder.start(1000)]. *)
Definition startEncoder (env : Env) (settings : option Settings)
  (effectiveQuality : QualityPreset) (combinedStream : MediaStream) : P unit :=
  act (setRef streamRef (Some combinedStream)) ;;;
  let mimeType := chooseMimeType env in
  tryCatch
    (do! recovery :=
       call (BeginRecordingRecovery mimeType) (envBeginRecovery env) in
     act (setRecoveryId recovery))
    (act (setRecoveryId None)) ;;;
  let videoBitsPerSecond := chooseBitrate settings effectiveQuality in
  call (NewMediaRecorder mimeType videoBitsPerSecond)
       (if envRecorderCreated env then Some tt else None) ;;;
  act (setRecorder
         (Some (mkRecorder combinedStream mimeType videoBitsPerSecond
                           rsInactive))) ;;;
  call (RecorderStart 1000)
       (if envRecorderStarted env then Some tt else None) ;;;
  act (setRecorderState rsRecording) ;;;
  act (onstart (envStartedAt env)).

Definition startRecording (props : Props) (env : Env) : P unit :=
  match selectedSource props with
  | None => ret tt
  | Some source =>
      tryCatch
        (do! settings := call GetSettings (envSettings env) in
         let effectiveQuality :=
           default (quality props) (settings ≫= s_quality) in
         when (match settings ≫= s_quality with
               | Some q => negb (bool_decide (q = quality props))
               | None => false
               end)
              (act (log (SetQuality effectiveQuality))) ;;;
         do! screenStream :=
           call (GetUserMediaScreen (source_id source)) (envScreen env) in
         act (setRef screenStreamRef (Some screenStream)) ;;;
         let combinedStream := mkStream 0 [] in
         do! videoSourceStream :=
           videoSource props env source settings screenStream in
         let combinedStream :=
           addTracks combinedStream (getVideoTracks videoSourceStream) in
         do! audioStreams := audioSources props env source in
         do! combinedStream := mixAudio env audioStreams combinedStream in
         startEncoder env settings effectiveQuality combinedStream)
        (act (log (Toast "Recording failed")) ;;; act (setStatus idle))
  end.

(** *** Pause and resume *)

Definition pauseRecording (s : St) : St :=
  match mediaRecorderRef s with
  | Some r =>
      match r_state r with
      | rsRecording =>
          setTimer false
            (setStatus paused (setRecorderState rsPaused (log RecorderPause s)))
      | _ => s
      end
  | None => s
  end.

(** [pauseEnd] is read from the clock and not used. *)
Definition resumeRecording (pauseEnd : Z) (s : St) : St :=
  match mediaRecorderRef s with
  | Some r =>
      match r_state r with
      | rsPaused =>
          setTimer true
            (setStatus recording
               (setRecorderState rsRecording (log RecorderResume s)))
      | _ => s
      end
  | None => s
  end.

(** The state [startRecording] leaves, whether it returned or threw. *)
Definition stateOf {A} (r : res A) : St :=
  match r with Done _ s => s | Raise s => s end.

(** *** Facts about streams *)

Lemma isAudio_not_video (t : Track) : isAudio t = true -> isVideo t = false.
Proof. unfold isAudio, isVideo. now destruct (kind t). Qed.

Lemma addTrack_video (s : MediaStream) (t : Track) :
  isAudio t = true -> getVideoTracks (addTrack s t) = getVideoTracks s.
Proof.
  intros Ht. unfold addTrack. case_bool_decide; [reflexivity|].
  unfold getVideoTracks. cbn [tracks]. rewrite List.filter_app. cbn.
  rewrite (isAudio_not_video t Ht). apply app_nil_r.
Qed.

Lemma addTracks_video (ts : list Track) (s : MediaStream) :
  Forall (fun t => isAudio t = true) ts ->
  getVideoTracks (addTracks s ts) = getVideoTracks s.
Proof.
  revert s. induction ts as [|t ts IH]; intros s H; [reflexivity|].
  apply Forall_cons in H as [Ht Hts]. cbn [addTracks foldl].
  change (getVideoTracks (addTracks (addTrack s t) ts) = getVideoTracks s).
  rewrite (IH _ Hts). now apply addTrack_video.
Qed.

Lemma getAudioTracks_audio (s : MediaStream) :
  Forall (fun t => isAudio t = true) (getAudioTracks s).
Proof.
  apply Forall_forall. intros t Ht. apply list_elem_of_In in Ht.
  now apply List.filter_In in Ht.
Qed.

(** Adding tracks that are new to the stream and distinct appends them. *)
Lemma addTracks_fresh (ts : list Track) (s : MediaStream) :
  NoDup ts -> (forall t, t ∈ ts -> t ∉ tracks s) ->
  tracks (addTracks s ts) = tracks s ++ ts.
Proof.
  revert s. induction ts as [|t ts IH]; intros s Hnd Hfresh.
  - cbn. now rewrite app_nil_r.
  - apply NoDup_cons in Hnd as [Ht Hnd]. cbn [addTracks foldl].
    change (tracks (addTracks (addTrack s t) ts) = tracks s ++ t :: ts).
    assert (Hadd : tracks (addTrack s t) = tracks s ++ [t]).
    { unfold addTrack. case_bool_decide as Hin; [|reflexivity].
      destruct (Hfresh t); [left|exact Hin]. }
    rewrite IH; [rewrite Hadd; now rewrite <- app_assoc|exact Hnd|].
    intros t' Ht'. rewrite Hadd. intros Hin. apply elem_of_app in Hin as [Hin|Hin].
    + apply (Hfresh t'); [now right|exact Hin].
    + apply list_elem_of_singleton in Hin. now subst t'.
Qed.

Lemma filter_NoDup (f : Track -> bool) (l : list Track) :
  NoDup l -> NoDup (List.filter f l).
Proof.
  induction 1 as [|t l Ht Hl IH]; cbn; [constructor|].
  destruct (f t); [|exact IH]. constructor; [|exact IH].
  intros Hin. apply Ht. apply list_elem_of_In in Hin.
  apply List.filter_In in Hin as [Hin _]. now apply list_elem_of_In.
Qed.

Lemma filter_all (f : Track -> bool) (l : list Track) :
  Forall (fun t => f t = true) l -> List.filter f l = l.
Proof.
  induction 1 as [|t l Ht Hl IH]; cbn; [reflexivity|]. now rewrite Ht, IH.
Qed.

(** The audio tracks of a stream that held none, after the audio tracks of
    a source were added: the tracks of the source, unchanged. *)
Lemma addTracks_audio_passthrough (combined source : MediaStream) :
  getAudioTracks combined = [] -> NoDup (tracks source) ->
  getAudioTracks (addTracks combined (getAudioTracks source))
  = getAudioTracks source.
Proof.
  intros Hnone Hnd. unfold getAudioTracks at 1.
  rewrite addTracks_fresh.
  - rewrite List.filter_app. fold (getAudioTracks combined). rewrite Hnone.
    cbn [app]. apply filter_all, getAudioTracks_audio.
  - now apply filter_NoDup.
  - intros t Ht Hin. apply list_elem_of_In in Ht, Hin.
    apply List.filter_In in Ht as [_ Ht].
    assert (Hin' : In t (getAudioTracks combined))
      by (apply List.filter_In; now split).
    now rewrite Hnone in Hin'.
Qed.

(** The video tracks of a fresh stream to which the video tracks of a
    source were added: the video tracks of the source. *)
Lemma addTracks_video_passthrough (source : MediaStream) :
  NoDup (tracks source) ->
  getVideoTracks (addTracks (mkStream 0 []) (getVideoTracks source))
  = getVideoTracks source.
Proof.
  intros Hnd. unfold getVideoTracks at 1. rewrite addTracks_fresh.
  - cbn [tracks app]. apply filter_all. apply Forall_forall. intros t Ht.
    apply list_elem_of_In in Ht. now apply List.filter_In in Ht.
  - now apply filter_NoDup.
  - intros t _ Hin. cbn in Hin. now apply not_elem_of_nil in Hin.
Qed.

(** *** Facts about the audio mixer *)

(** Whether every step of building the mixing graph returns. *)
Definition graphBuilds (env : Env) (audioStreams : list MediaStream) : bool :=
  envAudioContext env
  && bool_decide (is_Some (envDestination env))
  && forallb (envCreateSource env) audioStreams.

Lemma connectAll_ok (env : Env) (l : list MediaStream) (s : St) :
  forallb (envCreateSource env) l = true ->
  connectAll env l s
  = Done tt (foldl (fun s' stream =>
                      log (Connect (streamId stream))
                          (log (CreateMediaStreamSource (streamId stream)) s'))
                   s l).
Proof.
  revert s. induction l as [|x l IH]; intros s H; [reflexivity|].
  cbn [forallb] in H. apply andb_prop in H as [Hx Hl].
  cbn [connectAll foldl]. unfold bind, call, act. rewrite Hx. now apply IH.
Qed.

Lemma connectAll_fail (env : Env) (l : list MediaStream) (s : St) :
  forallb (envCreateSource env) l = false ->
  exists s', connectAll env l s = Raise s' /\ refs s' = refs s.
Proof.
  revert s. induction l as [|x l IH]; intros s H; [discriminate|].
  cbn [forallb] in H. cbn [connectAll]. unfold bind, call, act.
  destruct (envCreateSource env x); cbn [andb] in H.
  - destruct (IH (log (Connect (streamId x))
                      (log (CreateMediaStreamSource (streamId x)) s)) H)
      as (s' & -> & Hrefs).
    now exists s'.
  - now eexists.
Qed.

(** C6. The audio of a recording. (1) With exactly one source no mixing
    graph is built and nothing else is touched: the source's audio tracks
    are added to the output as they are, so the output's audio tracks are
    the tracks of the source. (2) With two sources whose graph builds, both
    are connected to one destination and the output carries the
    destination's mixed track. (3) With two or more sources whose graph
    fails to build at any step, the output carries the audio tracks of the
    first acquired source alone. *)
Theorem audio_mix_cases (env : Env) (combined : MediaStream) (s : St) :
  (forall only,
     mixAudio env [only] combined s
     = Done (addTracks combined (getAudioTracks only)) s
     /\ (getAudioTracks combined = [] -> NoDup (tracks only) ->
         getAudioTracks (addTracks combined (getAudioTracks only))
         = getAudioTracks only))
  /\ (forall a b dest,
        envAudioContext env = true -> envDestination env = Some dest ->
        envCreateSource env a = true -> envCreateSource env b = true ->
        exists s',
          mixAudio env [a; b] combined s
          = Done (addTracks combined (getAudioTracks dest)) s'
          /\ refs s' mixedAudioStreamRef = Some dest
          /\ audioContextRef s' = true
          /\ calls s'
             = [Connect (streamId b); CreateMediaStreamSource (streamId b);
                Connect (streamId a); CreateMediaStreamSource (streamId a);
                CreateMediaStreamDestination; NewAudioContext] ++ calls s)
  /\ (forall first second rest,
        graphBuilds env (first :: second :: rest) = false ->
        exists s',
          mixAudio env (first :: second :: rest) combined s
          = Done (addTracks combined (getAudioTracks first)) s'
          /\ refs s' mixedAudioStreamRef = refs s mixedAudioStreamRef).
Proof.
  split; [|split].
  - intros only. split; [reflexivity|]. apply addTracks_audio_passthrough.
  - intros a b dest Hctx Hdest Ha Hb. eexists.
    unfold mixAudio, tryCatch, bind, call, act. rewrite Hctx, Hdest.
    rewrite connectAll_ok by (cbn; now rewrite Ha, Hb).
    cbn. repeat split; reflexivity.
  - intros first second rest Hfail.
    unfold mixAudio, tryCatch, bind, call, act, graphBuilds, ret in *.
    destruct (envAudioContext env); [|now eexists].
    destruct (envDestination env) as [dest|]; [|now eexists].
    cbn [andb] in Hfail.
    rewrite bool_decide_eq_true_2 in Hfail by now eexists.
    cbn [andb] in Hfail.
    destruct (connectAll_fail env (first :: second :: rest)
                (log CreateMediaStreamDestination
                   (setAudioContext true (log NewAudioContext s)))
                Hfail) as (s' & -> & Hrefs).
    exists s'. split; [reflexivity|]. now rewrite Hrefs.
Qed.

(** *** Steps that leave the webcam overlay alone *)

(** Calls other than those of the webcam overlay. *)
Definition quietCall (c : Call) : Prop :=
  match c with
  | GetWebcamOverlayConfig _ | GetUserMediaWebcam _
  | StartCompositor _ _ | CaptureStream => False
  | _ => True
  end.

(** [s'] comes from [s] by steps that do not touch the overlay. *)
Definition quiet (s s' : St) : Prop :=
  refs s' webcamStreamRef = refs s webcamStreamRef
  /\ refs s' canvasStreamRef = refs s canvasStreamRef
  /\ animationFrameRef s' = animationFrameRef s
  /\ exists new, calls s' = new ++ calls s /\ Forall quietCall new.

Lemma quiet_refl s : quiet s s.
Proof. repeat split. now exists []. Qed.

Lemma quiet_trans s1 s2 s3 : quiet s1 s2 -> quiet s2 s3 -> quiet s1 s3.
Proof.
  intros (Hw1 & Hc1 & Ha1 & n1 & Hn1 & Hq1) (Hw2 & Hc2 & Ha2 & n2 & Hn2 & Hq2).
  repeat split; try congruence.
  exists (n2 ++ n1). split; [rewrite Hn2, Hn1; apply app_assoc|].
  now apply Forall_app.
Qed.

Lemma quiet_log c s : quietCall c -> quiet s (log c s).
Proof. intros Hc. repeat split. exists [c]. split; [reflexivity|]. now constructor. Qed.

Lemma quiet_setRef r v s :
  r <> webcamStreamRef -> r <> canvasStreamRef -> quiet s (setRef r v s).
Proof.
  intros Hw Hc. unfold quiet, setRef. cbn.
  rewrite !bool_decide_eq_false_2 by congruence.
  repeat split. now exists [].
Qed.

(** [m] touches the overlay neither when it returns nor when it throws, and
    what it returns satisfies [Q]. *)
Definition safe {A} (m : P A) (Q : A -> Prop) : Prop :=
  forall s, match m s with
            | Done a s' => quiet s s' /\ Q a
            | Raise s' => quiet s s'
            end.

(** [m] returns, without touching the overlay, a value that satisfies [Q]. *)
Definition total {A} (m : P A) (Q : A -> Prop) : Prop :=
  forall s, exists a s', m s = Done a s' /\ quiet s s' /\ Q a.

Lemma safe_ret {A} (a : A) (Q : A -> Prop) : Q a -> safe (ret a) Q.
Proof. intros H s. split; [apply quiet_refl|exact H]. Qed.

Lemma safe_raise {A} (Q : A -> Prop) : safe raise Q.
Proof. intros s. apply quiet_refl. Qed.

Lemma safe_act (f : St -> St) (Q : unit -> Prop) :
  (forall s, quiet s (f s)) -> Q tt -> safe (act f) Q.
Proof. intros H HQ s. split; [apply H|exact HQ]. Qed.

Lemma safe_call {A} (c : Call) (answer : option A) :
  quietCall c -> safe (call c answer) (fun a => answer = Some a).
Proof.
  intros Hc s. unfold call. destruct answer; [split; [|reflexivity]|];
    now apply quiet_log.
Qed.

Lemma safe_bind {A B} (m : P A) (k : A -> P B) Q1 Q2 :
  safe m Q1 -> (forall a, Q1 a -> safe (k a) Q2) -> safe (bind m k) Q2.
Proof.
  intros Hm Hk s. unfold bind. specialize (Hm s).
  destruct (m s) as [a s1|s1]; [|exact Hm]. destruct Hm as [Hq Ha].
  specialize (Hk a Ha s1). destruct (k a s1) as [b s2|s2].
  - destruct Hk as [Hq2 Hb]. split; [|exact Hb]. exact (quiet_trans _ _ _ Hq Hq2).
  - exact (quiet_trans _ _ _ Hq Hk).
Qed.

Lemma total_ret {A} (a : A) (Q : A -> Prop) : Q a -> total (ret a) Q.
Proof.
  intros H s. exists a, s. split; [reflexivity|]. split; [apply quiet_refl|exact H].
Qed.

Lemma total_act (f : St -> St) (Q : unit -> Prop) :
  (forall s, quiet s (f s)) -> Q tt -> total (act f) Q.
Proof.
  intros H HQ s. exists tt, (f s). split; [reflexivity|]. split; [apply H|exact HQ].
Qed.

Lemma total_bind {A B} (m : P A) (k : A -> P B) Q1 Q2 :
  total m Q1 -> (forall a, Q1 a -> total (k a) Q2) -> total (bind m k) Q2.
Proof.
  intros Hm Hk s. unfold bind. destruct (Hm s) as (a & s1 & -> & Hq & Ha).
  destruct (Hk a Ha s1) as (b & s2 & -> & Hq2 & Hb).
  exists b, s2. split; [reflexivity|].
  split; [exact (quiet_trans _ _ _ Hq Hq2)|exact Hb].
Qed.

Lemma total_tryCatch {A} (m h : P A) Q :
  safe m Q -> total h Q -> total (tryCatch m h) Q.
Proof.
  intros Hm Hh s. unfold tryCatch. specialize (Hm s).
  destruct (m s) as [a s1|s1].
  - exists a, s1. now destruct Hm.
  - destruct (Hh s1) as (b & s2 & -> & Hq & Hb).
    exists b, s2. split; [reflexivity|].
    split; [exact (quiet_trans _ _ _ Hm Hq)|exact Hb].
Qed.

Definition anything {A} : A -> Prop := fun _ => True.

Lemma systemAudio_total props env source :
  total (systemAudio props env source) anything.
Proof.
  unfold systemAudio. destruct (_ && _); [|now apply total_ret].
  apply total_tryCatch.
  - eapply safe_bind with (Q1 := anything);
      [destruct (envHasGetDisplayMedia env);
       [now apply safe_ret|apply safe_raise]|intros _ _].
    eapply safe_bind; [now apply safe_call|intros _ _].
    eapply safe_bind; [now apply safe_call|intros displayStream _].
    eapply safe_bind with (Q1 := anything);
      [apply safe_act; [intros; now apply quiet_setRef|exact I]|intros _ _].
    eapply safe_bind with (Q1 := anything);
      [apply safe_act; [intros; now apply quiet_log|exact I]|intros _ _].
    destruct (_ <? _)%nat;
      (eapply safe_bind with (Q1 := anything);
       [apply safe_act; [intros; now apply quiet_log|exact I]
       |intros _ _; now apply safe_ret]).
  - eapply total_bind with (Q1 := anything);
      [apply total_act; [intros; now apply quiet_log|exact I]|intros _ _].
    eapply total_bind with (Q1 := anything);
      [apply total_act; [intros; now apply quiet_log|exact I]|intros _ _].
    now apply total_ret.
Qed.

Lemma microphone_total props env : total (microphone props env) anything.
Proof.
  unfold microphone. destruct (_ && _); [|now apply total_ret].
  apply total_tryCatch.
  - eapply safe_bind; [now apply safe_call|intros micStream _].
    eapply safe_bind with (Q1 := anything);
      [apply safe_act; [intros; now apply quiet_setRef|exact I]|intros _ _].
    now apply safe_ret.
  - eapply total_bind with (Q1 := anything);
      [apply total_act; [intros; now apply quiet_log|exact I]|intros _ _].
    now apply total_ret.
Qed.

Lemma audioSources_total props env source :
  total (audioSources props env source) anything.
Proof.
  unfold audioSources.
  eapply total_bind with (Q1 := anything);
    [apply total_act; [intros; now apply quiet_log|exact I]|intros _ _].
  eapply total_bind; [apply systemAudio_total|intros a _].
  eapply total_bind; [apply microphone_total|intros b _].
  now apply total_ret.
Qed.

Lemma connectAll_safe env l : safe (connectAll env l) anything.
Proof.
  induction l as [|x l IH]; cbn [connectAll]; [now apply safe_ret|].
  eapply safe_bind; [now apply safe_call|intros _ _].
  eapply safe_bind with (Q1 := anything);
    [apply safe_act; [intros; now apply quiet_log|exact I]|intros _ _].
  exact IH.
Qed.

Lemma quiet_setAudioContext v s : quiet s (setAudioContext v s).
Proof. repeat split. now exists []. Qed.

(** Whatever the mixer does, the video tracks of the output stay. *)
Lemma mixAudio_total env audioStreams combined :
  total (mixAudio env audioStreams combined)
        (fun out => getVideoTracks out = getVideoTracks combined).
Proof.
  unfold mixAudio. destruct audioStreams as [|first [|second rest]].
  - now apply total_ret.
  - apply total_ret, addTracks_video, getAudioTracks_audio.
  - apply total_tryCatch.
    + eapply safe_bind; [now apply safe_call|intros _ _].
      eapply safe_bind with (Q1 := anything);
        [apply safe_act; [intros; apply quiet_setAudioContext|exact I]|intros _ _].
      eapply safe_bind; [now apply safe_call|intros destination _].
      eapply safe_bind; [apply connectAll_safe|intros _ _].
      eapply safe_bind with (Q1 := anything);
        [apply safe_act; [intros; now apply quiet_setRef|exact I]|intros _ _].
      apply safe_ret, addTracks_video, getAudioTracks_audio.
    + apply total_ret, addTracks_video, getAudioTracks_audio.
Qed.

(** *** Facts about [startRecording] *)

Lemma bind_call_some {A B} (c : Call) (answer : option A) (a : A)
  (k : A -> P B) (s : St) :
  answer = Some a -> bind (call c answer) k s = k a (log c s).
Proof. intros ->. reflexivity. Qed.

Lemma bind_total {A B} (m : P A) (Q : A -> Prop) (s : St) :
  total m Q ->
  exists a s', quiet s s' /\ Q a /\ forall k : A -> P B, bind m k s = k a s'.
Proof.
  intros H. destruct (H s) as (a & s' & Hm & Hq & Ha). exists a, s'.
  split; [exact Hq|]. split; [exact Ha|]. intros k. unfold bind. now rewrite Hm.
Qed.

Lemma quiet_calls s s' :
  quiet s s' -> exists new, trace s' = trace s ++ new /\ Forall quietCall new.
Proof.
  intros (_ & _ & _ & new & Hnew & Hq). exists (rev new). unfold trace.
  split; [rewrite Hnew; apply rev_app_distr|].
  now apply List.Forall_rev.
Qed.

Ltac show_new_calls :=
  first
    [ now (exists []; split; [reflexivity|repeat constructor])
    | now (eexists [_]; split; [reflexivity|repeat constructor])
    | now (eexists [_; _]; split; [reflexivity|repeat constructor])
    | now (eexists [_; _; _]; split; [reflexivity|repeat constructor])
    | now (eexists [_; _; _; _]; split; [reflexivity|repeat constructor])
    | now (eexists [_; _; _; _; _]; split; [reflexivity|repeat constructor]) ].

Lemma startEncoder_started env settings q combined s :
  envRecorderCreated env = true -> envRecorderStarted env = true ->
  exists s',
    startEncoder env settings q combined s = Done tt s'
    /\ quiet s s'
    /\ status s' = recording
    /\ mediaRecorderRef s'
       = Some (mkRecorder combined (chooseMimeType env)
                          (chooseBitrate settings q) rsRecording).
Proof.
  intros Hc Hs. unfold startEncoder, bind, act, tryCatch, call.
  rewrite Hc, Hs.
  destruct (envBeginRecovery env) as [r|]; eexists;
    (split; [reflexivity|]); (split; [|split; reflexivity]);
    unfold quiet; cbn;
    (split; [reflexivity|]); (split; [reflexivity|]); (split; [reflexivity|]);
    show_new_calls.
Qed.

(** The webcam fails after the overlay geometry was asked for: the video is
    the screen's, the webcam ref is empty, no compositor runs. *)
Lemma videoSource_fallback props env source settings screen overlay s :
  includeWebcam props = true ->
  envOverlayConfig env = Some overlay -> envWebcam env = None ->
  exists s' webcamId stops,
    videoSource props env source settings screen s = Done screen s'
    /\ refs s' webcamStreamRef = None
    /\ refs s' canvasStreamRef = refs s canvasStreamRef
    /\ animationFrameRef s' = animationFrameRef s
    /\ calls s'
       = stops ++ [GetUserMediaWebcam webcamId;
                   GetWebcamOverlayConfig (display_id source)] ++ calls s
    /\ Forall quietCall stops.
Proof.
  intros Hinc Hov Hcam.
  unfold videoSource, tryCatch, webcamOverlay, webcamFallback, bind, call, ret.
  rewrite Hinc, Hov, Hcam. cbn [log refs].
  destruct (refs s webcamStreamRef) as [stale|] eqn:Hstale.
  - eexists _, _, [StopTracks (tracks stale)]. split; [reflexivity|].
    cbn. repeat split. now repeat constructor.
  - eexists _, _, []. split; [reflexivity|]. cbn. repeat split; trivial.
Qed.

(** C2, as amended. A start in which the screen is acquired, the overlay
    geometry is answered and the webcam then fails (the recorder being
    created and started): the session reaches [recording] with a recorder
    whose video tracks are the screen's, the webcam ref is empty and no
    compositor was started. The overlay geometry has been asked for exactly
    once, just before the webcam was tried. *)
Theorem webcam_failure_falls_back_to_screen (props : Props) (env : Env)
  (source : SourceInfo) (settings : option Settings) (screen : MediaStream)
  (overlay : option OverlayConfig) (s0 : St) :
  selectedSource props = Some source ->
  includeWebcam props = true ->
  envSettings env = Some settings ->
  envScreen env = Some screen ->
  NoDup (tracks screen) ->
  envOverlayConfig env = Some overlay ->
  envWebcam env = None ->
  envRecorderCreated env = true ->
  envRecorderStarted env = true ->
  exists s' r webcamId before after,
    startRecording props env s0 = Done tt s'
    /\ status s' = recording
    /\ mediaRecorderRef s' = Some r
    /\ r_state r = rsRecording
    /\ getVideoTracks (r_stream r) = getVideoTracks screen
    /\ refs s' webcamStreamRef = None
    /\ refs s' canvasStreamRef = refs s0 canvasStreamRef
    /\ animationFrameRef s' = animationFrameRef s0
    /\ trace s'
       = trace s0 ++ before
         ++ [GetWebcamOverlayConfig (display_id source);
             GetUserMediaWebcam webcamId]
         ++ after
    /\ Forall quietCall before
    /\ Forall quietCall after.
Proof.
  intros Hsel Hinc Hset Hscr Hnd Hov Hcam Hrc Hrs.
  unfold startRecording. rewrite Hsel. unfold tryCatch.
  rewrite (bind_call_some _ _ _ _ _ Hset). cbv zeta.
  set (q := default (quality props) (settings ≫= s_quality)).
  destruct (bind_total (B := unit)
              (when match settings ≫= s_quality with
                    | Some q0 => negb (bool_decide (q0 = quality props))
                    | None => false
                    end (act (log (SetQuality q))))
              anything (log GetSettings s0))
    as ([] & s1 & Hq1 & _ & ->).
  { unfold when. destruct (match _ with Some _ => _ | None => _ end).
    - apply total_act; [intros; now apply quiet_log|exact I].
    - now apply total_ret. }
  rewrite (bind_call_some _ _ _ _ _ Hscr).
  unfold bind at 1, act at 1.
  set (s2 := setRef screenStreamRef (Some screen)
               (log (GetUserMediaScreen (source_id source)) s1)).
  assert (Hq2 : quiet s0 s2).
  { apply (quiet_trans _ (log GetSettings s0)); [now apply quiet_log|].
    apply (quiet_trans _ s1); [exact Hq1|].
    apply (quiet_trans _ (log (GetUserMediaScreen (source_id source)) s1));
      [now apply quiet_log|now apply quiet_setRef]. }
  destruct (videoSource_fallback props env source settings screen overlay s2
              Hinc Hov Hcam)
    as (s3 & webcamId & stops & Hvideo & Hw3 & Hc3 & Ha3 & Hcalls3 & Hstops).
  unfold bind at 1. rewrite Hvideo.
  destruct (bind_total (B := unit) _ _ s3 (audioSources_total props env source))
    as (audioStreams & s4 & Hq4 & _ & ->).
  destruct (bind_total (B := unit) _ _ s4
              (mixAudio_total env audioStreams
                 (addTracks (mkStream 0 []) (getVideoTracks screen))))
    as (combined & s5 & Hq5 & Hvid & ->).
  destruct (startEncoder_started env settings q combined s5 Hrc Hrs)
    as (s6 & -> & Hq6 & Hstatus & Hrec).
  pose proof (quiet_trans _ _ _ (quiet_trans _ _ _ Hq4 Hq5) Hq6) as Hq36.
  destruct (quiet_calls _ _ Hq2) as (before & Hbefore & Hqb).
  destruct (quiet_calls _ _ Hq36) as (after' & Hafter & Hqa).
  destruct Hq2 as (Hw2 & Hc2 & Ha2 & _).
  destruct Hq36 as (Hw6 & Hc6 & Ha6 & _).
  eexists s6, _, webcamId, before, (rev stops ++ after').
  split; [reflexivity|]. split; [exact Hstatus|]. split; [exact Hrec|].
  split; [reflexivity|].
  split; [cbn [r_stream]; rewrite Hvid; now apply addTracks_video_passthrough|].
  split; [congruence|]. split; [congruence|]. split; [congruence|].
  split.
  { rewrite Hafter. unfold trace at 1. rewrite Hcalls3.
    rewrite !rev_app_distr. cbn [rev app]. fold (trace s2). rewrite Hbefore.
    now rewrite <- !app_assoc. }
  split; [exact Hqb|].
  apply Forall_app. split; [now apply List.Forall_rev|exact Hqa].
Qed.

(** The same start, against the claim that the overlay geometry is never
    asked for. *)
Definition neverQueried (s : St) : Prop :=
  forall displayId, GetWebcamOverlayConfig displayId ∉ trace s.

Definition screen1 : MediaStream := mkStream 1 [mkTrack 10 video].

Definition webcamProps : Props :=
  mkProps (Some (mkSource "screen:1:0" (Some "1")))
          false false true None None false false Q1080p.

(** Every call is answered, except that the webcam cannot be opened. *)
Definition webcamFailsEnv : Env :=
  mkEnv (Some (Some (mkSettings (Some 60%Z) (Some Q1080p) (Some 12000%Z)
                                (Some circle) None)))
        (Some screen1)
        (Some (Some (mkOverlay 1500 800 320 320 (Some circle))))
        None None true (mkStream 2 [mkTrack 20 video])
        true true None None true None (fun _ => true) (fun _ => true)
        (Some (Some "1b4e28ba")) true true 1767225600000.

Lemma overlay_queried_when_webcam_fails :
  envScreen webcamFailsEnv = Some screen1
  /\ includeWebcam webcamProps = true
  /\ envWebcam webcamFailsEnv = None
  /\ status (stateOf (startRecording webcamProps webcamFailsEnv initial))
     = recording
  /\ ~ neverQueried (stateOf (startRecording webcamProps webcamFailsEnv initial)).
Proof.
  repeat split. intros H. apply (H (Some "1")). vm_compute.
  apply list_elem_of_In. cbn. tauto.
Qed.

Lemma webcam_failure_falls_back_to_screen_witness :
  exists s' r webcamId before after,
    startRecording webcamProps webcamFailsEnv initial = Done tt s'
    /\ status s' = recording
    /\ mediaRecorderRef s' = Some r
    /\ r_state r = rsRecording
    /\ getVideoTracks (r_stream r) = [mkTrack 10 video]
    /\ refs s' webcamStreamRef = None
    /\ refs s' canvasStreamRef = None
    /\ animationFrameRef s' = false
    /\ trace s'
       = [] ++ before
         ++ [GetWebcamOverlayConfig (Some "1"); GetUserMediaWebcam webcamId]
         ++ after
    /\ Forall quietCall before
    /\ Forall quietCall after.
Proof.
  apply (webcam_failure_falls_back_to_screen webcamProps webcamFailsEnv
           (mkSource "screen:1:0" (Some "1"))
           (Some (mkSettings (Some 60%Z) (Some Q1080p) (Some 12000%Z)
                             (Some circle) None))
           screen1 (Some (mkOverlay 1500 800 320 320 (Some circle))) initial);
    try reflexivity.
  cbn. apply NoDup_singleton.
Defined.

(** *** The duration timer across a pause *)

(** A recorder that has just fired [start] at time [t0]. *)
Definition started (t0 : Z) : St :=
  onstart t0
    (setRecorder (Some (mkRecorder screen1 "video/webm" 12000000 rsRecording))
                 initial).

(** C5, on the code. Recording starts at 0 ms, is paused at 5000 ms and
    resumed at 65000 ms; the tick at 66000 ms reports 66 seconds: the
    minute spent paused is counted, because [pausedDurationRef] is still 0. *)
Lemma paused_interval_is_counted :
  let s := onInterval 66000
             (resumeRecording 65000
                (pauseRecording (onInterval 5000 (started 0)))) in
  status s = recording /\ pausedDurationRef s = 0%Z /\ duration s = 66%Z.
Proof. vm_compute. repeat split. Qed.

(** What happens to the timer after [start] has fired. *)
Inductive TimerEvent :=
| Tick (now : Z)
| Pause
| Resume (now : Z).

Definition timerStep (s : St) (e : TimerEvent) : St :=
  match e with
  | Tick now => onInterval now s
  | Pause => pauseRecording s
  | Resume now => resumeRecording now s
  end.

(** No step of the timer ever changes [pausedDurationRef]. *)
Lemma pausedDuration_never_moves (events : list TimerEvent) (s : St) :
  pausedDurationRef (foldl timerStep s events) = pausedDurationRef s
  /\ startTimeRef (foldl timerStep s events) = startTimeRef s.
Proof.
  revert s. induction events as [|e events IH]; intros s; [now split|].
  cbn [foldl]. destruct (IH (timerStep s e)) as [-> ->].
  destruct e; cbn [timerStep];
    unfold onInterval, pauseRecording, resumeRecording, setRecorderState.
  - now destruct (timerRunning s).
  - destruct (mediaRecorderRef s) as [r|] eqn:Hr; [|now split].
    destruct (r_state r); cbn; rewrite ?Hr; now split.
  - destruct (mediaRecorderRef s) as [r|] eqn:Hr; [|now split].
    destruct (r_state r); cbn; rewrite ?Hr; now split.
Qed.

(** *** The mixer on one and on two sources *)

Definition systemAudio1 : MediaStream :=
  mkStream 5 [mkTrack 50 video; mkTrack 51 audio].
Definition microphone1 : MediaStream := mkStream 6 [mkTrack 60 audio].
Definition mixed1 : MediaStream := mkStream 7 [mkTrack 70 audio].
Definition videoOnly : MediaStream := mkStream 0 [mkTrack 10 video].

(** Every step of building the mixing graph returns. *)
Definition mixerEnv : Env :=
  mkEnv (Some None) (Some screen1) None None None true
        (mkStream 2 [mkTrack 20 video]) true true (Some systemAudio1)
        (Some microphone1) true (Some mixed1) (fun _ => true) (fun _ => true)
        None true true 0.

(** [createMediaStreamSource] throws on the microphone's stream. *)
Definition brokenMixerEnv : Env :=
  mkEnv (Some None) (Some screen1) None None None true
        (mkStream 2 [mkTrack 20 video]) true true (Some systemAudio1)
        (Some microphone1) true (Some mixed1)
        (fun stream => negb (streamId stream =? 6)%nat) (fun _ => true)
        None true true 0.

Lemma audio_mix_cases_witness :
  (mixAudio mixerEnv [microphone1] videoOnly initial
   = Done (mkStream 0 [mkTrack 10 video; mkTrack 60 audio]) initial
   /\ getAudioTracks (addTracks videoOnly (getAudioTracks microphone1))
      = [mkTrack 60 audio])
  /\ (exists s',
        mixAudio mixerEnv [systemAudio1; microphone1] videoOnly initial
        = Done (mkStream 0 [mkTrack 10 video; mkTrack 70 audio]) s'
        /\ refs s' mixedAudioStreamRef = Some mixed1
        /\ audioContextRef s' = true
        /\ calls s'
           = [Connect 6; CreateMediaStreamSource 6;
              Connect 5; CreateMediaStreamSource 5;
              CreateMediaStreamDestination; NewAudioContext])
  /\ (exists s',
        mixAudio brokenMixerEnv [systemAudio1; microphone1] videoOnly initial
        = Done (mkStream 0 [mkTrack 10 video; mkTrack 51 audio]) s'
        /\ refs s' mixedAudioStreamRef = None).
Proof.
  split; [|split].
  - destruct (proj1 (audio_mix_cases mixerEnv videoOnly initial) microphone1)
      as [Hrun Hpass].
    split; [exact Hrun|]. apply Hpass; [reflexivity|]. cbn. apply NoDup_singleton.
  - apply (proj1 (proj2 (audio_mix_cases mixerEnv videoOnly initial))
             systemAudio1 microphone1 mixed1); reflexivity.
  - apply (proj2 (proj2 (audio_mix_cases brokenMixerEnv videoOnly initial))
             systemAudio1 microphone1 []).
    reflexivity.
Defined.

End Session.

(** ** The stream watchdog

    The staleness check of [drawFrame] and [refreshWebcamStream], from the
    compositor of the hook (the version of [useRecording] that reacquires a
    stalled webcam). [refreshWebcamStream] is an [async] function: between
    its [await]s other callbacks run, so it is modelled by the steps at
    which it is entered and at which each awaited promise settles. *)

Module Watchdog.
Import Session.

(** [a < b] on numbers. *)
Definition ltb (a b : Q) : bool := negb (Qle_bool b a).

Lemma ltb_lt (a b : Q) : ltb a b = true <-> (a < b)%Q.
Proof.
  unfold ltb. rewrite negb_true_iff. split.
  - intros H. apply Qnot_le_lt. intros Hle.
    apply Qle_bool_iff in Hle. congruence.
  - intros H. destruct (Qle_bool b a) eqn:Hle; [|reflexivity].
    apply Qle_bool_iff in Hle. now apply Qlt_not_le in H.
Qed.

Lemma ltb_ge (a b : Q) : ltb a b = false <-> (b <= a)%Q.
Proof.
  unfold ltb. rewrite negb_false_iff. apply Qle_bool_iff.
Qed.

(** The constraint sets [getWebcamStream] tries, in order. *)
Inductive Tier := preferred | reduced | deviceDefault.

Definition webcamConstraintOptions : list Tier :=
  [preferred; reduced; deviceDefault].

(** What the watchdog does to the outside, as logged. *)
Inductive Event :=
| GetWebcamStream
| GetUserMedia (tier : Tier)
| Install (newStream : MediaStream)
| SwapInput (newStream : MediaStream)
| Play
| Release (oldStream : MediaStream).

(** Where [refreshWebcamStream] is suspended, if it is running. *)
Inductive Pending :=
| notRunning
| awaitingStream
| awaitingPlay (oldStream : option MediaStream).

Record State := mkState {
  lastWebcamTime : Q;
  lastWebcamFrameAt : Q;
  webcamRefreshInFlight : bool;
  webcamRefreshCooldownUntil : Q;
  (** [webcamStreamRef.current] *)
  webcamStream : option MediaStream;
  (** [webcamVideo.srcObject], the compositor's webcam input *)
  srcObject : option MediaStream;
  (** the tracks that call [refreshWebcamStream] on [ended] and [mute] *)
  listening : list Track;
  pending : Pending;
  (** the events so far, the latest first *)
  events : list Event;
}.

(** The compositor's state when [drawFrame] is first called, at [now]. *)
Definition initialState (stream : MediaStream) (now : Q) : State :=
  mkState (-1) now false 0 (Some stream) (Some stream)
          (match getVideoTracks stream with
           | initialTrack :: _ => [initialTrack]
           | [] => []
           end)
          notRunning [].

Definition trace (s : State) : list Event := rev (events s).

Definition emit (e : Event) (s : State) : State :=
  mkState (lastWebcamTime s) (lastWebcamFrameAt s) (webcamRefreshInFlight s)
          (webcamRefreshCooldownUntil s) (webcamStream s) (srcObject s)
          (listening s) (pending s) (e :: events s).

(** The loop of [getWebcamStream]: the first constraint set that
    [getUserMedia] accepts; [None] when all are rejected. *)
Fixpoint tryTiers (gum : Tier -> option MediaStream) (options : list Tier)
  (s : State) : option MediaStream * State :=
  match options with
  | [] => (None, s)
  | constraints :: rest =>
      match gum constraints with
      | Some stream => (Some stream, emit (GetUserMedia constraints) s)
      | None => tryTiers gum rest (emit (GetUserMedia constraints) s)
      end
  end.

(** [refreshWebcamStream] from its entry to its first [await]. *)
Definition refreshWebcamStream (now : Q) (s : State) : State :=
  if webcamRefreshInFlight s || ltb now (webcamRefreshCooldownUntil s) then s
  else
    mkState (lastWebcamTime s) (lastWebcamFrameAt s) true
            (webcamRefreshCooldownUntil s) (webcamStream s) (srcObject s)
            (listening s) awaitingStream (GetWebcamStream :: events s).

(** The [finally] block. *)
Definition finally (now : Q) (s : State) : State :=
  mkState (lastWebcamTime s) now false (now + 5000)%Q (webcamStream s)
          (srcObject s) (listening s) notRunning (events s).

(** [getWebcamStream()] settles: on a stream, install it, listen to its
    first video track, make it the compositor's input and start playing
    it; on a rejection, [catch] and [finally]. *)
Definition streamSettled (gum : Tier -> option MediaStream) (now : Q)
  (s : State) : State :=
  match pending s with
  | awaitingStream =>
      match tryTiers gum webcamConstraintOptions s with
      | (Some newStream, s1) =>
          let oldStream := webcamStream s1 in
          mkState (lastWebcamTime s1) (lastWebcamFrameAt s1)
                  (webcamRefreshInFlight s1) (webcamRefreshCooldownUntil s1)
                  (Some newStream) (Some newStream)
                  (match getVideoTracks newStream with
                   | newTrack :: _ => newTrack :: listening s1
                   | [] => listening s1
                   end)
                  (awaitingPlay oldStream)
                  (Play :: SwapInput newStream :: Install newStream :: events s1)
      | (None, s1) => finally now s1
      end
  | _ => s
  end.

(** [webcamVideo.play()] settles (a rejection is caught and logged): stop
    the tracks of the old stream, then [finally]. *)
Definition playSettled (now : Q) (s : State) : State :=
  match pending s with
  | awaitingPlay oldStream =>
      finally now
        (match oldStream with
         | Some old => emit (Release old) s
         | None => s
         end)
  | _ => s
  end.

(** The staleness check at the head of [drawFrame]'s webcam branch.
    [now] is the clock read by the check, [refreshNow] the clock read on
    entry to [refreshWebcamStream]. *)
Definition drawFrame (now refreshNow : Q) (readyState : nat) (currentTime : Q)
  (s : State) : State :=
  if (2 <=? readyState)%nat then
    if negb (Qeq_bool currentTime (lastWebcamTime s)) then
      mkState currentTime now (webcamRefreshInFlight s)
              (webcamRefreshCooldownUntil s) (webcamStream s) (srcObject s)
              (listening s) (pending s) (events s)
    else if ltb 2000 (now - lastWebcamFrameAt s) then
      refreshWebcamStream refreshNow s
    else s
  else s.

(** What can happen to the compositor. *)
Inductive Input :=
| Frame (now refreshNow : Q) (readyState : nat) (currentTime : Q)
| TrackEvent (track : Track) (now : Q)
| StreamSettled (gum : Tier -> option MediaStream) (now : Q)
| PlaySettled (now : Q).

Definition step (s : State) (i : Input) : State :=
  match i with
  | Frame now refreshNow readyState currentTime =>
      drawFrame now refreshNow readyState currentTime s
  | TrackEvent track now =>
      if bool_decide (track ∈ listening s) then refreshWebcamStream now s else s
  | StreamSettled gum now => streamSettled gum now s
  | PlaySettled now => playSettled now s
  end.

Definition run (s : State) (inputs : list Input) : State := foldl step s inputs.

(** The number of reacquire attempts made so far. *)
Definition isAttempt (e : Event) : bool :=
  match e with GetWebcamStream => true | _ => false end.
Definition attempts (s : State) : nat := length (List.filter isAttempt (events s)).

(** A trigger of [refreshWebcamStream] (a frame or a track event) whose
    clock on entry is before [deadline]; settling promises are not
    triggers. *)
Definition triggerBefore (deadline : Q) (i : Input) : Prop :=
  match i with
  | Frame _ refreshNow _ _ => (refreshNow < deadline)%Q
  | TrackEvent _ now => (now < deadline)%Q
  | _ => False
  end.

Definition isTrigger (i : Input) : Prop :=
  match i with
  | Frame _ _ _ _ | TrackEvent _ _ => True
  | _ => False
  end.

(** *** Triggers that do nothing *)

Lemma refresh_blocked (now : Q) (s : State) :
  webcamRefreshInFlight s = true \/ (now < webcamRefreshCooldownUntil s)%Q ->
  refreshWebcamStream now s = s.
Proof.
  intros H. unfold refreshWebcamStream.
  destruct (webcamRefreshInFlight s); [reflexivity|].
  destruct H as [H|H]; [discriminate|].
  apply ltb_lt in H. now rewrite H.
Qed.

(** What a blocked trigger leaves as it is. *)
Definition sameWatch (s s' : State) : Prop :=
  webcamRefreshInFlight s' = webcamRefreshInFlight s
  /\ webcamRefreshCooldownUntil s' = webcamRefreshCooldownUntil s
  /\ pending s' = pending s
  /\ events s' = events s
  /\ webcamStream s' = webcamStream s
  /\ srcObject s' = srcObject s.

Lemma sameWatch_refl s : sameWatch s s.
Proof. now repeat split. Qed.

Lemma trigger_blocked (s : State) (i : Input) :
  isTrigger i ->
  webcamRefreshInFlight s = true
  \/ triggerBefore (webcamRefreshCooldownUntil s) i ->
  sameWatch s (step s i).
Proof.
  intros Hi Hb. destruct i as [now refreshNow rs ct|track now| |];
    try contradiction; cbn [step triggerBefore] in *.
  - unfold drawFrame. destruct (2 <=? rs)%nat; [|apply sameWatch_refl].
    destruct (negb _); [now repeat split|].
    destruct (ltb 2000 _); [|apply sameWatch_refl].
    rewrite refresh_blocked by exact Hb. apply sameWatch_refl.
  - case_bool_decide; [|apply sameWatch_refl].
    rewrite refresh_blocked by exact Hb. apply sameWatch_refl.
Qed.

Lemma triggers_in_flight (inputs : list Input) (s : State) :
  webcamRefreshInFlight s = true -> Forall isTrigger inputs ->
  sameWatch s (run s inputs).
Proof.
  revert s. induction inputs as [|i inputs IH]; intros s Hf Hall;
    [apply sameWatch_refl|].
  apply Forall_cons in Hall as [Hi Hall]. cbn [run foldl].
  pose proof (trigger_blocked s i Hi (or_introl Hf)) as Hs.
  assert (Hf' : webcamRefreshInFlight (step s i) = true)
    by (destruct Hs as (-> & _); exact Hf).
  specialize (IH (step s i) Hf' Hall). unfold run in IH.
  destruct Hs as (H1 & H2 & H3 & H4 & H5 & H6).
  destruct IH as (I1 & I2 & I3 & I4 & I5 & I6).
  repeat split; congruence.
Qed.

Lemma triggerBefore_isTrigger d i : triggerBefore d i -> isTrigger i.
Proof. now destruct i. Qed.

Lemma triggers_in_cooldown (inputs : list Input) (s : State) :
  Forall (triggerBefore (webcamRefreshCooldownUntil s)) inputs ->
  sameWatch s (run s inputs).
Proof.
  revert s. induction inputs as [|i inputs IH]; intros s Hall;
    [apply sameWatch_refl|].
  apply Forall_cons in Hall as [Hi Hall]. cbn [run foldl].
  pose proof (trigger_blocked s i (triggerBefore_isTrigger _ _ Hi)
                (or_intror Hi)) as Hs.
  assert (Hall' : Forall (triggerBefore (webcamRefreshCooldownUntil (step s i)))
                         inputs)
    by (destruct Hs as (_ & -> & _); exact Hall).
  specialize (IH (step s i) Hall'). unfold run in IH.
  destruct Hs as (H1 & H2 & H3 & H4 & H5 & H6).
  destruct IH as (I1 & I2 & I3 & I4 & I5 & I6).
  repeat split; congruence.
Qed.

Lemma sameWatch_attempts s s' : sameWatch s s' -> attempts s' = attempts s.
Proof. intros (_ & _ & _ & He & _). unfold attempts. now rewrite He. Qed.

(** An input that ends the attempt in flight at time [tf]: every
    constraint set is rejected, or [play()] settles. *)
Definition completesAt (tf : Q) (s : State) (i : Input) : Prop :=
  match i, pending s with
  | StreamSettled gum now, awaitingStream =>
      now = tf /\ forall tier, gum tier = None
  | PlaySettled now, awaitingPlay _ => now = tf
  | _, _ => False
  end.

Lemma tryTiers_rejected gum options s :
  (forall tier, gum tier = None) ->
  exists s', tryTiers gum options s = (None, s')
             /\ webcamRefreshInFlight s' = webcamRefreshInFlight s
             /\ attempts s' = attempts s.
Proof.
  intros Hg. revert s. induction options as [|c rest IH]; intros s; cbn.
  - now exists s.
  - rewrite Hg. destruct (IH (emit (GetUserMedia c) s)) as (s' & -> & Hf & Ha).
    exists s'. split; [reflexivity|]. split; [exact Hf|exact Ha].
Qed.

Lemma completes_cooldown tf s i :
  completesAt tf s i ->
  webcamRefreshInFlight (step s i) = false
  /\ webcamRefreshCooldownUntil (step s i) = (tf + 5000)%Q
  /\ lastWebcamFrameAt (step s i) = tf
  /\ attempts (step s i) = attempts s.
Proof.
  unfold completesAt. destruct i as [| |gum now|now]; try contradiction;
    destruct (pending s) as [| |old] eqn:Hp; try contradiction; cbn [step].
  - intros [-> Hg]. unfold streamSettled. rewrite Hp.
    destruct (tryTiers_rejected gum webcamConstraintOptions s Hg)
      as (s' & -> & _ & Ha).
    now repeat split.
  - intros ->. unfold playSettled. rewrite Hp. now destruct old.
Qed.

(** C3. The reacquire discipline of the watchdog. (a) A frame that sees
    the webcam's clock unchanged for more than 2000 ms, while no reacquire
    is in flight and no cooldown holds, starts exactly one attempt. (b)
    While an attempt is in flight, frames and track events in any number
    start none. (c) Once the attempt has ended at time [tf], by a failure
    of every constraint set or after the new stream was installed, the
    cooldown runs to [tf + 5000]: frames and track events that enter
    [refreshWebcamStream] before then start none. *)
Theorem watchdog_reacquire_discipline :
  (forall (s : State) (now refreshNow : Q) (readyState : nat) (currentTime : Q),
     webcamRefreshInFlight s = false ->
     (2 <= readyState)%nat ->
     (currentTime == lastWebcamTime s)%Q ->
     (2000 < now - lastWebcamFrameAt s)%Q ->
     (webcamRefreshCooldownUntil s <= refreshNow)%Q ->
     let s' := step s (Frame now refreshNow readyState currentTime) in
     attempts s' = S (attempts s)
     /\ webcamRefreshInFlight s' = true
     /\ pending s' = awaitingStream)
  /\ (forall (s : State) (inputs : list Input),
        webcamRefreshInFlight s = true -> Forall isTrigger inputs ->
        attempts (run s inputs) = attempts s
        /\ webcamRefreshInFlight (run s inputs) = true
        /\ trace (run s inputs) = trace s)
  /\ (forall (s : State) (i : Input) (tf : Q) (inputs : list Input),
        completesAt tf s i ->
        Forall (triggerBefore (tf + 5000)%Q) inputs ->
        webcamRefreshInFlight (step s i) = false
        /\ attempts (run (step s i) inputs) = attempts s
        /\ trace (run (step s i) inputs) = trace (step s i)).
Proof.
  split; [|split].
  - intros s now refreshNow rs ct Hf Hrs Hct Hstale Hcool. cbn [step].
    unfold drawFrame, refreshWebcamStream.
    apply Nat.leb_le in Hrs. rewrite Hrs.
    apply Qeq_bool_iff in Hct. rewrite Hct. cbn [negb].
    apply ltb_lt in Hstale. rewrite Hstale.
    apply ltb_ge in Hcool. rewrite Hf, Hcool. cbn [orb].
    now repeat split.
  - intros s inputs Hf Hall.
    pose proof (triggers_in_flight inputs s Hf Hall) as Hs.
    split; [now apply sameWatch_attempts|].
    destruct Hs as (H1 & _ & _ & H4 & _).
    split; [congruence|]. unfold trace. now rewrite H4.
  - intros s i tf inputs Hc Hall.
    destruct (completes_cooldown tf s i Hc) as (Hf & Hcool & _ & Ha).
    rewrite <- Hcool in Hall.
    pose proof (triggers_in_cooldown inputs (step s i) Hall) as Hs.
    split; [exact Hf|].
    split; [rewrite (sameWatch_attempts _ _ Hs); exact Ha|].
    destruct Hs as (_ & _ & _ & H4 & _). unfold trace. now rewrite H4.
Qed.

(** *** Install, swap, then release *)

(** On the log (latest first): every release comes right after the new
    stream was installed, made the compositor's input and played. *)
Fixpoint releasesAfterSwap (log : list Event) : Prop :=
  match log with
  | [] => True
  | Release _ :: rest =>
      (exists newStream rest',
         rest = Play :: SwapInput newStream :: Install newStream :: rest')
      /\ releasesAfterSwap rest
  | _ :: rest => releasesAfterSwap rest
  end.

(** What holds of every state the compositor can reach. *)
Definition invariant (s : State) : Prop :=
  releasesAfterSwap (events s)
  /\ forall oldStream,
       pending s = awaitingPlay oldStream ->
       exists newStream rest,
         events s = Play :: SwapInput newStream :: Install newStream :: rest
         /\ webcamStream s = Some newStream
         /\ srcObject s = Some newStream.

Lemma invariant_initial stream now : invariant (initialState stream now).
Proof. split; [exact I|]. intros old H. discriminate H. Qed.

Lemma invariant_refresh now s : invariant s -> invariant (refreshWebcamStream now s).
Proof.
  intros Hinv. unfold refreshWebcamStream. destruct (_ || _); [exact Hinv|].
  destruct Hinv as [Hlog _]. split; [exact Hlog|]. intros old H. discriminate H.
Qed.

Lemma tryTiers_log gum options s :
  releasesAfterSwap (events s) ->
  releasesAfterSwap (events (tryTiers gum options s).2)
  /\ webcamStream (tryTiers gum options s).2 = webcamStream s.
Proof.
  revert s. induction options as [|c rest IH]; intros s H; cbn; [now split|].
  destruct (gum c); [now split|].
  destruct (IH (emit (GetUserMedia c) s) H) as [H1 H2].
  split; [exact H1|exact H2].
Qed.

Lemma invariant_step s i : invariant s -> invariant (step s i).
Proof.
  intros Hinv. destruct i as [now refreshNow rs ct|track now|gum now|now];
    cbn [step].
  - unfold drawFrame. destruct (2 <=? rs)%nat; [|exact Hinv].
    destruct (negb _); [exact Hinv|].
    destruct (ltb 2000 _); [now apply invariant_refresh|exact Hinv].
  - case_bool_decide; [now apply invariant_refresh|exact Hinv].
  - unfold streamSettled. destruct (pending s) eqn:Hp; try exact Hinv.
    destruct Hinv as [Hlog _].
    destruct (tryTiers_log gum webcamConstraintOptions s Hlog) as [Hlog1 _].
    destruct (tryTiers gum webcamConstraintOptions s) as [[newStream|] s1];
      cbn [snd] in Hlog1.
    + split; [exact Hlog1|]. intros old _. now exists newStream, (events s1).
    + split; [exact Hlog1|]. intros old H. discriminate H.
  - unfold playSettled. destruct (pending s) as [| |old] eqn:Hp; try exact Hinv.
    destruct Hinv as [Hlog Hplay].
    destruct (Hplay old Hp) as (newStream & rest & Hev & _).
    destruct old as [old|].
    + split; [|intros o H; discriminate H]. cbn. split; [|exact Hlog].
      now exists newStream, rest.
    + split; [exact Hlog|intros o H; discriminate H].
Qed.

Lemma invariant_run inputs s : invariant s -> invariant (run s inputs).
Proof.
  revert s. induction inputs as [|i inputs IH]; intros s H; [exact H|].
  cbn [run foldl]. apply IH. now apply invariant_step.
Qed.

(** The same, read on the events in the order they happened. *)
Lemma releasesAfterSwap_trace (log : list Event) :
  releasesAfterSwap log ->
  forall pre oldStream post,
    rev log = pre ++ Release oldStream :: post ->
    exists pre' newStream,
      pre = pre' ++ [Install newStream; SwapInput newStream; Play].
Proof.
  induction log as [|e log IH]; intros Hlog pre old post Hrev.
  - destruct pre; discriminate Hrev.
  - cbn [rev] in Hrev.
    destruct (decide (post = [])) as [->|Hpost].
    + apply app_inj_tail in Hrev as [Hpre ->].
      destruct Hlog as [(newStream & rest' & ->) _].
      exists (rev rest'), newStream. rewrite <- Hpre. cbn [rev].
      now rewrite <- !app_assoc.
    + destruct (exists_last Hpost) as (post' & x & ->).
      rewrite app_comm_cons, app_assoc in Hrev.
      apply app_inj_tail in Hrev as [Hrev _].
      apply (IH ltac:(destruct e; cbn in Hlog; tauto) pre old post').
      exact Hrev.
Qed.

(** C4. In every run of the compositor, whatever the order of frames,
    track events and settled promises: a stream is released only right
    after the newly acquired stream was installed in the ref, made the
    compositor's input and played; and while the old stream is still to be
    released, the ref and the compositor's input already hold the new
    one. A reacquire that fails releases nothing. *)
Theorem swap_before_release (stream : MediaStream) (t0 : Q) (inputs : list Input) :
  let s := run (initialState stream t0) inputs in
  (forall pre oldStream post,
     trace s = pre ++ Release oldStream :: post ->
     exists pre' newStream,
       pre = pre' ++ [Install newStream; SwapInput newStream; Play])
  /\ (forall oldStream,
        pending s = awaitingPlay oldStream ->
        exists newStream,
          webcamStream s = Some newStream /\ srcObject s = Some newStream).
Proof.
  intros s.
  destruct (invariant_run inputs _ (invariant_initial stream t0)) as [Hlog Hplay].
  fold s in Hlog, Hplay. split.
  - now apply releasesAfterSwap_trace.
  - intros old Hp. destruct (Hplay old Hp) as (newStream & _ & _ & Hw & Hs).
    now exists newStream.
Qed.

(** *** A stalled webcam, reacquired *)

Definition camera1 : MediaStream := mkStream 3 [mkTrack 30 video].
Definition camera2 : MediaStream := mkStream 4 [mkTrack 40 video].

(** The compositor starts at 0 ms and sees a frame at 16 ms; the webcam
    then stalls. *)
Definition stalled : State :=
  run (initialState camera1 0) [Frame 16 16 4 (1 # 10)].

(** The frame at 2100 ms finds the webcam stale; the reduced constraint
    set is accepted, and [play()] settles at 2400 ms. *)
Definition reacquired : list Input :=
  [Frame 2100 2100 4 (1 # 10);
   Frame 2116 2116 4 (1 # 10);
   StreamSettled (fun tier => match tier with
                             | reduced => Some camera2
                             | _ => None
                             end) 2300;
   PlaySettled 2400].

Lemma watchdog_reacquire_discipline_witness :
  attempts (step stalled (Frame 2100 2100 4 (1 # 10))) = 1
  /\ attempts (run (step stalled (Frame 2100 2100 4 (1 # 10)))
                   [Frame 2116 2116 4 (1 # 10); TrackEvent (mkTrack 30 video) 2120])
     = 1
  /\ attempts (run (run stalled reacquired)
                   [Frame 4500 4500 4 (1 # 10); Frame 7399 7399 4 (1 # 10)])
     = 1.
Proof.
  destruct watchdog_reacquire_discipline as (Ha & Hb & Hc).
  split; [|split].
  - apply (Ha stalled 2100%Q 2100%Q 4%nat (1 # 10)%Q); try reflexivity.
    + lia.
    + vm_compute. discriminate.
  - rewrite (proj1 (Hb (step stalled (Frame 2100 2100 4 (1 # 10)))
                      [Frame 2116 2116 4 (1 # 10);
                       TrackEvent (mkTrack 30 video) 2120]
                      eq_refl ltac:(repeat constructor))).
    reflexivity.
  - change (run stalled reacquired)
      with (step (run stalled (take 3 reacquired)) (PlaySettled 2400)).
    rewrite (proj1 (proj2 (Hc (run stalled (take 3 reacquired))
                              (PlaySettled 2400) 2400%Q
                              [Frame 4500 4500 4 (1 # 10);
                               Frame 7399 7399 4 (1 # 10)]
                              eq_refl
                              ltac:(repeat constructor)))).
    reflexivity.
Defined.

Lemma swap_before_release_witness :
  trace (run stalled reacquired)
  = [GetWebcamStream; GetUserMedia preferred; GetUserMedia reduced;
     Install camera2; SwapInput camera2; Play; Release camera1]
  /\ exists pre' newStream,
       [GetWebcamStream; GetUserMedia preferred; GetUserMedia reduced;
        Install camera2; SwapInput camera2; Play]
       = pre' ++ [Install newStream; SwapInput newStream; Play].
Proof.
  split; [reflexivity|].
  apply (proj1 (swap_before_release camera1 0
                  (Frame 16 16 4 (1 # 10) :: reacquired))
               _ camera1 []).
  reflexivity.
Defined.

End Watchdog.

(** ** The placement of the webcam bubble

    The arithmetic of [drawFrame] that turns the overlay configuration into
    the rectangle the webcam is drawn in. The pure part of both versions of
    the compositor: the one of [useRecording.ts] and the one that scales
    the configuration to the canvas and follows a live drag position.
    Numbers are exact rationals; [0.02], [0.22], [0.3] and [0.18] are the
    decimal fractions the source writes. *)

Module Geometry.
Import Session.

Local Open Scope Q_scope.

(** [Math.round]: the nearest integer, halves towards positive infinity. *)
Definition mathRound (q : Q) : Q := inject_Z (Qfloor (q + (1 # 2))).

(** The truthiness of a number. *)
Definition truthy (q : Q) : bool := negb (Qeq_bool q 0).

(** [a < b]. *)
Definition ltb (a b : Q) : bool := negb (Qle_bool b a).

Record Rect := mkRect {
  pipX : Q;
  pipY : Q;
  pipWidth : Q;
  pipHeight : Q;
}.

(** What [getWebcamOverlayConfig] resolves to, as far as [drawFrame] reads
    it. [displayWidth] and [displayHeight] may be missing. *)
Record Overlay := mkOverlay {
  x : Q;
  y : Q;
  width : Q;
  height : Q;
  displayWidth : option Q;
  displayHeight : option Q;
}.

(** A position as a ratio in [0, 1] x [0, 1]. *)
Record Position := mkPosition { ratioX : Q; ratioY : Q }.

(** What a frame is drawn from. *)
Record Frame := mkFrame {
  canvasWidth : Q;
  canvasHeight : Q;
  (** [webcamVideo.videoWidth] and [videoHeight] *)
  videoWidth : Q;
  videoHeight : Q;
}.

(** The placement when no usable configuration is given: the lower right
    corner, 22% of the canvas wide. *)
Definition defaultRect (f : Frame) : Rect :=
  let margin := mathRound (Qmin (canvasWidth f) (canvasHeight f) * (2 # 100)) in
  let targetWidth := mathRound (canvasWidth f * (22 # 100)) in
  let webcamAspect :=
    if truthy (videoWidth f) && truthy (videoHeight f)
    then videoWidth f / videoHeight f
    else 16 / 9 in
  let width0 := Qmin targetWidth (canvasWidth f - margin * 2) in
  let height0 := mathRound (width0 / webcamAspect) in
  let maxHeight := mathRound (canvasHeight f * (3 # 10)) in
  let w := if ltb maxHeight height0 then mathRound (maxHeight * webcamAspect)
           else width0 in
  let h := if ltb maxHeight height0 then maxHeight else height0 in
  mkRect (canvasWidth f - w - margin) (canvasHeight f - h - margin) w h.

(** [if (config && config.width > 0 && config.height > 0)]: the configured
    rectangle, clamped to the canvas. *)
Definition configuredRect (f : Frame) (config : option Overlay) (r : Rect) : Rect :=
  match config with
  | Some c =>
      if ltb 0 (width c) && ltb 0 (height c) then
        let w := Qmin (width c) (canvasWidth f) in
        let h := Qmin (height c) (canvasHeight f) in
        mkRect (Qmin (Qmax (x c) 0) (canvasWidth f - w))
               (Qmin (Qmax (y c) 0) (canvasHeight f - h)) w h
      else r
  | None => r
  end.

(** [adjustedOverlayConfig]: the configuration scaled from the display to
    the canvas, when the display's size is known. *)
Definition adjustedOverlayConfig (f : Frame) (config : option Overlay)
  : option Overlay :=
  match config with
  | Some c =>
      match displayWidth c, displayHeight c with
      | Some dw, Some dh =>
          if truthy dw && truthy dh then
            Some (mkOverlay
                    (mathRound (x c * (canvasWidth f / dw)))
                    (mathRound (y c * (canvasHeight f / dh)))
                    (Qmax 1 (mathRound (width c * (canvasWidth f / dw))))
                    (Qmax 1 (mathRound (height c * (canvasHeight f / dh))))
                    (Some dw) (Some dh))
          else config
      | _, _ => config
      end
  | None => None
  end.

(** [if (effectivePosition)]: the rectangle moved to a position given as a
    ratio of the room left on the canvas. *)
Definition positionedRect (f : Frame) (effectivePosition : option Position)
  (r : Rect) : Rect :=
  match effectivePosition with
  | Some p =>
      let maxX := Qmax 0 (canvasWidth f - pipWidth r) in
      let maxY := Qmax 0 (canvasHeight f - pipHeight r) in
      mkRect (Qmin (Qmax (mathRound (ratioX p * maxX)) 0) maxX)
             (Qmin (Qmax (mathRound (ratioY p * maxY)) 0) maxY)
             (pipWidth r) (pipHeight r)
  | None => r
  end.

(** The resolved overlay rectangle of [useRecording.ts]. *)
Definition resolvedRect (f : Frame) (overlayConfig : option Overlay) : Rect :=
  configuredRect f overlayConfig (defaultRect f).

(** The resolved overlay rectangle of the compositor that follows a drag:
    [livePosition ?? sourcePosition] takes the place of the configured
    corner. *)
Definition resolvedRectLive (f : Frame) (overlayConfig : option Overlay)
  (livePosition sourcePosition : option Position) : Rect :=
  positionedRect f (orNullish livePosition sourcePosition)
    (configuredRect f (adjustedOverlayConfig f overlayConfig) (defaultRect f)).

(** [if (webcamShape === 'circle')]: the square of side
    [min(pipWidth, pipHeight)] in the middle of the rectangle. *)
Definition shapedRect (webcamShape : WebcamShape) (r : Rect) : Rect :=
  match webcamShape with
  | circle =>
      let diameter := Qmin (pipWidth r) (pipHeight r) in
      mkRect (pipX r + mathRound ((pipWidth r - diameter) / 2))
             (pipY r + mathRound ((pipHeight r - diameter) / 2))
             diameter diameter
  | _ => r
  end.

(** The rectangle [drawFrame] draws the webcam in ([ctx.drawImage] in
    [useRecording.ts], [drawCoverVideo] in the compositor that follows a
    drag). *)
Definition bubble (webcamShape : WebcamShape) (f : Frame)
  (overlayConfig : option Overlay) : Rect :=
  shapedRect webcamShape (resolvedRect f overlayConfig).

Definition bubbleLive (webcamShape : WebcamShape) (f : Frame)
  (overlayConfig : option Overlay) (livePosition sourcePosition : option Position)
  : Rect :=
  shapedRect webcamShape
    (resolvedRectLive f overlayConfig livePosition sourcePosition).

(** *** Facts *)

Lemma mathRound_nonneg (t : Q) : 0 <= t -> 0 <= mathRound t.
Proof.
  intros Ht. unfold mathRound.
  assert (H : (Qfloor 0 <= Qfloor (t + (1 # 2)))%Z)
    by (apply Qfloor_resp_le; lra).
  change (Qfloor 0) with 0%Z in H.
  change 0 with (inject_Z 0). now rewrite <- Zle_Qle.
Qed.

Lemma mathRound_le_double (t : Q) : 0 <= t -> mathRound t <= 2 * t.
Proof.
  intros Ht. unfold mathRound.
  pose proof (Qfloor_le (t + (1 # 2))) as Hle.
  destruct (Qlt_le_dec t (1 # 2)) as [Hsmall|Hbig]; [|lra].
  assert (H : (Qfloor (t + (1 # 2)) <= 0)%Z).
  { assert (H1 : (Qfloor (t + (1 # 2)) < 1)%Z).
    { rewrite Zlt_Qlt. eapply Qle_lt_trans; [exact Hle|].
      change (inject_Z 1) with 1. lra. }
    lia. }
  rewrite Zle_Qle in H. change (inject_Z 0) with 0 in H. lra.
Qed.

Lemma mathRound_near (t : Q) :
  t - (1 # 2) < mathRound t /\ mathRound t <= t + (1 # 2).
Proof.
  unfold mathRound. split.
  - pose proof (Qlt_floor (t + (1 # 2))) as H.
    rewrite inject_Z_plus in H. change (inject_Z 1) with 1 in H. lra.
  - apply Qfloor_le.
Qed.

(** The circle step on any rectangle. *)
Lemma shapedRect_circle (r : Rect) :
  let d := Qmin (pipWidth r) (pipHeight r) in
  let b := shapedRect circle r in
  pipWidth b = d /\ pipHeight b = d
  /\ pipX b = pipX r + mathRound ((pipWidth r - d) / 2)
  /\ pipY b = pipY r + mathRound ((pipHeight r - d) / 2)
  /\ pipX r <= pipX b /\ pipX b + d <= pipX r + pipWidth r
  /\ pipY r <= pipY b /\ pipY b + d <= pipY r + pipHeight r
  /\ -(1 # 2) < (pipX b + d / 2) - (pipX r + pipWidth r / 2) <= 1 # 2
  /\ -(1 # 2) < (pipY b + d / 2) - (pipY r + pipHeight r / 2) <= 1 # 2.
Proof.
  cbv zeta. cbn [shapedRect pipX pipY pipWidth pipHeight].
  set (d := Qmin (pipWidth r) (pipHeight r)).
  assert (Hw : d <= pipWidth r) by apply Q.le_min_l.
  assert (Hh : d <= pipHeight r) by apply Q.le_min_r.
  unfold Qdiv. change (/ 2) with (1 # 2).
  assert (Htw : 0 <= (pipWidth r - d) * (1 # 2)) by lra.
  assert (Hth : 0 <= (pipHeight r - d) * (1 # 2)) by lra.
  pose proof (mathRound_nonneg _ Htw). pose proof (mathRound_nonneg _ Hth).
  pose proof (mathRound_le_double _ Htw). pose proof (mathRound_le_double _ Hth).
  pose proof (mathRound_near ((pipWidth r - d) * (1 # 2))) as [? ?].
  pose proof (mathRound_near ((pipHeight r - d) * (1 # 2))) as [? ?].
  repeat split; try reflexivity; lra.
Qed.

(** [b] is the square of side [min(width, height)] of [r], placed in the
    middle of [r]: inside it, its centre within half a pixel of the centre
    of [r] (the offset is rounded to a whole pixel). *)
Definition centredSquareOf (r b : Rect) : Prop :=
  let d := Qmin (pipWidth r) (pipHeight r) in
  pipWidth b = pipHeight b
  /\ pipWidth b = d /\ pipHeight b = d
  /\ pipX b = pipX r + mathRound ((pipWidth r - d) / 2)
  /\ pipY b = pipY r + mathRound ((pipHeight r - d) / 2)
  /\ pipX r <= pipX b /\ pipX b + d <= pipX r + pipWidth r
  /\ pipY r <= pipY b /\ pipY b + d <= pipY r + pipHeight r
  /\ -(1 # 2) < (pipX b + d / 2) - (pipX r + pipWidth r / 2) <= 1 # 2
  /\ -(1 # 2) < (pipY b + d / 2) - (pipY r + pipHeight r / 2) <= 1 # 2.

(** C9. With the circle shape, in both versions of the compositor and for
    every frame, configuration and drag position: the rectangle the webcam
    is drawn in is as wide as it is high, its side is the smaller of the
    width and the height of the resolved overlay rectangle, and it sits in
    the middle of that rectangle. *)
Theorem circle_bubble_is_centred_square (f : Frame) (overlayConfig : option Overlay)
  (livePosition sourcePosition : option Position) :
  centredSquareOf (resolvedRect f overlayConfig) (bubble circle f overlayConfig)
  /\ centredSquareOf
       (resolvedRectLive f overlayConfig livePosition sourcePosition)
       (bubbleLive circle f overlayConfig livePosition sourcePosition).
Proof.
  unfold centredSquareOf, bubble, bubbleLive. cbv zeta. split.
  - pose proof (shapedRect_circle (resolvedRect f overlayConfig)) as H.
    cbv zeta in H. destruct H as (Hw & Hh & H).
    split; [now rewrite Hw, Hh|]. split; [exact Hw|]. split; [exact Hh|exact H].
  - pose proof (shapedRect_circle
                  (resolvedRectLive f overlayConfig livePosition sourcePosition))
      as H.
    cbv zeta in H. destruct H as (Hw & Hh & H).
    split; [now rewrite Hw, Hh|]. split; [exact Hw|]. split; [exact Hh|exact H].
Qed.

(** A 1920 x 1080 canvas and a 320 x 240 overlay at (1500, 800): the bubble
    is 240 x 240, moved 40 pixels to the right. *)
Example circle_bubble_320x240 :
  bubble circle (mkFrame 1920 1080 1280 720)
         (Some (mkOverlay 1500 800 320 240 None None))
  = mkRect (1500 + 40) (800 + 0) 240 240.
Proof. reflexivity. Qed.

(** The other shapes keep the resolved rectangle. *)
Example rounded_bubble_320x240 :
  bubble rounded (mkFrame 1920 1080 1280 720)
         (Some (mkOverlay 1500 800 320 240 None None))
  = mkRect 1500 800 320 240.
Proof. reflexivity. Qed.

End Geometry.

(** ** More on the recovery log

    What [RecordingRecoveryService] does on its failure paths, how its
    operations compose, and what the startup sweep guarantees for any
    number of scratch files. *)

Module RecoveryLaws.
Import JsString NodePath Recovery.

Section Laws.
Variable host : Host.

(** *** finalize that throws *)

Lemma finalize_throw_post (id : string) (meta : Meta) (w : World) :
  post (finalize host id meta)
    (fun _ _ => True)
    (fun e w' =>
       entries (fs w') = entries (fs w) /\ active w' = active w
       /\ recordings w' = recordings w
       /\ (active w !! id = None ->
           e = "Recovery session not found" /\ w' = w))
    w.
Proof.
  unfold finalize. apply post_bind. unfold post at 1, activeGet.
  destruct (active w !! id) as [p|] eqn:Hact.
  - cbv zeta. apply post_bind, post_generateRecordingPath.
    set (out := recordingPathAt host w (extensionOf p)).
    apply post_ensure, post_bind, post_renameSync.
    + intros n Hn. wsimpl.
      apply post_bind. unfold post at 1, activeDelete.
      apply post_bind.
      eapply post_statSync; [wsimpl; apply lookup_insert_eq|].
      apply post_bind. unfold post at 1, newDateISO.
      apply post_bind, post_thumbnail; [|intros image];
        apply post_bind; unfold post at 1, addRecording; now apply post_ret.
    + intros e _. wsimpl. split; [reflexivity|]. split; [reflexivity|].
      split; [reflexivity|]. intros Hnone. congruence.
  - unfold post, throw. now repeat split.
Qed.

(** X1. A [finalize] that throws has moved nothing: every file, the
    session map and the catalog are as before, so the session is still
    open on its scratch file. On an id with no open session it throws
    [Recovery session not found] and changes nothing at all. *)
Theorem finalize_failure_keeps_session (w w' : World) (id : string)
  (meta : Meta) (e : string) :
  finalize host id meta w = Throw e w' ->
  entries (fs w') = entries (fs w)
  /\ active w' = active w
  /\ recordings w' = recordings w
  /\ (active w !! id = None -> e = "Recovery session not found" /\ w' = w).
Proof.
  intros H. pose proof (finalize_throw_post id meta w) as Hp.
  unfold post in Hp. now rewrite H in Hp.
Qed.

(** *** discard *)

(** [discard] when the session is open, by what sits at its scratch path. *)
Lemma discard_open (w : World) (id : string) (p : path) :
  active w !! id = Some p ->
  match entries (fs w) !! p with
  | Some Directory => discard id w = Throw "EISDIR" w
  | _ =>
      discard id w
      = Ok tt (withActive (delete id (active w))
                 (withEntries (delete p (entries (fs w))) w))
  end.
Proof.
  intros Hact. unfold discard, bind, activeGet, existsSync, unlinkSync,
    activeDelete, ret.
  rewrite Hact. destruct (entries (fs w) !! p) as [[data|]|] eqn:Hp.
  - rewrite bool_decide_eq_true_2 by now eexists. cbn beta iota.
    now rewrite Hp.
  - rewrite bool_decide_eq_true_2 by now eexists. cbn beta iota.
    now rewrite Hp.
  - rewrite bool_decide_eq_false_2 by (intros [? ?]; discriminate).
    rewrite (delete_id _ _ Hp).
    now destruct w as [[] ? ? ? ?].
Qed.

(** X2. What [discard] leaves behind. When it returns, the session is
    closed and its scratch file is gone (a scratch file that was already
    gone is tolerated); no other file, no other session and no catalogue
    entry is touched. It throws only when a directory sits in the place of
    the scratch file of an open session, and then nothing has changed: the
    session is still open. *)
Theorem discard_cleans_up (w : World) (id : string) :
  match discard id w with
  | Ok _ w' =>
      active w' !! id = None
      /\ (forall p, active w !! id = Some p -> entries (fs w') !! p = None)
      /\ (forall q, active w !! id <> Some q ->
                    entries (fs w') !! q = entries (fs w) !! q)
      /\ (forall id', id' <> id -> active w' !! id' = active w !! id')
      /\ dirs (fs w') = dirs (fs w)
      /\ recordings w' = recordings w
  | Throw e w' =>
      e = "EISDIR" /\ w' = w
      /\ exists p, active w !! id = Some p
                   /\ entries (fs w) !! p = Some Directory
  end.
Proof.
  destruct (active w !! id) as [p|] eqn:Hact.
  - pose proof (discard_open w id p Hact) as H.
    destruct (entries (fs w) !! p) as [[data|]|] eqn:Hp; rewrite H.
    + wsimpl. split; [apply lookup_delete_eq|].
      split; [intros ? [= <-]; apply lookup_delete_eq|].
      split; [intros q Hq; apply lookup_delete_ne; congruence|].
      split; [intros id' Hne; now apply lookup_delete_ne|]. now split.
    + split; [reflexivity|]. split; [reflexivity|]. now exists p.
    + wsimpl. split; [apply lookup_delete_eq|].
      split; [intros ? [= <-]; apply lookup_delete_eq|].
      split; [intros q Hq; apply lookup_delete_ne; congruence|].
      split; [intros id' Hne; now apply lookup_delete_ne|]. now split.
  - unfold discard, bind, activeGet, activeDelete, ret. rewrite Hact. wsimpl.
    split; [apply lookup_delete_eq|]. split; [discriminate|].
    split; [reflexivity|].
    split; [intros id' Hne; now apply lookup_delete_ne|]. now split.
Qed.


(** *** append *)

(** X4. [append] writes to one file only. When it returns, the session
    map and the catalog are as before and every path other than the
    session's scratch path holds what it held; an open session on a regular
    file has the buffer added at its end. *)
Theorem append_touches_one_file (w w' : World) (id : string) (buffer : list byte) :
  append id buffer w = Ok tt w' ->
  active w' = active w
  /\ recordings w' = recordings w
  /\ (forall q, active w !! id <> Some q ->
                entries (fs w') !! q = entries (fs w) !! q)
  /\ (forall p old, active w !! id = Some p ->
                    entries (fs w) !! p = Some (File old) ->
                    entries (fs w') !! p = Some (File (old ++ buffer))).
Proof.
  unfold append, bind, activeGet, appendFileSync, ret.
  destruct (active w !! id) as [p|] eqn:Hact.
  - intros H. destruct (negb _); [discriminate|].
    destruct (entries (fs w) !! p) as [[old|]|] eqn:Hp; try discriminate;
      injection H as <-; wsimpl; (split; [reflexivity|]);
      (split; [reflexivity|]); split.
    + intros q Hq. apply lookup_insert_ne. congruence.
    + intros p' old' [= <-]. rewrite Hp. intros [= <-]. apply lookup_insert_eq.
    + intros q Hq. apply lookup_insert_ne. congruence.
    + intros p' old' [= <-]. rewrite Hp. discriminate.
  - intros [= <-]. repeat split; auto. intros p old H. discriminate H.
Qed.

(** *** The sweep, for any number of scratch files *)

(** One turn of the loop either skips the entry or recovers it. *)
Lemma recoverEntry_cases tempDir entry acc w :
  post (recoverEntry host tempDir entry acc)
    (fun l w' =>
       (isOrphan tempDir w entry = false /\ l = acc /\ w' = w)
       \/ exists data,
            isOrphan tempDir w entry = true
            /\ entries (fs w) !! join tempDir entry = Some (File data)
            /\ l = acc ++ [recoveredEntry host w (join tempDir entry) data]
            /\ w' = afterRecovery host w (join tempDir entry) data)
    (fun _ _ => True) w.
Proof.
  unfold recoverEntry, isOrphan.
  destruct (startsWith entry "recovery-") eqn:Hstart; cbn [negb andb];
    [|apply post_ret; now left].
  apply post_bind. unfold post at 1. unfold statSync at 1.
  set (src := join tempDir entry).
  destruct (entries (fs w) !! src) as [[[|b data]|]|] eqn:Hsrc; try exact I;
    cbn [isFile size negb orb length Nat.eqb]; try (apply post_ret; now left).
  cbv zeta. apply post_bind, post_generateRecordingPath.
  set (out := recordingPathAt host w (extensionOf src)).
  apply post_ensure, post_bind, post_renameSync; [|intros; exact I].
  intros n Hn. wsimpl. rewrite Hsrc in Hn. injection Hn as <-.
  apply post_bind. eapply post_probe; [wsimpl; apply lookup_insert_eq|].
  apply post_bind. unfold post at 1, randomUUID.
  apply post_bind. unfold post at 1, addRecording. apply post_ret. wsimpl.
  right. exists (b :: data). split; [reflexivity|]. split; [reflexivity|].
  split; [reflexivity|].
  unfold afterRecovery, recoveredEntry. cbv zeta. fold src out. wsimpl.
  now rewrite withDirs_ensured.
Qed.

(** What a recovered catalog entry looks like. *)
Definition recoveredShape (r : Recording) : Prop :=
  (exists stem, rec_name r = stem +:+ "-recovered")
  /\ dirname (rec_path r) = storagePath host
  /\ rec_fileSize r <> 0
  /\ rec_quality r = Q1080p
  /\ rec_thumbnailPath r = None
  /\ rec_deletedAt r = None.

Lemma isOrphan_after tempDir w entry data e :
  isOrphan tempDir (afterRecovery host w (join tempDir entry) data) e = true ->
  isOrphan tempDir w e = true /\ e <> entry.
Proof.
  unfold isOrphan, afterRecovery, moved. wsimpl. intros H.
  apply andb_prop in H as [Hs H]. rewrite Hs. cbn [andb].
  rewrite lookup_insert_ne in H
    by (apply not_eq_sym; now apply recordingPath_not_scratch).
  destruct (decide (e = entry)) as [->|Hne].
  - now rewrite lookup_delete_eq in H.
  - rewrite lookup_delete_ne in H by (unfold join; congruence). now split.
Qed.

Lemma recoverEntries_inv tempDir names acc w :
  post (recoverEntries host tempDir names acc)
    (fun l w' =>
       exists new,
         l = acc ++ new
         /\ recordings w' = rev new ++ recordings w
         /\ active w' = active w
         /\ dirs (fs w) ⊆ dirs (fs w')
         /\ Forall recoveredShape new
         /\ forall e, isOrphan tempDir w' e = true ->
                      isOrphan tempDir w e = true /\ e ∉ names)
    (fun _ _ => True) w.
Proof.
  revert acc w. induction names as [|entry rest IH]; intros acc w.
  - apply post_ret. exists []. rewrite app_nil_r.
    repeat split; auto. apply not_elem_of_nil.
  - cbn [recoverEntries]. apply post_bind.
    pose proof (recoverEntry_cases tempDir entry acc w) as Hone.
    unfold post in Hone |- *.
    destruct (recoverEntry host tempDir entry acc w) as [l1 w1|]; [|exact I].
    specialize (IH l1 w1). unfold post in IH.
    destruct (recoverEntries host tempDir rest l1 w1) as [l w'|]; [|exact I].
    destruct IH as (new & -> & Hrec & Hact & Hdirs & Hshape & Horph).
    destruct Hone as [(Hno & -> & ->)|(data & Hyes & Hsrc & -> & ->)].
    + exists new. repeat split; auto.
      * now apply Horph.
      * intros Hin. apply elem_of_cons in Hin as [->|Hin].
        -- destruct (Horph _ H) as [Ho _]. congruence.
        -- now destruct (Horph _ H).
    + exists (recoveredEntry host w (join tempDir entry) data :: new).
      split; [now rewrite <- app_assoc|].
      split; [rewrite Hrec; cbn [rev]; now rewrite <- app_assoc|].
      split; [exact Hact|].
      split.
      { etransitivity; [|exact Hdirs]. unfold afterRecovery, ensured. wsimpl.
        case_bool_decide; [reflexivity|apply union_subseteq_r]. }
      split.
      { constructor; [|exact Hshape]. unfold recoveredShape, recoveredEntry.
        cbn. repeat split; try reflexivity; [now eexists|].
        unfold isOrphan in Hyes. rewrite Hsrc in Hyes.
        destruct data; [now rewrite andb_false_r in Hyes|discriminate]. }
      intros e He. destruct (Horph e He) as [Ho Hrest].
      destruct (isOrphan_after _ _ _ _ _ Ho) as [Hw Hne].
      split; [exact Hw|]. intros Hin. apply elem_of_cons in Hin as [?|?]; auto.
Qed.

Lemma readdirSync_complete d w names e :
  readdirSync d w = Ok names w ->
  is_Some (entries (fs w) !! join d e) -> e ∈ names.
Proof.
  unfold readdirSync. destruct (negb _); [discriminate|]. intros [= <-] [n Hn].
  apply list_elem_of_omap. exists ((d, e), n). split.
  - now apply elem_of_map_to_list.
  - cbn. now rewrite String.eqb_refl.
Qed.

Lemma recoverOrphaned_inv (w : World) :
  post (recoverOrphaned host)
    (fun l w' =>
       recordings w' = rev l ++ recordings w
       /\ active w' = active w
       /\ Forall recoveredShape l
       /\ (((getTempPath host ∉ dirs (fs w)) /\ l = [] /\ w' = w)
           \/ (getTempPath host ∈ dirs (fs w')
               /\ forall e, isOrphan (getTempPath host) w' e = false)))
    (fun _ _ => True) w.
Proof.
  unfold recoverOrphaned. cbv zeta. apply post_bind.
  unfold post at 1, existsSyncDir.
  case_bool_decide as Hdir; cbn [negb].
  - apply post_bind. unfold post at 1.
    destruct (readdirSync (getTempPath host) w) as [names w0|] eqn:Hread;
      [|exact I].
    assert (w0 = w) as ->.
    { unfold readdirSync in Hread. destruct (negb _); now inversion Hread. }
    pose proof (recoverEntries_inv (getTempPath host) names [] w) as H.
    unfold post in H |- *.
    destruct (recoverEntries host (getTempPath host) names [] w) as [l w'|];
      [|exact I].
    destruct H as (new & -> & Hrec & Hact & Hdirs & Hshape & Horph).
    cbn [app]. split; [exact Hrec|]. split; [exact Hact|].
    split; [exact Hshape|]. right. split; [apply Hdirs, Hdir|].
    intros e. destruct (isOrphan (getTempPath host) w' e) eqn:He; [|reflexivity].
    destruct (Horph e He) as [Ho Hnot]. destruct Hnot.
    apply (readdirSync_complete _ _ _ _ Hread).
    unfold isOrphan in Ho. apply andb_prop in Ho as [_ Ho].
    destruct (entries (fs w) !! join (getTempPath host) e);
      [now eexists|discriminate].
  - apply post_ret. split; [reflexivity|]. split; [reflexivity|].
    split; [constructor|]. now left.
Qed.

(** X5. Whatever the scratch directory holds, a sweep that returns has put
    exactly the entries it returns at the head of the catalogue, the last
    recovered first, and has left the table of open sessions alone.  Each
    returned entry is named [<stem>-recovered], lies in the storage
    directory, has a non-zero size, quality 1080p, no thumbnail and no
    deletion date. *)
Theorem sweep_adds_what_it_returns (w w' : World) (l : list Recording) :
  recoverOrphaned host w = Ok l w' ->
  recordings w' = rev l ++ recordings w
  /\ active w' = active w
  /\ Forall recoveredShape l.
Proof.
  intros H. pose proof (recoverOrphaned_inv w) as Hp. unfold post in Hp.
  rewrite H in Hp. tauto.
Qed.

(** X6. The sweep is idempotent: right after a sweep that returned, a second
    sweep finds nothing to recover, returns the empty list and changes
    nothing. *)
Theorem sweep_twice_finds_nothing (w w' : World) (l : list Recording) :
  recoverOrphaned host w = Ok l w' ->
  recoverOrphaned host w' = Ok [] w'.
Proof.
  intros H. pose proof (recoverOrphaned_inv w) as Hp. unfold post in Hp.
  rewrite H in Hp. destruct Hp as (_ & _ & _ & [(Hno & -> & ->)|(Hdir & Hnone)]).
  - exact H.
  - unfold recoverOrphaned. cbv zeta. unfold bind at 1. unfold existsSyncDir.
    rewrite bool_decide_eq_true_2 by exact Hdir. cbn [negb].
    unfold bind. destruct (readdirSync (getTempPath host) w') as [names w0|] eqn:Hread.
    + assert (w0 = w') as ->.
      { unfold readdirSync in Hread. destruct (negb _); now inversion Hread. }
      apply recoverEntries_skip. apply Forall_forall. intros e He.
      split; [apply Hnone|]. eapply readdirSync_elem; eauto.
    + unfold readdirSync in Hread.
      rewrite bool_decide_eq_true_2 in Hread by exact Hdir. discriminate.
Qed.

End Laws.
(** *** The laws at work *)

(** A directory sits where the finished recording would go. *)
Definition blockedWorld : World :=
  withEntries
    (<[("/videos/Choome", "recording-2026-01-01T00-00-00-000Z.webm") := Directory]>
       (entries (fs recordingWorld)))
    recordingWorld.

Lemma finalize_failure_keeps_session_witness :
  exists e w',
    finalize demoHost "1b4e28ba" (mkMeta 12 Q1080p) blockedWorld = Throw e w'
    /\ entries (fs w') = entries (fs blockedWorld)
    /\ active w' = active blockedWorld
    /\ recordings w' = recordings blockedWorld.
Proof.
  destruct (finalize demoHost "1b4e28ba" (mkMeta 12 Q1080p) blockedWorld)
    as [r w'|e w'] eqn:H.
  - vm_compute in H. discriminate H.
  - exists e, w'. split; [reflexivity|].
    destruct (finalize_failure_keeps_session demoHost blockedWorld w'
                "1b4e28ba" (mkMeta 12 Q1080p) e H) as (H1 & H2 & H3 & _).
    split; [exact H1|]. split; [exact H2|exact H3].
Defined.

Lemma discard_cleans_up_witness :
  exists w',
    discard "1b4e28ba" recordingWorld = Ok tt w'
    /\ active w' !! "1b4e28ba" = None
    /\ entries (fs w') !! ("/tmp/choome", "recovery-1b4e28ba.webm") = None.
Proof.
  pose proof (discard_cleans_up recordingWorld "1b4e28ba") as H.
  destruct (discard "1b4e28ba" recordingWorld) as [[] w'|e w'] eqn:Hrun.
  - exists w'. split; [reflexivity|]. destruct H as (Hclosed & Hgone & _).
    split; [exact Hclosed|]. now apply Hgone.
  - vm_compute in Hrun. discriminate Hrun.
Defined.


Lemma append_touches_one_file_witness :
  exists w',
    append "1b4e28ba" [x00; x01] recordingWorld = Ok tt w'
    /\ entries (fs w') !! ("/tmp/choome", "recovery-1b4e28ba.webm")
       = Some (File [x1a; x45; xdf; xa3; x00; x01])
    /\ active w' = active recordingWorld.
Proof.
  destruct (append "1b4e28ba" [x00; x01] recordingWorld) as [[] w'|e w'] eqn:H.
  - exists w'. split; [reflexivity|].
    destruct (append_touches_one_file recordingWorld w' "1b4e28ba" [x00; x01] H)
      as (Hact & _ & _ & Hfile).
    split; [|exact Hact].
    apply (Hfile ("/tmp/choome", "recovery-1b4e28ba.webm") [x1a; x45; xdf; xa3]);
      reflexivity.
  - vm_compute in H. discriminate H.
Defined.

Lemma sweep_adds_what_it_returns_witness :
  exists l w',
    recoverOrphaned demoHost crashedWorld = Ok l w'
    /\ recordings w' = rev l ++ recordings crashedWorld
    /\ active w' = active crashedWorld
    /\ Forall (recoveredShape demoHost) l.
Proof.
  destruct (recoverOrphaned demoHost crashedWorld) as [l w'|e w'] eqn:H.
  - exists l, w'. split; [reflexivity|].
    exact (sweep_adds_what_it_returns demoHost crashedWorld w' l H).
  - vm_compute in H. discriminate H.
Defined.

Lemma sweep_twice_finds_nothing_witness :
  exists l w',
    recoverOrphaned demoHost crashedWorld = Ok l w'
    /\ recoverOrphaned demoHost w' = Ok [] w'.
Proof.
  destruct (recoverOrphaned demoHost crashedWorld) as [l w'|e w'] eqn:H.
  - exists l, w'. split; [reflexivity|].
    exact (sweep_twice_finds_nothing demoHost crashedWorld w' l H).
  - vm_compute in H. discriminate H.
Defined.

End RecoveryLaws.

(** ** The save and register handlers

    [recording:save] and [storage:addRecording] of the main process: the
    route a recording takes when the recovery log could not be finalized,
    and the route an edited file takes into the catalog. The window is told
    of the entry each handler returns. *)

Module Handlers.
Import JsString NodePath Recovery.

(** [s.includes(sub)]. *)
Fixpoint includes (s sub : string) : bool :=
  if String.prefix sub s then true
  else match s with
       | EmptyString => false
       | String _ s' => includes s' sub
       end.

Record RecordingSaveRequest := mkSaveRequest {
  save_buffer : list byte;
  save_mimeType : option string;
  save_duration : Q;
  save_quality : QualityPreset;
}.

Record RecordingRegisterRequest := mkRegisterRequest {
  reg_path : path;
  reg_duration : Q;
  reg_quality : QualityPreset;
  reg_name : option string;
}.

Section Handlers.
Variable host : Host.

(** [mimeType?.includes('mp4') ? 'mp4' : 'webm']. *)
Definition saveExtension (mimeType : option string) : string :=
  if match mimeType with Some m => includes m "mp4" | None => false end
  then "mp4" else "webm".

(** The [try { ... generateThumbnail ... } catch] block both handlers share
    with [finalize]. *)
Definition tryThumbnail (video : path) (duration : Q) : M (option path) :=
  tryCatch
    (let basePath := stripExt video in
     let thumbnailOutput := addSuffix basePath ".jpg" in
     let safeTimestamp := if Qle_bool duration 1 then None else Some 1%Q in
     let! _ := generateThumbnail host video thumbnailOutput safeTimestamp in
     ret (Some thumbnailOutput))
    (fun _ => ret None).

(** [ipcMain.handle('recording:save', ...)]. The entry is built without a
    [deletedAt]; [addRecording] stores it with [null]. *)
Definition recordingSave (data : RecordingSaveRequest) : M Recording :=
  let extension := saveExtension (save_mimeType data) in
  let! outputPath := generateRecordingPath host extension in
  let outputDir := dirname outputPath in
  let! present := existsSyncDir outputDir in
  let! _ := (if present then ret tt else mkdirSync outputDir) in
  let! _ := writeFileSync outputPath (save_buffer data) in
  let! stats := statSync host outputPath in
  let! createdAt := newDateISO host in
  let name := basename outputPath (extname outputPath) in
  let! thumbnailPath := tryThumbnail outputPath (save_duration data) in
  let! id := randomUUID host in
  let recording :=
    mkRecording id name outputPath (save_duration data) (size stats)
                (save_quality data) createdAt thumbnailPath None in
  let! _ := addRecording recording in
  ret recording.

(** [ipcMain.handle('storage:addRecording', ...)]. *)
Definition storageAddRecording (data : RecordingRegisterRequest) : M Recording :=
  let filePath := reg_path data in
  let! present := existsSync filePath in
  if negb present then throw "Recording file not found"
  else
    let! stats := statSync host filePath in
    let! createdAt := newDateISO host in
    let recordingName :=
      match reg_name data with
      | Some name => name
      | None => basename filePath (extname filePath)
      end in
    let! thumbnailPath := tryThumbnail filePath (reg_duration data) in
    let! id := randomUUID host in
    let recording :=
      mkRecording id recordingName filePath (reg_duration data) (size stats)
                  (reg_quality data) createdAt thumbnailPath None in
    let! _ := addRecording recording in
    ret recording.

(** *** Facts *)

Lemma post_tryThumbnail video duration (Q : option path -> World -> Prop) E w :
  Q None w ->
  (forall image,
     Q (Some (addSuffix (stripExt video) ".jpg"))
       (withEntries
          (<[addSuffix (stripExt video) ".jpg" := File image]> (entries (fs w))) w)) ->
  post (tryThumbnail video duration) Q E w.
Proof. intros Hnone Hsome. unfold tryThumbnail. cbv zeta. now apply post_thumbnail. Qed.

Lemma saveExtension_cases (mimeType : option string) :
  saveExtension mimeType = "mp4" \/ saveExtension mimeType = "webm".
Proof. unfold saveExtension. destruct (match mimeType with Some _ => _ | None => _ end); auto. Qed.

Lemma saveExtension_plain (mimeType : option string) :
  hasDot (saveExtension mimeType) = false /\ saveExtension mimeType <> "jpg".
Proof. destruct (saveExtension_cases mimeType) as [-> | ->]; now split. Qed.

Lemma recordingSave_post (data : RecordingSaveRequest) (w : World) :
  let out := recordingPathAt host w (saveExtension (save_mimeType data)) in
  post (recordingSave data)
    (fun r w' =>
       exists thumb,
         r = mkRecording (uuidAt host (uuidCalls w)) (basename out (extname out)) out
               (save_duration data) (length (save_buffer data)) (save_quality data)
               (toISOString host (dateAt host (S (dateCalls w)))) thumb None
         /\ entries (fs w') !! out = Some (File (save_buffer data))
         /\ (forall q, q <> out -> q <> addSuffix (stripExt out) ".jpg" ->
                       entries (fs w') !! q = entries (fs w) !! q)
         /\ active w' = active w
         /\ recordings w' = r :: recordings w)
    (fun _ w' =>
       entries (fs w) !! out = Some Directory
       /\ entries (fs w') = entries (fs w)
       /\ active w' = active w
       /\ recordings w' = recordings w)
    w.
Proof.
  intros out. unfold recordingSave. cbv zeta.
  apply post_bind, post_generateRecordingPath. fold out.
  apply post_ensure, post_bind, post_writeFileSync.
  - apply post_bind. eapply post_statSync; [wsimpl; apply lookup_insert_eq|].
    apply post_bind. unfold post at 1, newDateISO. wsimpl.
    assert (Hne : addSuffix (stripExt out) ".jpg" <> out).
    { apply thumbnail_ne_recording; apply saveExtension_plain. }
    apply post_bind, post_tryThumbnail; [|intros image];
      apply post_bind; unfold post at 1, randomUUID;
      apply post_bind; unfold post at 1, addRecording; apply post_ret; wsimpl.
    + exists None. split; [reflexivity|]. split; [apply lookup_insert_eq|].
      split; [|now split]. intros q Hq _. now apply lookup_insert_ne.
    + exists (Some (addSuffix (stripExt out) ".jpg")). split; [reflexivity|].
      split; [rewrite lookup_insert_ne by exact Hne; apply lookup_insert_eq|].
      split; [|now split]. intros q Hq Hq'.
      rewrite !lookup_insert_ne by now apply not_eq_sym. reflexivity.
  - intros _ [Hd|Hd]; wsimpl; [|now repeat split].
    destruct Hd. apply ensured_dirs.
Qed.

(** X7. [recording:save] returns unless a directory sits on the path of the
    new recording. The file at the path of the entry it returns holds the
    buffer it was given, byte for byte; the entry carries the length of the
    buffer, the duration and the quality of the request and a fresh id, and
    is put at the head of the catalogue. No other file is touched but the
    thumbnail beside the recording, and no recovery session is. *)
Theorem save_writes_the_buffer (data : RecordingSaveRequest) (w : World) :
  let out := recordingPathAt host w (saveExtension (save_mimeType data)) in
  entries (fs w) !! out <> Some Directory ->
  exists r w',
    recordingSave data w = Ok r w'
    /\ rec_path r = out
    /\ entries (fs w') !! out = Some (File (save_buffer data))
    /\ rec_fileSize r = length (save_buffer data)
    /\ rec_duration r = save_duration data
    /\ rec_quality r = save_quality data
    /\ rec_id r = uuidAt host (uuidCalls w)
    /\ recordings w' = r :: recordings w
    /\ active w' = active w
    /\ (forall q, q <> out -> q <> addSuffix (stripExt out) ".jpg" ->
                  entries (fs w') !! q = entries (fs w) !! q).
Proof.
  intros out Hfree.
  destruct (post_returns _ _ _ _ (recordingSave_post data w))
    as (r & w' & Hrun & thumb & -> & Hfile & Hframe & Hact & Hrec).
  { intros _ _ [Hdir _]. exact (Hfree Hdir). }
  eexists; exists w'. split; [exact Hrun|]. cbn. repeat split; auto.
Qed.

(** X8. [storage:addRecording] throws ['Recording file not found'] and
    changes nothing when nothing is at the path. When a file is there and
    its name does not end in [.jpg], the handler returns, the file keeps its
    bytes, and the entry at the head of the catalogue has the size of the
    file, the name of the request or else the file name without its
    extension, and no deletion date. *)
Theorem register_needs_the_file (data : RecordingRegisterRequest) (w : World) :
  (entries (fs w) !! reg_path data = None ->
   storageAddRecording data w = Throw "Recording file not found" w)
  /\ (forall bytes,
        entries (fs w) !! reg_path data = Some (File bytes) ->
        addSuffix (stripExt (reg_path data)) ".jpg" <> reg_path data ->
        exists r w',
          storageAddRecording data w = Ok r w'
          /\ entries (fs w') !! reg_path data = Some (File bytes)
          /\ rec_path r = reg_path data
          /\ rec_fileSize r = length bytes
          /\ rec_name r = default (basename (reg_path data) (extname (reg_path data)))
                            (reg_name data)
          /\ rec_deletedAt r = None
          /\ recordings w' = r :: recordings w).
Proof.
  split.
  - intros Hnone. unfold storageAddRecording, bind, existsSync. cbv zeta.
    rewrite bool_decide_eq_false_2; [reflexivity|].
    rewrite Hnone. now intros [? ?].
  - intros bytes Hfile Hne.
    assert (Hp : post (storageAddRecording data)
                   (fun r w' =>
                      entries (fs w') !! reg_path data = Some (File bytes)
                      /\ rec_path r = reg_path data
                      /\ rec_fileSize r = length bytes
                      /\ rec_name r
                         = default (basename (reg_path data) (extname (reg_path data)))
                             (reg_name data)
                      /\ rec_deletedAt r = None
                      /\ recordings w' = r :: recordings w)
                   (fun _ _ => False) w).
    { unfold storageAddRecording. cbv zeta. apply post_bind.
      unfold post at 1, existsSync.
      rewrite bool_decide_eq_true_2 by (eexists; exact Hfile). cbn [negb].
      apply post_bind. eapply post_statSync; [exact Hfile|].
      apply post_bind. unfold post at 1, newDateISO.
      apply post_bind, post_tryThumbnail; [|intros image];
        apply post_bind; unfold post at 1, randomUUID;
        apply post_bind; unfold post at 1, addRecording; apply post_ret; wsimpl.
      - repeat split; try assumption; now destruct (reg_name data).
      - rewrite lookup_insert_ne by exact Hne.
        repeat split; try assumption; now destruct (reg_name data). }
    destruct (post_returns _ _ _ _ Hp) as (r & w' & Hrun & H); [now intros|].
    now exists r, w'.
Qed.

End Handlers.

(** A short clip handed to [recording:save] in an empty world. *)
Definition clip1 : RecordingSaveRequest :=
  mkSaveRequest [x1a; x45; xdf; xa3; x00] (Some "video/webm;codecs=vp9") (7 # 2) Q720p.

Lemma save_writes_the_buffer_witness :
  exists r w',
    recordingSave demoHost clip1 emptyWorld = Ok r w'
    /\ rec_path r = ("/videos/Choome", "recording-2026-01-01T00-00-00-000Z.webm")
    /\ entries (fs w') !! ("/videos/Choome", "recording-2026-01-01T00-00-00-000Z.webm")
       = Some (File [x1a; x45; xdf; xa3; x00])
    /\ rec_fileSize r = 5
    /\ recordings w' = [r].
Proof.
  destruct (save_writes_the_buffer demoHost clip1 emptyWorld)
    as (r & w' & Hrun & Hpath & Hfile & Hsize & _ & _ & _ & Hrec & _).
  - intros H. vm_compute in H. discriminate H.
  - exists r, w'. split; [exact Hrun|]. split; [exact Hpath|].
    split; [exact Hfile|]. split; [exact Hsize|exact Hrec].
Defined.

(** An edited file waiting in the storage directory. *)
Definition editedWorld : World :=
  withEntries (<[("/videos/Choome", "talk-edited.mp4") := File [x01; x02; x03]]> ∅)
    emptyWorld.

Lemma register_needs_the_file_witness :
  storageAddRecording demoHost
    (mkRegisterRequest ("/videos/Choome", "missing.mp4") 3 Q1080p None) editedWorld
  = Throw "Recording file not found" editedWorld
  /\ exists r w',
       storageAddRecording demoHost
         (mkRegisterRequest ("/videos/Choome", "talk-edited.mp4") 3 Q1080p None)
         editedWorld = Ok r w'
       /\ rec_name r = "talk-edited"
       /\ rec_fileSize r = 3.
Proof.
  split.
  - apply (proj1 (register_needs_the_file demoHost
                    (mkRegisterRequest ("/videos/Choome", "missing.mp4") 3 Q1080p None)
                    editedWorld)).
    reflexivity.
  - destruct (proj2 (register_needs_the_file demoHost
                       (mkRegisterRequest ("/videos/Choome", "talk-edited.mp4") 3
                          Q1080p None) editedWorld) [x01; x02; x03])
      as (r & w' & Hrun & _ & _ & Hsize & Hname & _).
    + reflexivity.
    + intros H. vm_compute in H. discriminate H.
    + exists r, w'. split; [exact Hrun|]. split; [exact Hname|exact Hsize].
Defined.

End Handlers.

(** ** The catalogue: [StorageService]

    The operations of [StorageService] on the list of recordings that the
    recovery service does not call: soft delete and restore, purge, lookup,
    and the repair pass that reconciles the catalogue with the storage
    directory at startup. *)

Module Catalog.
Import JsString NodePath Recovery.

(** *** Lookup and in-place update *)

Definition sameId (id : string) (r : Recording) : bool := String.eqb (rec_id r) id.

(** [recordings.find((r) => r.id === id)]. *)
Definition findById (id : string) (l : list Recording) : option Recording :=
  List.find (sameId id) l.

(** An assignment to a field of the object [find] returned: it changes the
    first entry with the id, in place. *)
Fixpoint updateFound (id : string) (f : Recording -> Recording)
  (l : list Recording) : list Recording :=
  match l with
  | [] => []
  | r :: rest => if sameId id r then f r :: rest else r :: updateFound id f rest
  end.

Definition setDeletedAt (d : option string) (r : Recording) : Recording :=
  mkRecording (rec_id r) (rec_name r) (rec_path r) (rec_duration r)
              (rec_fileSize r) (rec_quality r) (rec_createdAt r)
              (rec_thumbnailPath r) d.

(** [!!recording.deletedAt]: [null], [undefined] and the empty string are
    falsy. *)
Definition isDeleted (r : Recording) : bool :=
  match rec_deletedAt r with
  | Some s => negb (String.eqb s EmptyString)
  | None => false
  end.

Definition getRecordings : M (list Recording) := fun w => Ok (recordings w) w.

(** [this.store.set('recordings', l)]. *)
Definition storeSet (l : list Recording) : M unit :=
  fun w => Ok tt (withRecordings l w).

(** [s.toLowerCase()] on the letters A to Z. *)
Definition lowerAscii (c : ascii) : ascii :=
  let n := nat_of_ascii c in
  if Nat.leb 65 n && Nat.leb n 90 then ascii_of_nat (n + 32) else c.

Fixpoint toLowerCase (s : string) : string :=
  match s with
  | EmptyString => EmptyString
  | String c s' => String (lowerAscii c) (toLowerCase s')
  end.

Definition supportedExts : list string := [".webm"; ".mp4"; ".mov"; ".mkv"].

(** [supportedExts.has(path.extname(file).toLowerCase())]. *)
Definition supported (file : string) : bool :=
  bool_decide (toLowerCase (extnameOf file) ∈ supportedExts).

Section Service.
Variable host : Host.

Definition getRecordingById (id : string) : M (option Recording) :=
  let! recordings := getRecordings in
  ret (findById id recordings).

Definition deleteRecording (id : string) : M unit :=
  let! recordings := getRecordings in
  match findById id recordings with
  | Some _ =>
      let! now := newDateISO host in
      storeSet (updateFound id (setDeletedAt (Some now)) recordings)
  | None => ret tt
  end.

Definition restoreRecording (id : string) : M unit :=
  let! recordings := getRecordings in
  match findById id recordings with
  | Some _ => storeSet (updateFound id (setDeletedAt None) recordings)
  | None => ret tt
  end.

(** [if (fs.existsSync(p)) fs.unlinkSync(p)]. *)
Definition unlinkIfPresent (p : path) : M unit :=
  let! present := existsSync p in
  if present then unlinkSync p else ret tt.

(** A thumbnail path, when set, ends in [.jpg]: it is never the empty
    string. *)
Definition purgeRecording (id : string) : M unit :=
  let! recordings := getRecordings in
  match findById id recordings with
  | None => ret tt
  | Some recording =>
      let! _ := unlinkIfPresent (rec_path recording) in
      let! _ :=
        match rec_thumbnailPath recording with
        | Some thumbnailPath => unlinkIfPresent thumbnailPath
        | None => ret tt
        end in
      storeSet (List.filter (fun r => negb (sameId id r)) recordings)
  end.

(** One turn of the [for (const file of files)] loop of
    [repairRecordings]; [recordings.unshift] changes the array the store
    holds. *)
Definition repairFile (storagePath : string) (quality : QualityPreset)
  (byPath : list path) (file : string) : M unit :=
  let ext := toLowerCase (extnameOf file) in
  if negb (bool_decide (ext ∈ supportedExts)) then ret tt
  else
    let fullPath := join storagePath file in
    if bool_decide (fullPath ∈ byPath) then ret tt
    else
      let! stats := statSync host fullPath in
      let! duration :=
        tryCatch
          (let! meta := getMetadata host fullPath in
           ret (match meta with
                | Some d => if truthy d then inject_Z (mathRound d) else 0%Q
                | None => 0%Q
                end))
          (fun _ => ret 0%Q) in
      let! id := randomUUID host in
      let newRecording :=
        mkRecording id (basename fullPath ext) fullPath duration (size stats)
                    quality (toISOString host (mtimeMs stats)) None None in
      addRecording newRecording.

Fixpoint repairFiles (storagePath : string) (quality : QualityPreset)
  (byPath : list path) (files : list string) : M unit :=
  match files with
  | [] => ret tt
  | file :: rest =>
      let! _ := repairFile storagePath quality byPath file in
      repairFiles storagePath quality byPath rest
  end.

Definition fileSet (storagePath : string) (files : list string) : list path :=
  map (join storagePath) (List.filter supported files).

(** The [recordings.forEach] that marks missing files as deleted. *)
Fixpoint markMissing (present : list path) (l : list Recording)
  : M (list Recording) :=
  match l with
  | [] => ret []
  | recording :: rest =>
      let! marked :=
        (if negb (bool_decide (rec_path recording ∈ present))
            && negb (isDeleted recording)
         then let! now := newDateISO host in
              ret (setDeletedAt (Some now) recording)
         else ret recording) in
      let! rest' := markMissing present rest in
      ret (marked :: rest')
  end.

(** [repairRecordings]; [quality] is [settings.quality]. *)
Definition repairRecordings (quality : QualityPreset) : M unit :=
  let storagePath := storagePath host in
  let! present := existsSyncDir storagePath in
  if negb present then ret tt
  else
    let! files := readdirSync storagePath in
    let! recordings := getRecordings in
    let byPath := map rec_path recordings in
    let! _ := repairFiles storagePath quality byPath files in
    let! current := getRecordings in
    let! marked := markMissing (fileSet storagePath files) current in
    storeSet marked.

(** *** Soft delete *)

Lemma updateFound_twice id f g l :
  (forall r, rec_id (f r) = rec_id r) ->
  updateFound id g (updateFound id f l) = updateFound id (fun r => g (f r)) l.
Proof.
  intros Hid. induction l as [|r rest IH]; [reflexivity|]. cbn [updateFound].
  destruct (sameId id r) eqn:Hr; cbn [updateFound].
  - unfold sameId in *. now rewrite Hid, Hr.
  - now rewrite Hr, IH.
Qed.

Lemma updateFound_same id f l r :
  findById id l = Some r -> f r = r -> updateFound id f l = l.
Proof.
  unfold findById. induction l as [|a rest IH]; [discriminate|].
  cbn [find updateFound]. destruct (sameId id a).
  - intros [= ->] ->. reflexivity.
  - intros H Hf. now rewrite IH.
Qed.

Lemma findById_updateFound id f l r :
  (forall r, rec_id (f r) = rec_id r) ->
  findById id l = Some r -> findById id (updateFound id f l) = Some (f r).
Proof.
  intros Hid. unfold findById. induction l as [|a rest IH]; [discriminate|].
  cbn [find updateFound]. destruct (sameId id a) eqn:Ha.
  - intros [= ->]. cbn [find]. unfold sameId in *. now rewrite Hid, Ha.
  - intros H. cbn [find]. rewrite Ha. now apply IH.
Qed.

Lemma findById_other id id' f l :
  id' <> id -> (forall r, rec_id (f r) = rec_id r) ->
  findById id' (updateFound id f l) = findById id' l.
Proof.
  intros Hne Hid. unfold findById. induction l as [|a rest IH]; [reflexivity|].
  cbn [find updateFound]. destruct (sameId id a) eqn:Ha; cbn [find].
  - unfold sameId in *. rewrite Hid.
    apply String.eqb_eq in Ha. rewrite Ha.
    now rewrite (proj2 (String.eqb_neq id id')) by congruence.
  - now rewrite IH.
Qed.

Lemma withRecordings_same (w : World) : withRecordings (recordings w) w = w.
Proof. now destruct w. Qed.

(** X9. Soft delete and restore. [deleteRecording] of a catalogued id
    stamps the first entry with that id with the time of the call and
    touches no file; looked up by id, the entry is then marked deleted and
    is otherwise the same; every other id is looked up as before.
    [restoreRecording] then clears the stamp: for an entry that was not
    deleted before, the catalogue is back to what it was. *)
Theorem delete_then_restore (w : World) (id : string) (r : Recording) :
  findById id (recordings w) = Some r ->
  exists w1 w2,
    deleteRecording id w = Ok tt w1
    /\ fs w1 = fs w /\ active w1 = active w
    /\ findById id (recordings w1)
       = Some (setDeletedAt (Some (toISOString host (dateAt host (dateCalls w)))) r)
    /\ (forall id', id' <> id ->
          findById id' (recordings w1) = findById id' (recordings w))
    /\ restoreRecording id w1 = Ok tt w2
    /\ fs w2 = fs w /\ active w2 = active w
    /\ findById id (recordings w2) = Some (setDeletedAt None r)
    /\ (rec_deletedAt r = None -> recordings w2 = recordings w).
Proof.
  intros Hfind.
  set (now := toISOString host (dateAt host (dateCalls w))).
  set (l1 := updateFound id (setDeletedAt (Some now)) (recordings w)).
  assert (Hf1 : findById id l1 = Some (setDeletedAt (Some now) r))
    by now apply findById_updateFound.
  exists (withRecordings l1 (bumpDate w)).
  exists (withRecordings (updateFound id (setDeletedAt None) l1) (bumpDate w)).
  split.
  { unfold deleteRecording, bind, getRecordings. now rewrite Hfind. }
  split; [reflexivity|]. split; [reflexivity|]. split; [exact Hf1|].
  split; [intros id' Hne; now apply findById_other|].
  split.
  { unfold restoreRecording, bind, getRecordings. cbn [recordings withRecordings].
    now rewrite Hf1. }
  split; [reflexivity|]. split; [reflexivity|].
  cbn [recordings withRecordings]. split.
  - rewrite (findById_updateFound id (setDeletedAt None) l1 _
               (fun _ => eq_refl) Hf1).
    reflexivity.
  - intros Hnone. unfold l1. rewrite updateFound_twice by reflexivity.
    apply (updateFound_same _ _ _ _ Hfind).
    destruct r. cbn in *. now subst.
Qed.

(** *** Purge *)

Lemma find_filter_other id (l : list Recording) :
  findById id (List.filter (fun r => negb (sameId id r)) l) = None.
Proof.
  unfold findById. induction l as [|a rest IH]; [reflexivity|]. cbn [List.filter].
  destruct (sameId id a) eqn:Ha; cbn [negb]; [exact IH|].
  cbn [find]. now rewrite Ha.
Qed.

Lemma find_filter_keep id id' (l : list Recording) :
  id' <> id ->
  findById id' (List.filter (fun r => negb (sameId id r)) l) = findById id' l.
Proof.
  intros Hne. unfold findById. induction l as [|a rest IH]; [reflexivity|].
  cbn [List.filter find]. destruct (sameId id a) eqn:Ha; cbn [negb find].
  - rewrite IH. unfold sameId in *. apply String.eqb_eq in Ha. rewrite Ha.
    now rewrite (proj2 (String.eqb_neq id id')) by congruence.
  - now rewrite IH.
Qed.

Lemma post_unlinkIfPresent p (Q : unit -> World -> Prop) E w :
  (entries (fs w) !! p <> Some Directory ->
   Q tt (withEntries (delete p (entries (fs w))) w)) ->
  (forall e, entries (fs w) !! p = Some Directory -> E e w) ->
  post (unlinkIfPresent p) Q E w.
Proof.
  intros HQ HE. unfold post, unlinkIfPresent, bind, existsSync, unlinkSync, ret.
  destruct (entries (fs w) !! p) as [[data|]|] eqn:Hp.
  - rewrite bool_decide_eq_true_2 by now eexists. cbn beta iota.
    rewrite Hp. now apply HQ.
  - rewrite bool_decide_eq_true_2 by now eexists. cbn beta iota.
    rewrite Hp. now apply HE.
  - rewrite bool_decide_eq_false_2 by (intros [? ?]; discriminate).
    specialize (HQ ltac:(discriminate)). rewrite (delete_id _ _ Hp) in HQ.
    now destruct w as [[] ? ? ? ?].
Qed.

(** The entries of the file system once [r]'s file and thumbnail are gone. *)
Definition withoutFiles (r : Recording) (e : gmap path node) : gmap path node :=
  match rec_thumbnailPath r with
  | Some t => delete t (delete (rec_path r) e)
  | None => delete (rec_path r) e
  end.

Lemma purgeRecording_post (id : string) (w : World) :
  post (purgeRecording id)
    (fun _ w' =>
       match findById id (recordings w) with
       | None => w' = w
       | Some r =>
           entries (fs w') = withoutFiles r (entries (fs w))
           /\ dirs (fs w') = dirs (fs w)
           /\ active w' = active w
           /\ recordings w'
              = List.filter (fun r => negb (sameId id r)) (recordings w)
       end)
    (fun _ w' =>
       recordings w' = recordings w
       /\ exists r, findById id (recordings w) = Some r
            /\ (entries (fs w) !! rec_path r = Some Directory
                \/ exists t, rec_thumbnailPath r = Some t
                     /\ entries (fs w) !! t = Some Directory))
    w.
Proof.
  unfold purgeRecording. apply post_bind. unfold post at 1, getRecordings.
  destruct (findById id (recordings w)) as [r|] eqn:Hfind; [|reflexivity].
  apply post_bind, post_unlinkIfPresent.
  - intros Hfile. apply post_bind. unfold withoutFiles.
    destruct (rec_thumbnailPath r) as [t|] eqn:Ht.
    + apply post_unlinkIfPresent; wsimpl.
      * intros _. unfold post, storeSet. wsimpl. now repeat split.
      * intros _ Hd. split; [reflexivity|]. exists r. split; [reflexivity|].
        right. exists t. split; [exact Ht|].
        destruct (decide (t = rec_path r)) as [->|Hne].
        -- now rewrite lookup_delete_eq in Hd.
        -- now rewrite lookup_delete_ne in Hd by congruence.
    + unfold post at 1, ret. unfold post, storeSet. wsimpl. now repeat split.
  - intros _ Hd. split; [reflexivity|]. exists r. split; [reflexivity|]. now left.
Qed.

(** X10. [purgeRecording] of an id the catalogue does not hold changes
    nothing. Of an id it holds, when it returns: no entry with that id is
    left, every other id is looked up as before, the file and the thumbnail
    of the first entry that had the id are gone, and no other file is
    touched. When it throws, the catalogue is as it was. *)
Theorem purge_removes_entry_and_files (w : World) (id : string) :
  match purgeRecording id w with
  | Ok _ w' =>
      findById id (recordings w') = None
      /\ (forall id', id' <> id ->
            findById id' (recordings w') = findById id' (recordings w))
      /\ match findById id (recordings w) with
         | None => w' = w
         | Some r =>
             entries (fs w') !! rec_path r = None
             /\ (forall t, rec_thumbnailPath r = Some t -> entries (fs w') !! t = None)
             /\ (forall q, q <> rec_path r -> rec_thumbnailPath r <> Some q ->
                           entries (fs w') !! q = entries (fs w) !! q)
         end
  | Throw _ w' => recordings w' = recordings w
  end.
Proof.
  pose proof (purgeRecording_post id w) as Hp. unfold post in Hp.
  destruct (purgeRecording id w) as [[] w'|e w']; [|apply Hp].
  destruct (findById id (recordings w)) as [r|] eqn:Hfind.
  - destruct Hp as (Hent & _ & _ & Hrec). rewrite Hrec, Hent.
    split; [apply find_filter_other|].
    split; [intros id' Hne; now apply find_filter_keep|].
    unfold withoutFiles. destruct (rec_thumbnailPath r) as [t|].
    + split.
      { destruct (decide (t = rec_path r)) as [->|Hne];
          [apply lookup_delete_eq|].
        rewrite lookup_delete_ne by exact Hne. apply lookup_delete_eq. }
      split; [intros t' [= <-]; apply lookup_delete_eq|].
      intros q Hq Hq'.
      rewrite lookup_delete_ne by congruence.
      now rewrite lookup_delete_ne by congruence.
    + split; [apply lookup_delete_eq|]. split; [discriminate|].
      intros q Hq _. now rewrite lookup_delete_ne by congruence.
  - subst w'. rewrite Hfind. now repeat split.
Qed.

(** *** Repair *)

Lemma post_duration fullPath (Q : Q -> World -> Prop) E w :
  (forall d, Q d w) ->
  post (tryCatch
          (let! meta := getMetadata host fullPath in
           ret (match meta with
                | Some d => if truthy d then inject_Z (mathRound d) else 0%Q
                | None => 0%Q
                end))
          (fun _ => ret 0%Q)) Q E w.
Proof.
  intros HQ. unfold post, tryCatch, bind, getMetadata, ret.
  repeat case_match; simplify_eq; apply HQ.
Qed.

Lemma repairFile_post sp quality byPath file w :
  post (repairFile sp quality byPath file)
    (fun _ w' =>
       fs w' = fs w /\ active w' = active w /\ dateCalls w' = dateCalls w
       /\ ((w' = w /\ (supported file = false \/ join sp file ∈ byPath))
           \/ exists r,
                recordings w' = r :: recordings w
                /\ rec_path r = join sp file
                /\ rec_deletedAt r = None
                /\ supported file = true
                /\ join sp file ∉ byPath))
    (fun _ _ => entries (fs w) !! join sp file = None) w.
Proof.
  unfold repairFile. cbv zeta. fold (supported file).
  destruct (supported file) eqn:Hs; cbn [negb];
    [|apply post_ret; repeat split; auto].
  case_bool_decide as Hin; [apply post_ret; repeat split; auto|].
  apply post_bind. unfold post at 1, statSync.
  destruct (entries (fs w) !! join sp file) as [n|] eqn:Hn; [|reflexivity].
  assert (Hgo : forall st,
            post (let! duration :=
                    tryCatch
                      (let! meta := getMetadata host (join sp file) in
                       ret (match meta with
                            | Some d => if truthy d then inject_Z (mathRound d) else 0%Q
                            | None => 0%Q
                            end))
                      (fun _ => ret 0%Q) in
                  let! id := randomUUID host in
                  addRecording
                    (mkRecording id (basename (join sp file) (toLowerCase (extnameOf file)))
                       (join sp file) duration (size st) quality
                       (toISOString host (mtimeMs st)) None None))
              (fun _ w' =>
                 fs w' = fs w /\ active w' = active w /\ dateCalls w' = dateCalls w
                 /\ ((w' = w /\ (true = false \/ join sp file ∈ byPath))
                     \/ exists r,
                          recordings w' = r :: recordings w
                          /\ rec_path r = join sp file
                          /\ rec_deletedAt r = None
                          /\ true = true
                          /\ join sp file ∉ byPath))
              (fun _ _ => Some n = None) w).
  { intros st. apply post_bind, post_duration. intros d.
    apply post_bind. unfold post at 1, randomUUID.
    unfold post, addRecording. wsimpl.
    split; [reflexivity|]. split; [reflexivity|]. split; [reflexivity|].
    right. eexists. split; [reflexivity|]. now repeat split. }
  destruct n; apply Hgo.
Qed.

Lemma repairFiles_post sp quality byPath files w :
  post (repairFiles sp quality byPath files)
    (fun _ w' =>
       fs w' = fs w /\ active w' = active w /\ dateCalls w' = dateCalls w
       /\ (exists new,
             recordings w' = new ++ recordings w
             /\ Forall (fun r => rec_deletedAt r = None
                                 /\ exists f, f ∈ files /\ supported f = true
                                      /\ rec_path r = join sp f) new
             /\ forall f, f ∈ files -> supported f = true ->
                          join sp f ∈ byPath \/ join sp f ∈ map rec_path new)
       /\ ((forall f, f ∈ files -> supported f = true -> join sp f ∈ byPath) ->
           w' = w))
    (fun _ _ => exists f, f ∈ files /\ entries (fs w) !! join sp f = None) w.
Proof.
  revert w. induction files as [|file rest IH]; intros w.
  - apply post_ret. repeat split; auto. exists []. repeat split; auto.
    intros f Hf. now apply elem_of_nil in Hf.
  - cbn [repairFiles]. apply post_bind.
    pose proof (repairFile_post sp quality byPath file w) as Hone.
    unfold post in Hone |- *.
    destruct (repairFile sp quality byPath file w) as [[] w1|e w1].
    2:{ exists file. split; [apply list_elem_of_here|exact Hone]. }
    specialize (IH w1). unfold post in IH.
    destruct Hone as (Hfs1 & Hact1 & Hdate1 & Hone).
    destruct (repairFiles sp quality byPath rest w1) as [[] w'|e w'].
    2:{ destruct IH as (f & Hf & Hnone). exists f.
        split; [now apply list_elem_of_further|]. now rewrite <- Hfs1. }
    destruct IH as (Hfs & Hact & Hdate & (new & Hrec & Hnew & Hcov) & Hnoop).
    split; [congruence|]. split; [congruence|]. split; [congruence|].
    assert (Hnew' : Forall (fun r => rec_deletedAt r = None
                              /\ exists f, f ∈ file :: rest /\ supported f = true
                                   /\ rec_path r = join sp f) new).
    { eapply Forall_impl; [exact Hnew|]. intros r (Hd & f & Hf & Hs & Hp).
      split; [exact Hd|]. exists f. split; [now apply list_elem_of_further|auto]. }
    destruct Hone as [(-> & Hskip)|(r & Hr & Hpath & Hdel & Hs & Hnot)].
    + split.
      * exists new. split; [exact Hrec|]. split; [exact Hnew'|].
        intros f Hf Hsup. apply elem_of_cons in Hf as [->|Hf]; [|now apply Hcov].
        destruct Hskip as [Hno|Hin]; [congruence|now left].
      * intros Hall. apply Hnoop. intros f Hf. apply Hall.
        now apply list_elem_of_further.
    + split.
      * exists (new ++ [r]). split; [rewrite Hrec, Hr; now rewrite <- app_assoc|].
        split.
        { apply Forall_app. split; [exact Hnew'|]. constructor; [|constructor].
          split; [exact Hdel|]. exists file.
          split; [apply list_elem_of_here|now split]. }
        intros f Hf Hsup. rewrite map_app, elem_of_app.
        apply elem_of_cons in Hf as [->|Hf].
        -- right. right. cbn. rewrite Hpath. apply list_elem_of_here.
        -- destruct (Hcov f Hf Hsup); auto.
      * intros Hall. destruct Hnot. apply Hall; [apply list_elem_of_here|exact Hs].
Qed.

Section Stamps.
(** An ISO time stamp is never the empty string. *)
Hypothesis stamp_nonempty : forall z, toISOString host z <> "".

Definition settled (present : list path) (r : Recording) : Prop :=
  rec_path r ∈ present \/ isDeleted r = true.

Lemma markMissing_post present l w :
  post (markMissing present l)
    (fun l' w' =>
       fs w' = fs w /\ active w' = active w /\ recordings w' = recordings w
       /\ uuidCalls w' = uuidCalls w
       /\ map rec_path l' = map rec_path l
       /\ map rec_id l' = map rec_id l
       /\ Forall (settled present) l'
       /\ (Forall (settled present) l -> l' = l /\ w' = w))
    (fun _ _ => False) w.
Proof.
  revert w. induction l as [|r rest IH]; intros w.
  - apply post_ret. repeat split; auto.
  - cbn [markMissing]. apply post_bind.
    destruct (bool_decide (rec_path r ∈ present)) eqn:Hin; cbn [negb andb];
      [|destruct (isDeleted r) eqn:Hdel; cbn [negb]].
    + apply bool_decide_eq_true_1 in Hin.
      unfold post at 1, ret. apply post_bind.
      specialize (IH w). unfold post in IH |- *.
      destruct (markMissing present rest w) as [rest' w'|]; [|exact IH].
      destruct IH as (? & ? & ? & ? & Hp & Hi & Hall & Hsame).
      cbn [ret map]. rewrite Hp, Hi. repeat split; auto.
      * constructor; [now left|exact Hall].
      * apply Forall_cons in H3 as [_ H3]. destruct (Hsame H3). congruence.
      * apply Forall_cons in H3 as [_ H3]. now destruct (Hsame H3).
    + unfold post at 1, ret. apply post_bind.
      specialize (IH w). unfold post in IH |- *.
      destruct (markMissing present rest w) as [rest' w'|]; [|exact IH].
      destruct IH as (? & ? & ? & ? & Hp & Hi & Hall & Hsame).
      cbn [ret map]. rewrite Hp, Hi. repeat split; auto.
      * constructor; [now right|exact Hall].
      * apply Forall_cons in H3 as [_ H3]. destruct (Hsame H3). congruence.
      * apply Forall_cons in H3 as [_ H3]. now destruct (Hsame H3).
    + apply bool_decide_eq_false_1 in Hin.
      apply post_bind. unfold post at 1, newDateISO. unfold post at 1, ret.
      apply post_bind.
      specialize (IH (mkWorld (fs w) (active w) (recordings w) (uuidCalls w)
                        (S (dateCalls w)))).
      unfold post in IH |- *.
      destruct (markMissing present rest _) as [rest' w'|]; [|exact IH].
      destruct IH as (? & ? & ? & ? & Hp & Hi & Hall & Hsame).
      cbn [ret map]. rewrite Hp, Hi. wsimpl. repeat split; auto.
      * constructor; [|exact Hall]. right. unfold isDeleted. cbn.
        apply negb_true_iff, String.eqb_neq, stamp_nonempty.
      * apply Forall_cons in H3 as [[Hs|Hs] _]; [contradiction|congruence].
      * apply Forall_cons in H3 as [[Hs|Hs] _]; [contradiction|congruence].
Qed.

Lemma repairRecordings_post quality w :
  post (repairRecordings quality)
    (fun _ w' =>
       fs w' = fs w /\ active w' = active w
       /\ (exists added, map rec_id (recordings w')
                         = added ++ map rec_id (recordings w))
       /\ (((storagePath host ∉ dirs (fs w)) /\ w' = w)
           \/ (storagePath host ∈ dirs (fs w)
               /\ exists files,
                    readdirSync (storagePath host) w = Ok files w
                    /\ (forall f, f ∈ files -> supported f = true ->
                           join (storagePath host) f ∈ map rec_path (recordings w'))
                    /\ Forall (settled (fileSet (storagePath host) files))
                         (recordings w'))))
    (fun _ _ => False) w.
Proof.
  unfold repairRecordings. cbv zeta. apply post_bind.
  unfold post at 1, existsSyncDir. case_bool_decide as Hdir; cbn [negb].
  2:{ apply post_ret. repeat split; auto. now exists []. }
  apply post_bind. unfold post at 1.
  destruct (readdirSync (storagePath host) w) as [files w0|] eqn:Hread.
  2:{ unfold readdirSync in Hread.
      rewrite bool_decide_eq_true_2 in Hread by exact Hdir. discriminate. }
  assert (w0 = w) as ->.
  { unfold readdirSync in Hread. destruct (negb _); now inversion Hread. }
  apply post_bind. unfold post at 1, getRecordings.
  apply post_bind.
  pose proof (repairFiles_post (storagePath host) quality
                (map rec_path (recordings w)) files w) as Hloop.
  unfold post in Hloop. unfold post at 1.
  destruct (repairFiles (storagePath host) quality _ files w) as [[] w1|e w1].
  2:{ destruct Hloop as (f & Hf & Hnone).
      destruct (readdirSync_elem _ _ _ _ Hread Hf) as [n Hn]. congruence. }
  destruct Hloop as (Hfs & Hact & Hdate & (new & Hrec & Hnew & Hcov) & _).
  apply post_bind. unfold post at 1, getRecordings.
  apply post_bind.
  pose proof (markMissing_post (fileSet (storagePath host) files)
                (recordings w1) w1) as Hmark.
  unfold post in Hmark. unfold post at 1.
  destruct (markMissing _ (recordings w1) w1) as [marked w2|]; [|exact Hmark].
  destruct Hmark as (Hfs2 & Hact2 & _ & _ & Hp & Hi & Hall & _).
  unfold post, storeSet. wsimpl.
  split; [congruence|]. split; [congruence|].
  split.
  { exists (map rec_id new). rewrite Hi, Hrec. apply map_app. }
  right. split; [exact Hdir|]. exists files. split; [reflexivity|].
  split; [|exact Hall].
  intros f Hf Hs. rewrite Hp, Hrec, map_app, elem_of_app.
  destruct (Hcov f Hf Hs); auto.
Qed.

(** X11. The repair pass always returns and writes no file. Entries are
    only added at the head of the catalogue. When the storage directory
    exists, every file in it with a supported extension has an entry
    afterwards, and every entry that is not marked deleted afterwards is
    the entry of such a file. *)
Theorem repair_reconciles (quality : QualityPreset) (w : World) :
  exists w',
    repairRecordings quality w = Ok tt w'
    /\ fs w' = fs w /\ active w' = active w
    /\ (exists added, map rec_id (recordings w') = added ++ map rec_id (recordings w))
    /\ (storagePath host ∈ dirs (fs w) ->
        (forall f, is_Some (entries (fs w) !! join (storagePath host) f) ->
                   supported f = true ->
                   join (storagePath host) f ∈ map rec_path (recordings w'))
        /\ (forall r, r ∈ recordings w' -> isDeleted r = false ->
               exists f, rec_path r = join (storagePath host) f
                         /\ supported f = true
                         /\ is_Some (entries (fs w) !! join (storagePath host) f))).
Proof.
  destruct (post_returns _ _ _ _ (repairRecordings_post quality w))
    as ([] & w' & Hrun & Hfs & Hact & Hadded & Hcases); [now intros|].
  exists w'. split; [exact Hrun|]. split; [exact Hfs|]. split; [exact Hact|].
  split; [exact Hadded|]. intros Hdir.
  destruct Hcases as [(Hno & _)|(_ & files & Hread & Hcov & Hall)];
    [contradiction|].
  split.
  - intros f Hf Hs. apply Hcov; [|exact Hs].
    now apply (RecoveryLaws.readdirSync_complete _ _ _ _ Hread).
  - intros r Hr Hlive. rewrite Forall_forall in Hall.
    destruct (Hall r Hr) as [Hin|Hdel]; [|congruence].
    unfold fileSet in Hin. apply list_elem_of_fmap in Hin as (f & Hp & Hf).
    apply list_elem_of_In, filter_In in Hf as [Hf Hs].
    apply list_elem_of_In in Hf.
    exists f. split; [exact Hp|]. split; [exact Hs|].
    now apply (readdirSync_elem _ _ _ _ Hread).
Qed.

(** X12. The repair pass is idempotent: run again on the world it leaves,
    it adds nothing, marks nothing and draws no id and no time stamp. *)
Theorem repair_is_idempotent (quality quality' : QualityPreset) (w w' : World) :
  repairRecordings quality w = Ok tt w' ->
  repairRecordings quality' w' = Ok tt w'.
Proof.
  intros Hrun.
  pose proof (post_ok _ _ _ _ _ _ (repairRecordings_post quality w) Hrun)
    as (Hfs & _ & _ & Hcases).
  destruct Hcases as [(Hno & ->)|(Hdir & files & Hread & Hcov & Hall)].
  { unfold repairRecordings, bind, existsSyncDir. cbv zeta.
    now rewrite bool_decide_eq_false_2 by exact Hno. }
  unfold repairRecordings. cbv zeta. unfold bind at 1. unfold existsSyncDir.
  rewrite bool_decide_eq_true_2 by now rewrite Hfs. cbn [negb].
  assert (Hread' : readdirSync (storagePath host) w' = Ok files w').
  { unfold readdirSync in Hread |- *. rewrite Hfs.
    destruct (negb _); [discriminate|]. now inversion Hread. }
  unfold bind at 1. rewrite Hread'.
  unfold bind at 1. unfold getRecordings at 1.
  pose proof (repairFiles_post (storagePath host) quality'
                (map rec_path (recordings w')) files w') as Hloop.
  unfold post in Hloop. unfold bind at 1.
  destruct (repairFiles (storagePath host) quality' _ files w') as [[] w1|e w1].
  2:{ destruct Hloop as (f & Hf & Hnone).
      destruct (readdirSync_elem _ _ _ _ Hread' Hf) as [n Hn]. congruence. }
  destruct Hloop as (_ & _ & _ & _ & Hnoop). rewrite (Hnoop Hcov).
  unfold bind at 1. unfold getRecordings at 1.
  pose proof (markMissing_post (fileSet (storagePath host) files)
                (recordings w') w') as Hmark.
  unfold post in Hmark. unfold bind.
  destruct (markMissing _ (recordings w') w') as [marked w2|]; [|contradiction].
  destruct Hmark as (_ & _ & _ & _ & _ & _ & _ & Hsame).
  destruct (Hsame Hall) as [-> ->]. unfold storeSet.
  now rewrite withRecordings_same.
Qed.

End Stamps.

End Service.
(** *** A small library *)

Definition kept : Recording :=
  mkRecording "r1" "talk" ("/videos/Choome", "talk.webm") 12 4 Q1080p
              "2025-12-31T10:00:00.000Z" (Some ("/videos/Choome", "talk.jpg")) None.

Definition lost : Recording :=
  mkRecording "r2" "gone" ("/videos/Choome", "gone.webm") 5 9 Q720p
              "2025-12-30T10:00:00.000Z" None None.

(** The file of [lost] is missing and [demo.MP4] is not catalogued. *)
Definition libraryWorld : World :=
  mkWorld
    (mkFS {[ "/videos/Choome" ]}
       (<[("/videos/Choome", "talk.webm") := File [x1a; x45; xdf; xa3]]>
       (<[("/videos/Choome", "talk.jpg") := File [xff; xd8]]>
       (<[("/videos/Choome", "demo.MP4") := File [x00; x00; x00]]>
       (<[("/videos/Choome", "notes.txt") := File [x05]]> ∅)))))
    ∅ [kept; lost] 0 0.

Lemma demoHost_stamps (z : Z) : toISOString demoHost z <> "".
Proof. cbn. discriminate. Qed.

Lemma delete_then_restore_witness :
  exists w1 w2,
    deleteRecording demoHost "r1" libraryWorld = Ok tt w1
    /\ findById "r1" (recordings w1)
       = Some (setDeletedAt (Some "2026-01-01T00:00:00.000Z") kept)
    /\ fs w1 = fs libraryWorld
    /\ restoreRecording "r1" w1 = Ok tt w2
    /\ recordings w2 = recordings libraryWorld.
Proof.
  destruct (delete_then_restore demoHost libraryWorld "r1" kept)
    as (w1 & w2 & Hdel & Hfs & _ & Hfind & _ & Hres & _ & _ & _ & Hback).
  - reflexivity.
  - exists w1, w2. split; [exact Hdel|]. split; [exact Hfind|].
    split; [exact Hfs|]. split; [exact Hres|]. apply Hback. reflexivity.
Defined.

Lemma purge_removes_entry_and_files_witness :
  exists w',
    purgeRecording "r1" libraryWorld = Ok tt w'
    /\ recordings w' = [lost]
    /\ entries (fs w') !! ("/videos/Choome", "talk.webm") = None
    /\ entries (fs w') !! ("/videos/Choome", "talk.jpg") = None
    /\ entries (fs w') !! ("/videos/Choome", "demo.MP4") = Some (File [x00; x00; x00]).
Proof.
  pose proof (purge_removes_entry_and_files libraryWorld "r1") as H.
  destruct (purgeRecording "r1" libraryWorld) as [[] w'|e w'] eqn:Hrun.
  - exists w'. split; [reflexivity|].
    assert (Hrec : recordings w' = [lost]).
    { pose proof (post_ok _ _ _ _ _ _ (purgeRecording_post "r1" libraryWorld) Hrun)
        as Hp. cbn in Hp. apply Hp. }
    split; [exact Hrec|].
    destruct H as (_ & _ & Hgone & Hthumb & Hrest). cbn in Hthumb, Hrest.
    split; [exact Hgone|]. split; [now apply Hthumb|].
    rewrite Hrest by discriminate. reflexivity.
  - vm_compute in Hrun. discriminate Hrun.
Defined.

Lemma repair_reconciles_witness :
  exists w',
    repairRecordings demoHost Q1080p libraryWorld = Ok tt w'
    /\ fs w' = fs libraryWorld
    /\ ("/videos/Choome", "demo.MP4") ∈ map rec_path (recordings w')
    /\ forall r, r ∈ recordings w' -> isDeleted r = false ->
         rec_path r <> ("/videos/Choome", "gone.webm").
Proof.
  destruct (repair_reconciles demoHost demoHost_stamps Q1080p libraryWorld)
    as (w' & Hrun & Hfs & _ & _ & Hdir).
  destruct Hdir as [Hcov Hlive]; [vm_compute; reflexivity|].
  exists w'. split; [exact Hrun|]. split; [exact Hfs|]. split.
  - apply (Hcov "demo.MP4"); [now eexists|reflexivity].
  - intros r Hr Hnot Hpath. destruct (Hlive r Hr Hnot) as (f & Hp & _ & [n Hn]).
    rewrite Hpath in Hp. injection Hp as <-. discriminate Hn.
Defined.

Lemma repair_is_idempotent_witness :
  exists w',
    repairRecordings demoHost Q1080p libraryWorld = Ok tt w'
    /\ repairRecordings demoHost Q1080p w' = Ok tt w'.
Proof.
  destruct (repairRecordings demoHost Q1080p libraryWorld) as [[] w'|e w'] eqn:H.
  - exists w'. split; [reflexivity|].
    exact (repair_is_idempotent demoHost demoHost_stamps Q1080p Q1080p
             libraryWorld w' H).
  - vm_compute in H. discriminate H.
Defined.

End Catalog.

(** ** More on the recording session

    What [startRecording] needs in order to succeed, and the state machine
    of pause and resume. *)

Module SessionLaws.
Import Session.

(** [m] returns from every state. *)
Definition returns {A} (m : P A) : Prop :=
  forall s, exists a s', m s = Done a s'.

Lemma total_returns {A} (m : P A) (Q : A -> Prop) : total m Q -> returns m.
Proof. intros H s. destruct (H s) as (a & s' & Hm & _). now exists a, s'. Qed.

Lemma videoSource_returns props env source settings screen :
  returns (videoSource props env source settings screen).
Proof.
  intros s. unfold videoSource. destruct (includeWebcam props); [|now eexists _, _].
  unfold tryCatch. destruct (webcamOverlay props env source settings s) as [a s1|s1];
    [now eexists _, _|].
  unfold bind, webcamFallback. destruct (refs s1 webcamStreamRef); now eexists _, _.
Qed.

(** The four steps a recording cannot do without: the settings are read,
    the screen is captured, the recorder is created and it starts. *)
Definition essentials (env : Env) : bool :=
  bool_decide (is_Some (envSettings env))
  && bool_decide (is_Some (envScreen env))
  && envRecorderCreated env && envRecorderStarted env.

Definition isRecording (env : Env) (s : St) : Prop :=
  status s = recording
  /\ timerRunning s = true
  /\ startTimeRef s = envStartedAt env
  /\ pausedDurationRef s = 0%Z
  /\ exists r, mediaRecorderRef s = Some r
       /\ r_state r = rsRecording
       /\ r_mimeType r = chooseMimeType env
       /\ refs s streamRef = Some (r_stream r).

Lemma startEncoder_outcome env settings q combined s :
  match startEncoder env settings q combined s with
  | Done _ s' =>
      envRecorderCreated env = true /\ envRecorderStarted env = true
      /\ isRecording env s'
  | Raise s' => envRecorderCreated env && envRecorderStarted env = false
  end.
Proof.
  unfold startEncoder, bind, act, tryCatch, call, isRecording.
  destruct (envBeginRecovery env) as [r|];
    destruct (envRecorderCreated env), (envRecorderStarted env);
    cbn; try reflexivity;
    (split; [reflexivity|]); (split; [reflexivity|]);
    repeat (split; [reflexivity|]); eexists; repeat (split; [reflexivity|]);
    reflexivity.
Qed.

(** X13. [startRecording] never throws. Without a selected source it does
    nothing. With one, it ends in [recording], with the timer running and
    a recorder in state [recording] on the stream it assembled, exactly
    when the settings were read, the screen was captured and the recorder
    was created and started: no failure of the webcam, of an audio source,
    of the mixer or of the recovery log stops a recording. In every other
    case it ends in [idle], its last two calls being the toast
    ['Recording failed'] and [setStatus('idle')]. *)
Theorem start_needs_only_the_essentials (props : Props) (env : Env) (s : St) :
  exists s',
    startRecording props env s = Done tt s'
    /\ match selectedSource props with
       | None => s' = s
       | Some _ =>
           if essentials env then isRecording env s'
           else status s' = idle
                /\ exists older,
                     calls s' = SetStatus idle :: Toast "Recording failed" :: older
       end.
Proof.
  unfold startRecording, essentials.
  destruct (selectedSource props) as [source|]; [|now exists s].
  unfold tryCatch. unfold bind at 1. unfold call at 1.
  destruct (envSettings env) as [settings|].
  2:{ eexists. split; [reflexivity|]. cbn. split; [reflexivity|]. now eexists. }
  rewrite bool_decide_eq_true_2 by now eexists. cbn [andb].
  unfold bind at 1.
  set (s1 := log GetSettings s).
  destruct (when _ _ s1) as [[] s2|s2] eqn:Hwhen.
  2:{ unfold when in Hwhen. destruct (match settings ≫= s_quality with
                                     | Some _ => _ | None => _ end);
        discriminate. }
  unfold bind at 1. unfold call at 1.
  destruct (envScreen env) as [screen|].
  2:{ eexists. split; [reflexivity|]. cbn. split; [reflexivity|]. now eexists. }
  rewrite bool_decide_eq_true_2 by now eexists. cbn [andb].
  unfold bind at 1. unfold act at 1.
  set (s3 := setRef screenStreamRef (Some screen) (log _ s2)).
  destruct (videoSource_returns props env source settings screen s3)
    as (videoStream & s4 & Hvideo).
  unfold bind at 1. rewrite Hvideo.
  destruct (total_returns _ _ (audioSources_total props env source) s4)
    as (audioStreams & s5 & Haudio).
  unfold bind at 1. rewrite Haudio.
  set (combined := addTracks (mkStream 0 []) (getVideoTracks videoStream)).
  destruct (total_returns _ _ (mixAudio_total env audioStreams combined) s5)
    as (mixed & s6 & Hmix).
  unfold bind at 1. rewrite Hmix.
  pose proof (startEncoder_outcome env settings
                (default (quality props) (settings ≫= s_quality)) mixed s6) as Henc.
  destruct (startEncoder env settings _ mixed s6) as [[] s7|s7].
  - destruct Henc as (-> & -> & Hrec). exists s7. now split.
  - eexists. split; [reflexivity|]. rewrite Henc. cbn.
    split; [reflexivity|]. now eexists.
Qed.

(** *** Pause and resume *)

(** The recorder, the status shown and the timer agree. *)
Definition coherent (s : St) : Prop :=
  match mediaRecorderRef s with
  | Some r =>
      match r_state r with
      | rsRecording => status s = recording /\ timerRunning s = true
      | rsPaused => status s = paused /\ timerRunning s = false
      | rsInactive => True
      end
  | None => True
  end.

Definition recorderState (s : St) : option RecorderState :=
  r_state <$> mediaRecorderRef s.

Lemma timerStep_coherent (s : St) (e : TimerEvent) :
  coherent s -> coherent (timerStep s e).
Proof.
  unfold coherent. destruct e; cbn [timerStep];
    unfold onInterval, pauseRecording, resumeRecording, setRecorderState.
  - intros H. destruct (timerRunning s) eqn:Ht; cbn; rewrite ?Ht; exact H.
  - destruct (mediaRecorderRef s) as [r|] eqn:Hr; [|now rewrite Hr].
    destruct (r_state r) eqn:Hst; cbn; rewrite ?Hr, ?Hst; cbn;
      rewrite ?Hr, ?Hst; auto.
  - destruct (mediaRecorderRef s) as [r|] eqn:Hr; [|now rewrite Hr].
    destruct (r_state r) eqn:Hst; cbn; rewrite ?Hr, ?Hst; cbn;
      rewrite ?Hr, ?Hst; auto.
Qed.

(** X14. After [start] has fired, whatever the order of pauses, resumes
    and ticks, the status shown, the state of the recorder and the timer
    agree: [recording] with the timer running, or [paused] with the timer
    stopped. *)
Theorem pause_resume_keep_coherence (events : list TimerEvent) (s : St) :
  coherent s -> coherent (foldl timerStep s events).
Proof.
  revert s. induction events as [|e events IH]; intros s Hs; [exact Hs|].
  cbn [foldl]. apply IH. now apply timerStep_coherent.
Qed.

Definition isTick (e : TimerEvent) : bool :=
  match e with Tick _ => true | _ => false end.

Lemma ticks_while_stopped (ticks : list TimerEvent) (s : St) :
  forallb isTick ticks = true -> timerRunning s = false ->
  foldl timerStep s ticks = s.
Proof.
  revert s. induction ticks as [|e ticks IH]; intros s Hall Hoff; [reflexivity|].
  cbn [forallb] in Hall. apply andb_prop in Hall as [He Hall].
  destruct e; try discriminate. cbn [foldl timerStep]. unfold onInterval.
  rewrite Hoff. now apply IH.
Qed.

(** X15. Pausing a running recording pauses the recorder, shows [paused]
    and stops the timer; until the resume, ticks change nothing, so the
    duration shown stands still, and a second pause does nothing. The
    resume puts back the recorder state, the status and the timer; but for
    the calls logged, the session is as it was before the pause. *)
Theorem pause_then_resume (s : St) (r : MediaRecorder) (ticks : list TimerEvent)
  (now : Z) :
  mediaRecorderRef s = Some r -> r_state r = rsRecording ->
  status s = recording -> timerRunning s = true ->
  forallb isTick ticks = true ->
  let s1 := pauseRecording s in
  let s2 := resumeRecording now (foldl timerStep s1 ticks) in
  status s1 = paused /\ timerRunning s1 = false
  /\ recorderState s1 = Some rsPaused
  /\ pauseRecording s1 = s1
  /\ foldl timerStep s1 ticks = s1
  /\ calls s2 = SetStatus recording :: RecorderResume
                :: SetStatus paused :: RecorderPause :: calls s
  /\ mkSt (refs s2) (audioContextRef s2) (animationFrameRef s2) (recoveryIdRef s2)
          (mediaRecorderRef s2) (timerRunning s2) (startTimeRef s2)
          (pausedDurationRef s2) (status s2) (duration s2) (calls s)
     = s.
Proof.
  intros Hr Hst Hstatus Htimer Hticks s1 s2.
  assert (Hs1 : s1 = setTimer false
                  (setStatus paused (setRecorderState rsPaused (log RecorderPause s)))).
  { unfold s1, pauseRecording. now rewrite Hr, Hst. }
  assert (Hquiet : foldl timerStep s1 ticks = s1).
  { apply ticks_while_stopped; [exact Hticks|]. now rewrite Hs1. }
  unfold s2. rewrite Hquiet. rewrite Hs1.
  unfold pauseRecording, resumeRecording, setRecorderState, recorderState.
  cbn. rewrite Hr. cbn. rewrite <- Hstatus, <- Htimer.
  repeat split. destruct s, r. cbn in *. now subst.
Qed.

(** *** On a started session *)

Definition recorder1 : MediaRecorder :=
  mkRecorder screen1 "video/webm" 12000000 rsRecording.

Lemma pause_resume_keep_coherence_witness :
  coherent (foldl timerStep (started 0)
              [Tick 1000; Pause; Tick 2000; Pause; Resume 3000; Tick 4000; Pause]).
Proof.
  apply pause_resume_keep_coherence. cbn. split; reflexivity.
Defined.

Lemma pause_then_resume_witness :
  status (pauseRecording (started 0)) = paused
  /\ foldl timerStep (pauseRecording (started 0)) [Tick 5000; Tick 6000]
     = pauseRecording (started 0)
  /\ status (resumeRecording 65000
               (foldl timerStep (pauseRecording (started 0)) [Tick 5000; Tick 6000]))
     = recording.
Proof.
  destruct (pause_then_resume (started 0) recorder1 [Tick 5000; Tick 6000] 65000
              eq_refl eq_refl eq_refl eq_refl eq_refl)
    as (H1 & _ & _ & _ & H5 & _ & H7).
  split; [exact H1|]. split; [exact H5|].
  exact (f_equal status H7).
Defined.

End SessionLaws.

(** ** Stopping a recording

    [stopRecording] of the [useRecording] hook, run against the handlers of
    the main process it invokes: [recording:finalizeRecovery],
    [recording:discardRecovery] and [recording:save]. The chunks are those
    collected by the time the recorder fires [stop]. *)

Module Stop.
Import Session.

(** What the hook does while it stops, in the order it does it. *)
Inductive Event :=
| Hook (c : Call)
| RecorderStop
| CloseAudioContext
| FinalizeRecordingRecovery (id : string) (duration : Z) (quality : QualityPreset)
| DiscardRecordingRecovery (id : string)
| SaveRecording (buffer : list byte) (mimeType : string) (duration : Z)
    (quality : QualityPreset)
| Download (blob : list byte) (filename : string)
| SetFileSize (n : nat)
| Resolve.

(** The hook with its buffered chunks, the file size it shows, and the
    main process at the other end of the IPC channel. *)
Record State := mkState {
  hook : St;
  chunksRef : list (list byte);
  fileSize : nat;
  main : Recovery.World;
  events : list Event;
}.

Definition withHook (f : St -> St) (s : State) : State :=
  mkState (f (hook s)) (chunksRef s) (fileSize s) (main s) (events s).
Definition withChunks (c : list (list byte)) (s : State) : State :=
  mkState (hook s) c (fileSize s) (main s) (events s).
Definition withFileSize (n : nat) (s : State) : State :=
  mkState (hook s) (chunksRef s) n (main s) (events s).
Definition withMain (w : Recovery.World) (s : State) : State :=
  mkState (hook s) (chunksRef s) (fileSize s) w (events s).
Definition emit (e : Event) (s : State) : State :=
  mkState (hook s) (chunksRef s) (fileSize s) (main s) (e :: events s).

Definition plainStatus (v : RecordingStatus) (h : St) : St :=
  mkSt (refs h) (audioContextRef h) (animationFrameRef h) (recoveryIdRef h)
       (mediaRecorderRef h) (timerRunning h) (startTimeRef h)
       (pausedDurationRef h) v (duration h) (calls h).
Definition plainDuration (v : Z) (h : St) : St :=
  mkSt (refs h) (audioContextRef h) (animationFrameRef h) (recoveryIdRef h)
       (mediaRecorderRef h) (timerRunning h) (startTimeRef h)
       (pausedDurationRef h) (status h) v (calls h).

Definition storeStatus (v : RecordingStatus) (s : State) : State :=
  emit (Hook (SetStatus v)) (withHook (plainStatus v) s).
Definition storeDuration (v : Z) (s : State) : State :=
  emit (Hook (SetDuration v)) (withHook (plainDuration v) s).

(** The quality as the main process reads it off the IPC message. *)
Definition toMain (q : QualityPreset) : Recovery.QualityPreset :=
  match q with
  | Q720p => Recovery.Q720p
  | Q1080p => Recovery.Q1080p
  | Q1440p => Recovery.Q1440p
  | Q4k => Recovery.Q4k
  end.

(** [await window.electronAPI.<request>]: the handler runs in the main
    process; [None] is a rejected promise. *)
Definition invoke {A} (m : Recovery.M A) (s : State) : option A * State :=
  match m (main s) with
  | Recovery.Ok a w => (Some a, withMain w s)
  | Recovery.Throw _ w => (None, withMain w s)
  end.

(** [if (ref.current) { ref.current.getTracks().forEach(stop); ref.current = null }]. *)
Definition releaseRef (r : StreamRef) (s : State) : State :=
  match refs (hook s) r with
  | Some stream =>
      withHook (setRef r None) (emit (Hook (StopTracks (tracks stream))) s)
  | None => s
  end.

Definition streamRefs : list StreamRef :=
  [streamRef; canvasStreamRef; screenStreamRef; webcamStreamRef;
   systemAudioStreamRef; micAudioStreamRef; mixedAudioStreamRef].

Definition releaseAll (l : list StreamRef) (s : State) : State :=
  foldl (fun s r => releaseRef r s) s l.

(** The timer, the compositor, the streams and the audio context. *)
Definition teardown (s : State) : State :=
  let s := withHook (setTimer false) s in
  let s := withHook (setAnimationFrame false) s in
  let s := releaseAll streamRefs s in
  if audioContextRef (hook s)
  then withHook (setAudioContext false) (emit CloseAudioContext s)
  else s.

(** [if (recoveryId)]: [null] and the empty string are falsy. *)
Definition truthyId (id : option string) : option string :=
  match id with
  | Some x => if String.eqb x "" then None else Some x
  | None => None
  end.

Section Stop.
Variable host : Recovery.Host.

(** From [let recovered = false] to the end of [if (!recovered)]. [stamp] is
    [new Date().toISOString()] in the renderer. *)
Definition persist (duration : Z) (quality : QualityPreset) (stamp : string)
  (blob : list byte) (s : State) : State :=
  let meta := Recovery.mkMeta (inject_Z duration) (toMain quality) in
  let '(recovered, s) :=
    match truthyId (recoveryIdRef (hook s)) with
    | Some recoveryId =>
        let '(answer, s) :=
          invoke (Recovery.finalize host recoveryId meta)
                 (emit (FinalizeRecordingRecovery recoveryId duration quality) s) in
        let s :=
          match answer with
          | Some _ => s
          | None =>
              snd (invoke (Recovery.discard recoveryId)
                          (emit (DiscardRecordingRecovery recoveryId) s))
          end in
        (bool_decide (is_Some answer), withHook (setRecoveryId None) s)
    | None => (false, s)
    end in
  if recovered then s
  else
    let '(answer, s) :=
      invoke (Handlers.recordingSave host
                (Handlers.mkSaveRequest blob (Some "video/webm")
                   (inject_Z duration) (toMain quality)))
             (emit (SaveRecording blob "video/webm" duration quality) s) in
    match answer with
    | Some _ => s
    | None =>
        emit (Download blob
                ("recording-" +:+ JsString.replaceColonDot stamp +:+ ".webm"))
             (emit (Hook (Toast "Save failed")) s)
    end.

(** The [onstop] handler that [stopRecording] installs. *)
Definition onstop (duration : Z) (quality : QualityPreset) (stamp : string)
  (s : State) : State :=
  let s := teardown s in
  let blob := concat (chunksRef s) in
  let s := withChunks [] s in
  let s := persist duration quality stamp blob s in
  let s := storeStatus idle s in
  let s := storeDuration 0 s in
  let s := emit (SetFileSize 0) (withFileSize 0 s) in
  emit Resolve s.

(** [duration] and [quality] are the values of the store the callback was
    made with. *)
Definition stopRecording (duration : Z) (quality : QualityPreset)
  (stamp : string) (s : State) : State :=
  match mediaRecorderRef (hook s) with
  | Some r =>
      match r_state r with
      | rsInactive => emit Resolve (storeStatus idle s)
      | _ =>
          let s := storeStatus processing s in
          let s := emit RecorderStop (withHook (setRecorderState rsInactive) s) in
          onstop duration quality stamp s
      end
  | None => emit Resolve (storeStatus idle s)
  end.

(** Whether [stopRecording] finds a recorder to stop. *)
Definition recorderActive (s : State) : bool :=
  match mediaRecorderRef (hook s) with
  | Some r => match r_state r with rsInactive => false | _ => true end
  | None => false
  end.

(** *** Teardown *)

Definition isRelease (e : Event) : Prop :=
  match e with
  | Hook (StopTracks _) | CloseAudioContext => True
  | _ => False
  end.

(** [s'] differs from [s] in its stream refs and its events at most. *)
Definition sameButRefs (s s' : State) : Prop :=
  audioContextRef (hook s') = audioContextRef (hook s)
  /\ animationFrameRef (hook s') = animationFrameRef (hook s)
  /\ recoveryIdRef (hook s') = recoveryIdRef (hook s)
  /\ mediaRecorderRef (hook s') = mediaRecorderRef (hook s)
  /\ timerRunning (hook s') = timerRunning (hook s)
  /\ status (hook s') = status (hook s)
  /\ duration (hook s') = duration (hook s)
  /\ chunksRef s' = chunksRef s
  /\ fileSize s' = fileSize s
  /\ main s' = main s.

Lemma releaseRef_spec (r : StreamRef) (s : State) :
  (forall r', refs (hook (releaseRef r s)) r'
              = if bool_decide (r' = r) then None else refs (hook s) r')
  /\ sameButRefs s (releaseRef r s)
  /\ exists new,
       events (releaseRef r s) = new ++ events s
       /\ Forall isRelease new
       /\ forall stream, refs (hook s) r = Some stream ->
                         Hook (StopTracks (tracks stream)) ∈ new.
Proof.
  unfold releaseRef. destruct (refs (hook s) r) as [stream|] eqn:Hr.
  - split; [reflexivity|]. split; [now repeat split|].
    exists [Hook (StopTracks (tracks stream))]. split; [reflexivity|].
    split; [now repeat constructor|]. intros ? [= <-]. apply list_elem_of_here.
  - split; [intros r'; case_bool_decide; congruence|].
    split; [now repeat split|]. exists []. split; [reflexivity|].
    split; [constructor|discriminate].
Qed.

Lemma releaseAll_spec (l : list StreamRef) (s : State) :
  (forall r, refs (hook (releaseAll l s)) r
             = if bool_decide (r ∈ l) then None else refs (hook s) r)
  /\ sameButRefs s (releaseAll l s)
  /\ exists new,
       events (releaseAll l s) = new ++ events s
       /\ Forall isRelease new
       /\ forall r stream, r ∈ l -> refs (hook s) r = Some stream ->
                           Hook (StopTracks (tracks stream)) ∈ new.
Proof.
  revert s. induction l as [|r0 rest IH]; intros s.
  - split; [reflexivity|]. split; [now repeat split|]. exists [].
    split; [reflexivity|]. split; [constructor|].
    intros r stream Hin. now apply elem_of_nil in Hin.
  - unfold releaseAll. cbn [foldl]. fold (releaseAll rest (releaseRef r0 s)).
    destruct (releaseRef_spec r0 s) as (Hrefs1 & Hsame1 & new1 & Hev1 & Hrel1 & Hin1).
    destruct (IH (releaseRef r0 s)) as (Hrefs & Hsame & new & Hev & Hrel & Hin).
    split; [|split].
    + intros r. rewrite Hrefs, Hrefs1.
      destruct (decide (r = r0)) as [->|Hne].
      * rewrite (bool_decide_eq_true_2 (r0 ∈ r0 :: rest)) by apply list_elem_of_here.
        rewrite (bool_decide_eq_true_2 (r0 = r0)) by reflexivity.
        now destruct (bool_decide (r0 ∈ rest)).
      * rewrite (bool_decide_eq_false_2 (r = r0)) by exact Hne.
        destruct (decide (r ∈ rest)) as [Hr|Hr].
        -- rewrite !bool_decide_eq_true_2; auto using list_elem_of_further.
        -- rewrite !bool_decide_eq_false_2; auto.
           intros H. apply elem_of_cons in H as [?|?]; contradiction.
    + unfold sameButRefs in *.
      destruct Hsame as (-> & -> & -> & -> & -> & -> & -> & -> & -> & ->).
      exact Hsame1.
    + exists (new ++ new1). split; [rewrite Hev, Hev1; apply app_assoc|].
      split; [now apply Forall_app|].
      intros r stream Hr Hs. apply elem_of_app.
      destruct (decide (r = r0)) as [->|Hne]; [right; now apply Hin1|].
      left. apply (Hin r); [|now rewrite Hrefs1, bool_decide_eq_false_2].
      apply elem_of_cons in Hr as [?|?]; [contradiction|assumption].
Qed.

Lemma streamRefs_all (r : StreamRef) : r ∈ streamRefs.
Proof. unfold streamRefs. destruct r; set_solver. Qed.

Lemma teardown_spec (s : State) :
  (forall r, refs (hook (teardown s)) r = None)
  /\ audioContextRef (hook (teardown s)) = false
  /\ animationFrameRef (hook (teardown s)) = false
  /\ timerRunning (hook (teardown s)) = false
  /\ recoveryIdRef (hook (teardown s)) = recoveryIdRef (hook s)
  /\ mediaRecorderRef (hook (teardown s)) = mediaRecorderRef (hook s)
  /\ chunksRef (teardown s) = chunksRef s
  /\ main (teardown s) = main s
  /\ exists new,
       events (teardown s) = new ++ events s
       /\ Forall isRelease new
       /\ forall r stream, refs (hook s) r = Some stream ->
                           Hook (StopTracks (tracks stream)) ∈ new.
Proof.
  unfold teardown. cbv zeta.
  set (s0 := withHook (setAnimationFrame false) (withHook (setTimer false) s)).
  destruct (releaseAll_spec streamRefs s0)
    as (Hrefs & (Hctx & Hanim & Hid & Hrec & Htimer & _ & _ & Hchunks & _ & Hmain)
        & new & Hev & Hrel & Hin).
  assert (Hnone : forall r, refs (hook (releaseAll streamRefs s0)) r = None).
  { intros r. rewrite Hrefs.
    now rewrite bool_decide_eq_true_2 by apply streamRefs_all. }
  set (R := releaseAll streamRefs s0) in *.
  assert (Hall : forall r stream, refs (hook s) r = Some stream ->
                                  Hook (StopTracks (tracks stream)) ∈ new).
  { intros r stream Hr. apply (Hin r); [apply streamRefs_all|exact Hr]. }
  cbn in Hanim, Hid, Hrec, Htimer, Hchunks, Hmain, Hev.
  destruct (audioContextRef (hook R)) eqn:Hc.
  - split; [exact Hnone|]. split; [reflexivity|]. split; [exact Hanim|].
    split; [exact Htimer|]. split; [exact Hid|]. split; [exact Hrec|].
    split; [exact Hchunks|]. split; [exact Hmain|].
    exists (CloseAudioContext :: new). cbn. rewrite Hev.
    split; [reflexivity|]. split; [now constructor|].
    intros r stream Hr. apply list_elem_of_further. now apply (Hall r).
  - split; [exact Hnone|]. split; [exact Hc|]. split; [exact Hanim|].
    split; [exact Htimer|]. split; [exact Hid|]. split; [exact Hrec|].
    split; [exact Hchunks|]. split; [exact Hmain|].
    exists new. split; [exact Hev|]. split; [exact Hrel|exact Hall].
Qed.

(** *** What the main process answers *)

Lemma finalize_catalog id meta w :
  match Recovery.finalize host id meta w with
  | Recovery.Ok r w' => Recovery.recordings w' = r :: Recovery.recordings w
  | Recovery.Throw _ w' => Recovery.recordings w' = Recovery.recordings w
  end.
Proof.
  pose proof (Recovery.finalize_post host id meta w) as H1.
  pose proof (RecoveryLaws.finalize_throw_post host id meta w) as H2.
  unfold Recovery.post in *.
  destruct (Recovery.finalize host id meta w) as [r w'|e w'].
  - cbv zeta in H1. now destruct H1 as (p & n & thumb & _ & _ & _ & _ & Hrec & _).
  - apply H2.
Qed.

Lemma discard_catalog id w :
  match Recovery.discard id w with
  | Recovery.Ok _ w' | Recovery.Throw _ w' =>
      Recovery.recordings w' = Recovery.recordings w
  end.
Proof.
  unfold Recovery.discard, Recovery.bind, Recovery.activeGet, Recovery.existsSync,
    Recovery.unlinkSync, Recovery.activeDelete, Recovery.ret.
  repeat case_match; simplify_eq; reflexivity.
Qed.

Lemma save_catalog data w :
  match Handlers.recordingSave host data w with
  | Recovery.Ok r w' =>
      Recovery.recordings w' = r :: Recovery.recordings w
      /\ Recovery.entries (Recovery.fs w') !! Recovery.rec_path r
         = Some (Recovery.File (Handlers.save_buffer data))
      /\ Recovery.rec_duration r = Handlers.save_duration data
      /\ Recovery.rec_quality r = Handlers.save_quality data
      /\ Recovery.rec_fileSize r = length (Handlers.save_buffer data)
  | Recovery.Throw _ w' => Recovery.recordings w' = Recovery.recordings w
  end.
Proof.
  pose proof (Handlers.recordingSave_post host data w) as H.
  cbv zeta in H. unfold Recovery.post in H.
  destruct (Handlers.recordingSave host data w) as [r w'|e w'].
  - destruct H as (thumb & -> & Hfile & _ & _ & Hrec). now repeat split.
  - apply H.
Qed.

(** *** Where the recording goes *)

Definition downloads (l : list Event) : list (list byte * string) :=
  omap (fun e => match e with Download b f => Some (b, f) | _ => None end) l.

Definition saves (l : list Event) : list (list byte) :=
  omap (fun e => match e with SaveRecording b _ _ _ => Some b | _ => None end) l.

Lemma downloads_release (l : list Event) : Forall isRelease l -> downloads l = [].
Proof.
  induction 1 as [|e l He _ IH]; [reflexivity|].
  destruct e as [[]| | | | | | | |]; try contradiction; exact IH.
Qed.

Lemma saves_release (l : list Event) : Forall isRelease l -> saves l = [].
Proof.
  induction 1 as [|e l He _ IH]; [reflexivity|].
  destruct e as [[]| | | | | | | |]; try contradiction; exact IH.
Qed.

Definition saveRequest (duration : Z) (quality : QualityPreset) (blob : list byte)
  : Handlers.RecordingSaveRequest :=
  Handlers.mkSaveRequest blob (Some "video/webm") (inject_Z duration) (toMain quality).

Definition downloadName (stamp : string) : string :=
  "recording-" +:+ JsString.replaceColonDot stamp +:+ ".webm".

(** The events and the main process after the save of [blob] was tried in
    world [w], the events before being [pre]. *)
Definition afterSave (duration : Z) (quality : QualityPreset) (stamp : string)
  (blob : list byte) (w : Recovery.World) (pre : list Event)
  : list Event * Recovery.World :=
  match Handlers.recordingSave host (saveRequest duration quality blob) w with
  | Recovery.Ok _ w' => (SaveRecording blob "video/webm" duration quality :: pre, w')
  | Recovery.Throw _ w' =>
      (Download blob (downloadName stamp) :: Hook (Toast "Save failed")
       :: SaveRecording blob "video/webm" duration quality :: pre, w')
  end.

(** The same after [persist], [idRef] being [recoveryIdRef.current]. *)
Definition afterPersist (duration : Z) (quality : QualityPreset) (stamp : string)
  (blob : list byte) (idRef : option string) (w : Recovery.World)
  (pre : list Event) : list Event * Recovery.World :=
  match truthyId idRef with
  | Some id =>
      let asked := FinalizeRecordingRecovery id duration quality :: pre in
      match Recovery.finalize host id
              (Recovery.mkMeta (inject_Z duration) (toMain quality)) w with
      | Recovery.Ok _ w1 => (asked, w1)
      | Recovery.Throw _ w1 =>
          match Recovery.discard id w1 with
          | Recovery.Ok _ w2 | Recovery.Throw _ w2 =>
              afterSave duration quality stamp blob w2
                (DiscardRecordingRecovery id :: asked)
          end
      end
  | None => afterSave duration quality stamp blob w pre
  end.

Lemma persist_spec duration quality stamp blob s :
  let s' := persist duration quality stamp blob s in
  (events s', main s')
  = afterPersist duration quality stamp blob (recoveryIdRef (hook s)) (main s)
      (events s)
  /\ truthyId (recoveryIdRef (hook s')) = None
  /\ refs (hook s') = refs (hook s)
  /\ audioContextRef (hook s') = audioContextRef (hook s)
  /\ animationFrameRef (hook s') = animationFrameRef (hook s)
  /\ mediaRecorderRef (hook s') = mediaRecorderRef (hook s)
  /\ timerRunning (hook s') = timerRunning (hook s)
  /\ chunksRef s' = chunksRef s
  /\ fileSize s' = fileSize s.
Proof.
  unfold persist, afterPersist, afterSave, invoke, saveRequest, downloadName.
  cbv zeta.
  destruct (truthyId (recoveryIdRef (hook s))) as [id|] eqn:Hid;
    cbn [main emit withHook withMain hook events chunksRef fileSize].
  - destruct (Recovery.finalize host id _ (main s)) as [r w1|e w1];
      cbn [main emit withHook withMain hook events chunksRef fileSize snd];
      [now repeat split|].
    destruct (Recovery.discard id w1) as [[] w2|e2 w2];
      cbn [main emit withHook withMain hook events chunksRef fileSize snd];
      destruct (Handlers.recordingSave host _ w2) as [r w3|e3 w3];
      cbn [main emit withHook withMain hook events chunksRef fileSize snd
           bool_decide decide_rel];
      try (rewrite bool_decide_eq_false_2 by (intros [? ?]; discriminate));
      cbn; now repeat split.
  - destruct (Handlers.recordingSave host _ (main s)) as [r w3|e3 w3]; cbn;
      now repeat split.
Qed.

(** The events that close every stop of an active recorder, the latest
    first. *)
Definition closing : list Event :=
  [Resolve; SetFileSize 0; Hook (SetDuration 0); Hook (SetStatus idle)].

Definition opening : list Event :=
  [RecorderStop; Hook (SetStatus processing)].

Lemma stop_active_shape secs quality stamp s :
  recorderActive s = true ->
  let s' := stopRecording secs quality stamp s in
  ((forall r, refs (hook s') r = None)
   /\ audioContextRef (hook s') = false
   /\ animationFrameRef (hook s') = false
   /\ timerRunning (hook s') = false
   /\ truthyId (recoveryIdRef (hook s')) = None
   /\ r_state <$> mediaRecorderRef (hook s') = Some rsInactive
   /\ chunksRef s' = []
   /\ status (hook s') = idle
   /\ duration (hook s') = 0%Z
   /\ fileSize s' = 0)
  /\ exists rel,
       Forall isRelease rel
       /\ (forall r stream, refs (hook s) r = Some stream ->
                           Hook (StopTracks (tracks stream)) ∈ rel)
       /\ (events s', main s')
          = (let '(ev, w) :=
               afterPersist secs quality stamp (concat (chunksRef s))
                 (recoveryIdRef (hook s)) (main s)
                 (rel ++ opening ++ events s) in
             (closing ++ ev, w)).
Proof.
  unfold recorderActive, stopRecording.
  destruct (mediaRecorderRef (hook s)) as [r|] eqn:Hr; [|discriminate].
  intros Hactive.
  set (s1 := emit RecorderStop
               (withHook (setRecorderState rsInactive) (storeStatus processing s))).
  assert (Hrec1 : r_state <$> mediaRecorderRef (hook s1) = Some rsInactive).
  { cbn. unfold setRecorderState. cbn. now rewrite Hr. }
  assert (Hrefs1 : refs (hook s1) = refs (hook s)).
  { cbn. unfold setRecorderState. cbn. now rewrite Hr. }
  assert (Hid1 : recoveryIdRef (hook s1) = recoveryIdRef (hook s)).
  { cbn. unfold setRecorderState. cbn. now rewrite Hr. }
  assert (Hgo : forall s', s' = onstop secs quality stamp s1 ->
    ((forall r, refs (hook s') r = None)
     /\ audioContextRef (hook s') = false
     /\ animationFrameRef (hook s') = false
     /\ timerRunning (hook s') = false
     /\ truthyId (recoveryIdRef (hook s')) = None
     /\ r_state <$> mediaRecorderRef (hook s') = Some rsInactive
     /\ chunksRef s' = []
     /\ status (hook s') = idle
     /\ duration (hook s') = 0%Z
     /\ fileSize s' = 0)
    /\ exists rel,
         Forall isRelease rel
         /\ (forall r stream, refs (hook s) r = Some stream ->
                             Hook (StopTracks (tracks stream)) ∈ rel)
         /\ (events s', main s')
            = (let '(ev, w) :=
                 afterPersist secs quality stamp (concat (chunksRef s))
                   (recoveryIdRef (hook s)) (main s)
                   (rel ++ opening ++ events s) in
               (closing ++ ev, w))).
  { intros s' ->. unfold onstop. cbv zeta.
    destruct (teardown_spec s1)
      as (Hnone & Hctx & Hanim & Htimer & Hid & Hrec & Hchunks & Hmain
          & rel & Hev & Hrel & Hin).
    set (s2 := teardown s1) in *.
    destruct (persist_spec secs quality stamp (concat (chunksRef s2))
                (withChunks [] s2))
      as (Hout & Hid' & Hrefs' & Hctx' & Hanim' & Hrec' & Htimer' & Hchunks' & _).
    cbv zeta in Hout, Hid', Hrefs', Hctx', Hanim', Hrec', Htimer', Hchunks'.
    set (s4 := persist secs quality stamp (concat (chunksRef s2))
                 (withChunks [] s2)) in *.
    cbn in Hout, Hrefs', Hctx', Hanim', Hrec', Htimer', Hchunks'.
    split.
    - cbn. split; [intros r0; now rewrite Hrefs'|].
      split; [congruence|]. split; [congruence|]. split; [congruence|].
      split; [exact Hid'|]. split; [congruence|]. now repeat split.
    - exists rel. split; [exact Hrel|]. split.
      { intros r0 stream H0. apply (Hin r0). now rewrite Hrefs1. }
      cbn [events main emit withFileSize storeDuration storeStatus withHook].
      rewrite Hchunks, Hid, Hmain, Hev in Hout. rewrite Hid1 in Hout.
      change (chunksRef s1) with (chunksRef s) in Hout.
      change (main s1) with (main s) in Hout.
      change (events s1) with (opening ++ events s) in Hout.
      destruct (afterPersist secs quality stamp (concat (chunksRef s))
                  (recoveryIdRef (hook s)) (main s) (rel ++ opening ++ events s))
        as [ev w].
      injection Hout as -> ->. reflexivity. }
  destruct (r_state r); [discriminate|now apply Hgo|now apply Hgo].
Qed.

Lemma downloads_app (l k : list Event) :
  downloads (l ++ k) = downloads l ++ downloads k.
Proof. apply omap_app. Qed.

Lemma saves_app (l k : list Event) : saves (l ++ k) = saves l ++ saves k.
Proof. apply omap_app. Qed.

Lemma downloads_closing (l : list Event) :
  downloads (Resolve :: SetFileSize 0 :: Hook (SetDuration 0)
             :: Hook (SetStatus idle) :: l) = downloads l.
Proof. reflexivity. Qed.

Lemma saves_closing (l : list Event) :
  saves (Resolve :: SetFileSize 0 :: Hook (SetDuration 0)
         :: Hook (SetStatus idle) :: l) = saves l.
Proof. reflexivity. Qed.

(** Either the catalogue of the main process gains one entry and nothing is
    downloaded, or it gains none and the blob is downloaded. *)
Lemma afterPersist_cases secs quality stamp blob idRef w pre :
  exists new,
    (afterPersist secs quality stamp blob idRef w pre).1 = new ++ pre
    /\ let w' := (afterPersist secs quality stamp blob idRef w pre).2 in
       (exists r, Recovery.recordings w' = r :: Recovery.recordings w
                  /\ downloads new = [])
       \/ (Recovery.recordings w' = Recovery.recordings w
           /\ downloads new = [(blob, downloadName stamp)]).
Proof.
  assert (Hsave : forall w0 pre0,
            Recovery.recordings w0 = Recovery.recordings w ->
            exists new,
              (afterSave secs quality stamp blob w0 pre0).1 = new ++ pre0
              /\ let w' := (afterSave secs quality stamp blob w0 pre0).2 in
                 (exists r, Recovery.recordings w' = r :: Recovery.recordings w
                            /\ downloads new = [])
                 \/ (Recovery.recordings w' = Recovery.recordings w
                     /\ downloads new = [(blob, downloadName stamp)])).
  { intros w0 pre0 Hw0. unfold afterSave.
    pose proof (save_catalog (saveRequest secs quality blob) w0) as Hs.
    destruct (Handlers.recordingSave host _ w0) as [r w3|e w3]; cbn [fst snd].
    - exists [SaveRecording blob "video/webm" secs quality]. split; [reflexivity|].
      left. exists r. destruct Hs as [Hs _]. now rewrite Hs, Hw0.
    - exists [Download blob (downloadName stamp); Hook (Toast "Save failed");
              SaveRecording blob "video/webm" secs quality].
      split; [reflexivity|]. right. now rewrite Hs, Hw0. }
  unfold afterPersist. destruct (truthyId idRef) as [id|]; [|now apply Hsave].
  cbv zeta.
  pose proof (finalize_catalog id
                (Recovery.mkMeta (inject_Z secs) (toMain quality)) w) as Hf.
  destruct (Recovery.finalize host id _ w) as [r w1|e w1]; cbn [fst snd].
  - exists [FinalizeRecordingRecovery id secs quality]. split; [reflexivity|].
    left. now exists r.
  - pose proof (discard_catalog id w1) as Hd.
    assert (Hboth : forall w2, Recovery.recordings w2 = Recovery.recordings w1 ->
              exists new,
                (afterSave secs quality stamp blob w2
                   (DiscardRecordingRecovery id
                    :: FinalizeRecordingRecovery id secs quality :: pre)).1
                = new ++ pre
                /\ let w' := (afterSave secs quality stamp blob w2
                                (DiscardRecordingRecovery id
                                 :: FinalizeRecordingRecovery id secs quality
                                 :: pre)).2 in
                   (exists r, Recovery.recordings w' = r :: Recovery.recordings w
                              /\ downloads new = [])
                   \/ (Recovery.recordings w' = Recovery.recordings w
                       /\ downloads new = [(blob, downloadName stamp)])).
    { intros w2 Hw2.
      destruct (Hsave w2 (DiscardRecordingRecovery id
                          :: FinalizeRecordingRecovery id secs quality :: pre))
        as (new & Hev & Hcases); [congruence|].
      exists (new ++ [DiscardRecordingRecovery id;
                      FinalizeRecordingRecovery id secs quality]).
      split; [rewrite Hev; now rewrite <- app_assoc|].
      cbv zeta in *. rewrite downloads_app, app_nil_r. exact Hcases. }
    destruct (Recovery.discard id w1) as [[] w2|e2 w2]; now apply Hboth.
Qed.

(** X16. [stopRecording] always resolves and always leaves the status
    [idle]. Without an active recorder it does nothing else. With one,
    every stream the hook held has had its tracks stopped and every stream
    ref is empty; the audio context is closed, the compositor and the
    timer are stopped, the recorder is inactive, no recovery id and no
    chunk is kept, and the duration and the file size shown are 0:
    whichever way the recording was persisted, or was not. *)
Theorem stop_releases_everything (secs : Z) (quality : QualityPreset)
  (stamp : string) (s : State) :
  let s' := stopRecording secs quality stamp s in
  status (hook s') = idle
  /\ (exists older, events s' = Resolve :: older)
  /\ if recorderActive s
     then (forall r, refs (hook s') r = None)
          /\ audioContextRef (hook s') = false
          /\ animationFrameRef (hook s') = false
          /\ timerRunning (hook s') = false
          /\ truthyId (recoveryIdRef (hook s')) = None
          /\ r_state <$> mediaRecorderRef (hook s') = Some rsInactive
          /\ chunksRef s' = []
          /\ duration (hook s') = 0%Z
          /\ fileSize s' = 0
          /\ forall r stream, refs (hook s) r = Some stream ->
                              Hook (StopTracks (tracks stream)) ∈ events s'
     else hook s' = plainStatus idle (hook s)
          /\ main s' = main s
          /\ chunksRef s' = chunksRef s
          /\ events s' = Resolve :: Hook (SetStatus idle) :: events s.
Proof.
  intros s'. destruct (recorderActive s) eqn:Hactive.
  - destruct (stop_active_shape secs quality stamp s Hactive)
      as ((Hrefs & Hctx & Hanim & Htimer & Hid & Hrec & Hchunks & Hstatus & Hdur
           & Hsize) & rel & Hrel & Hin & Hout).
    fold s' in Hrefs, Hctx, Hanim, Htimer, Hid, Hrec, Hchunks, Hstatus, Hdur,
      Hsize, Hout.
    destruct (afterPersist_cases secs quality stamp (concat (chunksRef s))
                (recoveryIdRef (hook s)) (main s) (rel ++ opening ++ events s))
      as (new & Hnew & _).
    destruct (afterPersist secs quality stamp (concat (chunksRef s))
                (recoveryIdRef (hook s)) (main s) (rel ++ opening ++ events s))
      as [ev w].
    cbn [fst] in Hnew. injection Hout as Hev _. subst ev.
    split; [exact Hstatus|]. split; [rewrite Hev; now eexists|].
    repeat (split; [assumption|]).
    intros r stream Hr. rewrite Hev.
    do 4 apply list_elem_of_further.
    apply elem_of_app. right. apply elem_of_app. left. now apply (Hin r).
  - unfold s', stopRecording. unfold recorderActive in Hactive.
    destruct (mediaRecorderRef (hook s)) as [r|];
      [destruct (r_state r); try discriminate|];
      cbn; (split; [reflexivity|]); (split; [now eexists|]); now repeat split.
Qed.

(** X17. A stopped recording goes to exactly one place. Either the
    catalogue of the main process gains exactly one entry and nothing is
    handed to the browser for download; or, both the recovery log and the
    save handler having failed, the catalogue is as it was and the blob of
    the buffered chunks is downloaded once. *)
Theorem stop_persists_once (secs : Z) (quality : QualityPreset) (stamp : string)
  (s : State) :
  recorderActive s = true ->
  let s' := stopRecording secs quality stamp s in
  (exists r,
     Recovery.recordings (main s') = r :: Recovery.recordings (main s)
     /\ downloads (events s') = downloads (events s))
  \/ (Recovery.recordings (main s') = Recovery.recordings (main s)
      /\ downloads (events s')
         = (concat (chunksRef s), downloadName stamp) :: downloads (events s)).
Proof.
  intros Hactive s'.
  destruct (stop_active_shape secs quality stamp s Hactive)
    as (_ & rel & Hrel & _ & Hout).
  fold s' in Hout.
  destruct (afterPersist_cases secs quality stamp (concat (chunksRef s))
              (recoveryIdRef (hook s)) (main s) (rel ++ opening ++ events s))
    as (new & Hnew & Hcases).
  destruct (afterPersist secs quality stamp (concat (chunksRef s))
              (recoveryIdRef (hook s)) (main s) (rel ++ opening ++ events s))
    as [ev w].
  cbn [fst snd] in Hnew, Hcases. injection Hout as Hev Hw. subst ev.
  assert (Hd : downloads (events s') = downloads new ++ downloads (events s)).
  { rewrite Hev, downloads_closing.
    rewrite !downloads_app, (downloads_release rel Hrel). reflexivity. }
  rewrite Hd, Hw. destruct Hcases as [(r & Hr & ->)|(Hr & ->)].
  - left. now exists r.
  - now right.
Qed.

(** X18. Without a recovery id, the buffered chunks are what is saved: when
    no directory sits on the path of the new recording, the one entry the
    catalogue gains is that of a file holding the chunks joined in order,
    with the duration and the quality the hook was stopped with. *)
Theorem stop_without_recovery_saves_chunks (secs : Z) (quality : QualityPreset)
  (stamp : string) (s : State) :
  recorderActive s = true ->
  truthyId (recoveryIdRef (hook s)) = None ->
  Recovery.entries (Recovery.fs (main s))
    !! Recovery.recordingPathAt host (main s) "webm" <> Some Recovery.Directory ->
  let s' := stopRecording secs quality stamp s in
  exists r,
    Recovery.recordings (main s') = r :: Recovery.recordings (main s)
    /\ Recovery.entries (Recovery.fs (main s')) !! Recovery.rec_path r
       = Some (Recovery.File (concat (chunksRef s)))
    /\ Recovery.rec_fileSize r = length (concat (chunksRef s))
    /\ Recovery.rec_duration r = inject_Z secs
    /\ Recovery.rec_quality r = toMain quality
    /\ saves (events s') = concat (chunksRef s) :: saves (events s).
Proof.
  intros Hactive Hid Hfree s'.
  destruct (stop_active_shape secs quality stamp s Hactive)
    as (_ & rel & Hrel & _ & Hout).
  fold s' in Hout. unfold afterPersist in Hout. rewrite Hid in Hout.
  unfold afterSave in Hout.
  pose proof (save_catalog (saveRequest secs quality (concat (chunksRef s)))
                (main s)) as Hs.
  pose proof (Handlers.recordingSave_post host
                (saveRequest secs quality (concat (chunksRef s))) (main s)) as Hp.
  cbv zeta in Hp. unfold Recovery.post in Hp.
  destruct (Handlers.recordingSave host _ (main s)) as [r w3|e w3].
  - injection Hout as Hev Hw. exists r. rewrite Hw.
    destruct Hs as (H1 & H2 & H3 & H4 & H5).
    split; [exact H1|]. split; [exact H2|]. split; [exact H5|].
    split; [exact H3|]. split; [exact H4|].
    rewrite Hev, saves_closing.
    change (saves (SaveRecording ?b ?m ?d ?q :: ?l)) with (b :: saves l).
    rewrite !saves_app, (saves_release rel Hrel). reflexivity.
  - destruct Hp as [Hdir _]. now destruct Hfree.
Qed.

(** X19. With a recovery id whose session is open in the main process on a
    regular file, and no directory on the path of the new recording, the
    recovery log is what is kept: the one entry the catalogue gains has the
    id of the session and the size of its scratch file, the session is
    closed, and the buffered chunks are neither saved nor downloaded. *)
Theorem stop_with_recovery_skips_save (secs : Z) (quality : QualityPreset)
  (stamp : string) (s : State) (id : string) (p : NodePath.path)
  (data : list byte) :
  recorderActive s = true ->
  truthyId (recoveryIdRef (hook s)) = Some id ->
  Recovery.active (main s) !! id = Some p ->
  Recovery.entries (Recovery.fs (main s)) !! p = Some (Recovery.File data) ->
  Recovery.entries (Recovery.fs (main s))
    !! Recovery.recordingPathAt host (main s) (Recovery.extensionOf p)
  <> Some Recovery.Directory ->
  let s' := stopRecording secs quality stamp s in
  exists r,
    Recovery.recordings (main s') = r :: Recovery.recordings (main s)
    /\ Recovery.rec_id r = id
    /\ Recovery.rec_fileSize r = length data
    /\ Recovery.rec_duration r = inject_Z secs
    /\ Recovery.active (main s') !! id = None
    /\ saves (events s') = saves (events s)
    /\ downloads (events s') = downloads (events s).
Proof.
  intros Hactive Hid Hopen Hfile Hfree s'.
  destruct (stop_active_shape secs quality stamp s Hactive)
    as (_ & rel & Hrel & _ & Hout).
  fold s' in Hout. unfold afterPersist in Hout. rewrite Hid in Hout.
  cbv zeta in Hout.
  pose proof (Recovery.finalize_post host id
                (Recovery.mkMeta (inject_Z secs) (toMain quality)) (main s)) as Hp.
  unfold Recovery.post in Hp.
  destruct (Recovery.finalize host id _ (main s)) as [r w1|e w1].
  - injection Hout as Hev Hw. exists r. rewrite Hw. cbv zeta in Hp.
    destruct Hp as (p' & n & thumb & Hp' & Hn & -> & Hact & Hrec & _).
    rewrite Hopen in Hp'. injection Hp' as <-.
    rewrite Hfile in Hn. injection Hn as <-.
    split; [exact Hrec|]. split; [reflexivity|]. split; [reflexivity|].
    split; [reflexivity|]. split; [rewrite Hact; apply lookup_delete_eq|].
    rewrite Hev, saves_closing, downloads_closing.
    change (saves (FinalizeRecordingRecovery ?a ?b ?c :: ?l)) with (saves l).
    change (downloads (FinalizeRecordingRecovery ?a ?b ?c :: ?l)) with (downloads l).
    rewrite !saves_app, !downloads_app, (saves_release rel Hrel),
      (downloads_release rel Hrel).
    now split.
  - destruct Hfree. exact (Hp p data Hopen Hfile).
Qed.

End Stop.
(** *** Two stops *)

(** A running recording of the screen with two buffered chunks and no
    recovery log. *)
Definition live : State :=
  mkState (setRef streamRef (Some screen1)
             (setRef screenStreamRef (Some screen1) (started 0)))
          [[x1a; x45]; [xdf; xa3]] 4 Recovery.emptyWorld [].

(** The same with a recovery log open in the main process. *)
Definition logged : State :=
  mkState (setRecoveryId (Some "1b4e28ba") (hook live)) (chunksRef live) 4
          Recovery.recordingWorld [].

Definition stoppedLive : State :=
  stopRecording Recovery.demoHost 2 Q1080p "2026-01-01T00:00:02.000Z" live.

Definition stoppedLogged : State :=
  stopRecording Recovery.demoHost 2 Q1080p "2026-01-01T00:00:02.000Z" logged.

Lemma stop_persists_once_witness :
  (exists r, Recovery.recordings (main stoppedLive) = [r] /\ downloads (events stoppedLive) = [])
  \/ (Recovery.recordings (main stoppedLive) = []
      /\ downloads (events stoppedLive)
         = [([x1a; x45; xdf; xa3], "recording-2026-01-01T00-00-02-000Z.webm")]).
Proof.
  exact (stop_persists_once Recovery.demoHost 2 Q1080p "2026-01-01T00:00:02.000Z"
           live eq_refl).
Defined.

Lemma stop_without_recovery_saves_chunks_witness :
  exists r,
    Recovery.recordings (main stoppedLive) = [r]
    /\ Recovery.entries (Recovery.fs (main stoppedLive)) !! Recovery.rec_path r
       = Some (Recovery.File [x1a; x45; xdf; xa3])
    /\ Recovery.rec_fileSize r = 4
    /\ saves (events stoppedLive) = [[x1a; x45; xdf; xa3]].
Proof.
  destruct (stop_without_recovery_saves_chunks Recovery.demoHost 2 Q1080p
              "2026-01-01T00:00:02.000Z" live eq_refl eq_refl)
    as (r & H1 & H2 & H3 & _ & _ & H6).
  - intros H. vm_compute in H. discriminate H.
  - exists r. split; [exact H1|]. split; [exact H2|]. split; [exact H3|exact H6].
Defined.

Lemma stop_with_recovery_skips_save_witness :
  exists r,
    Recovery.recordings (main stoppedLogged) = [r]
    /\ Recovery.rec_id r = "1b4e28ba"
    /\ Recovery.rec_fileSize r = 4
    /\ Recovery.active (main stoppedLogged) !! "1b4e28ba" = None
    /\ saves (events stoppedLogged) = []
    /\ downloads (events stoppedLogged) = [].
Proof.
  destruct (stop_with_recovery_skips_save Recovery.demoHost 2 Q1080p
              "2026-01-01T00:00:02.000Z" logged "1b4e28ba"
              ("/tmp/choome", "recovery-1b4e28ba.webm") [x1a; x45; xdf; xa3]
              eq_refl eq_refl eq_refl eq_refl)
    as (r & H1 & H2 & H3 & _ & H5 & H6 & H7).
  - intros H. vm_compute in H. discriminate H.
  - exists r. split; [exact H1|]. split; [exact H2|]. split; [exact H3|].
    split; [exact H5|]. split; [exact H6|exact H7].
Defined.

End Stop.

(** ** More on the watchdog

    What holds of every state the compositor can reach, the order in which
    the constraint sets are tried, and when the watchdog stays still. *)

Module WatchdogLaws.
Import Session Watchdog.

(** *** The compositor always has its webcam *)

Definition wired (s : State) : Prop :=
  srcObject s = webcamStream s
  /\ is_Some (webcamStream s)
  /\ (webcamRefreshInFlight s = true <-> pending s <> notRunning).

Lemma tryTiers_keeps gum options s :
  let s' := (tryTiers gum options s).2 in
  lastWebcamTime s' = lastWebcamTime s
  /\ lastWebcamFrameAt s' = lastWebcamFrameAt s
  /\ webcamRefreshInFlight s' = webcamRefreshInFlight s
  /\ webcamRefreshCooldownUntil s' = webcamRefreshCooldownUntil s
  /\ webcamStream s' = webcamStream s
  /\ srcObject s' = srcObject s
  /\ listening s' = listening s
  /\ pending s' = pending s.
Proof.
  revert s. induction options as [|c rest IH]; intros s; cbn; [now repeat split|].
  destruct (gum c); [now repeat split|]. apply (IH (emit (GetUserMedia c) s)).
Qed.

Lemma wired_refresh now s : wired s -> wired (refreshWebcamStream now s).
Proof.
  intros Hw. unfold refreshWebcamStream.
  destruct (_ || _); [exact Hw|]. destruct Hw as (Hsrc & Hsome & _).
  unfold wired. cbn. split; [exact Hsrc|]. split; [exact Hsome|].
  split; [discriminate|reflexivity].
Qed.

Lemma wired_step s i : wired s -> wired (step s i).
Proof.
  intros Hw. destruct i as [now refreshNow rs ct|track now|gum now|now];
    cbn [step].
  - unfold drawFrame. destruct (2 <=? rs)%nat; [|exact Hw].
    destruct (negb _); [exact Hw|].
    destruct (ltb _ _); [now apply wired_refresh|exact Hw].
  - case_bool_decide; [now apply wired_refresh|exact Hw].
  - unfold streamSettled. destruct (pending s) eqn:Hp; try exact Hw.
    pose proof (tryTiers_keeps gum webcamConstraintOptions s) as Hk.
    destruct (tryTiers gum webcamConstraintOptions s) as [[newStream|] s1];
      cbn [snd] in Hk;
      destruct Hk as (_ & _ & Hfl & _ & Hstream & Hsrc & _ & Hp1);
      destruct Hw as (Hw1 & Hw2 & Hw3).
    + cbn. split; [reflexivity|]. split; [now eexists|].
      rewrite Hfl, Hw3, Hp. split; [discriminate|]. intros _. discriminate.
    + unfold finally, wired. cbn. rewrite Hsrc, Hstream.
      split; [exact Hw1|]. split; [exact Hw2|]. split; [discriminate|congruence].
  - unfold playSettled. destruct (pending s) eqn:Hp; try exact Hw.
    destruct Hw as (Hw1 & Hw2 & Hw3).
    destruct oldStream; unfold finally, wired; cbn;
      (split; [exact Hw1|]); (split; [exact Hw2|]);
      (split; [discriminate|congruence]).
Qed.

(** X20. Whatever happens to the compositor, its webcam input is the
    stream the hook holds, and there is one: a reacquire that every
    constraint set rejects leaves the stream in place. A reacquire is
    marked in flight exactly while [refreshWebcamStream] is suspended. *)
Theorem compositor_keeps_its_webcam (stream : MediaStream) (t0 : Q)
  (inputs : list Input) :
  wired (run (initialState stream t0) inputs).
Proof.
  assert (H : forall s, wired s -> wired (run s inputs)).
  { induction inputs as [|i inputs IH]; intros s Hs; [exact Hs|].
    apply IH. now apply wired_step. }
  apply H. unfold wired, initialState. cbn.
  split; [reflexivity|]. split; [now eexists|]. split; [discriminate|congruence].
Qed.

(** *** The order of the constraint sets *)

(** X21. [getWebcamStream] asks for the constraint sets in order and stops
    at the first that is accepted: the sets before it were all rejected,
    those after it are never asked for. When it gives up, every set was
    asked for, once, and rejected. *)
Theorem tiers_tried_in_order (gum : Tier -> option MediaStream)
  (options : list Tier) (s : State) :
  match tryTiers gum options s with
  | (Some stream, s') =>
      exists failed tier rest,
        options = failed ++ tier :: rest
        /\ Forall (fun t => gum t = None) failed
        /\ gum tier = Some stream
        /\ events s' = rev (GetUserMedia <$> (failed ++ [tier])) ++ events s
  | (None, s') =>
      Forall (fun t => gum t = None) options
      /\ events s' = rev (GetUserMedia <$> options) ++ events s
  end.
Proof.
  revert s. induction options as [|c rest IH]; intros s; cbn [tryTiers].
  - split; [constructor|reflexivity].
  - destruct (gum c) as [stream|] eqn:Hc.
    + exists [], c, rest. now repeat split.
    + specialize (IH (emit (GetUserMedia c) s)).
      destruct (tryTiers gum rest (emit (GetUserMedia c) s)) as [[stream|] s'].
      * destruct IH as (failed & tier & rest' & -> & Hfailed & Htier & Hev).
        exists (c :: failed), tier, rest'. split; [reflexivity|].
        split; [now constructor|]. split; [exact Htier|].
        rewrite Hev. cbn. now rewrite <- !app_assoc.
      * destruct IH as [Hall Hev]. split; [now constructor|].
        rewrite Hev. cbn. now rewrite <- app_assoc.
Qed.

(** *** When the watchdog stays still *)

(** Frames none of which finds the webcam stale: each finds the webcam not
    ready, or its clock moved since the frame before, or no more than
    2000 ms gone since its clock last moved. *)
Fixpoint calm (lastTime lastFrameAt : Q) (inputs : list Input) : Prop :=
  match inputs with
  | [] => True
  | Frame now _ readyState currentTime :: rest =>
      if (2 <=? readyState)%nat then
        if negb (Qeq_bool currentTime lastTime) then calm currentTime now rest
        else (now - lastFrameAt <= 2000)%Q /\ calm lastTime lastFrameAt rest
      else calm lastTime lastFrameAt rest
  | _ => False
  end.

(** X22. A webcam that keeps delivering is left alone: over frames none of
    which finds it stale, the watchdog starts no reacquire, asks for no
    stream, and changes neither the stream nor the compositor's input. *)
Theorem live_webcam_is_left_alone (inputs : list Input) (s : State) :
  calm (lastWebcamTime s) (lastWebcamFrameAt s) inputs ->
  events (run s inputs) = events s
  /\ webcamStream (run s inputs) = webcamStream s
  /\ srcObject (run s inputs) = srcObject s
  /\ pending (run s inputs) = pending s
  /\ webcamRefreshInFlight (run s inputs) = webcamRefreshInFlight s.
Proof.
  revert s. induction inputs as [|i inputs IH]; intros s Hcalm; [now repeat split|].
  destruct i as [now refreshNow rs ct| | |]; try contradiction.
  cbn [calm] in Hcalm. unfold run. cbn [foldl step]. fold (run (drawFrame now refreshNow rs ct s) inputs).
  unfold drawFrame. destruct (2 <=? rs)%nat; [|now apply IH].
  destruct (negb (Qeq_bool ct (lastWebcamTime s))).
  - now destruct (IH (mkState ct now (webcamRefreshInFlight s)
                        (webcamRefreshCooldownUntil s) (webcamStream s)
                        (srcObject s) (listening s) (pending s) (events s)) Hcalm).
  - destruct Hcalm as [Hfresh Hcalm]. apply ltb_ge in Hfresh. rewrite Hfresh.
    now apply IH.
Qed.

(** *** On the stalled webcam *)

Lemma live_webcam_is_left_alone_witness :
  events (run (initialState camera1 0)
            [Frame 16 16 4 (1 # 10); Frame 33 33 4 (1 # 10);
             Frame 1500 1500 1 (1 # 10); Frame 1990 1990 4 (2 # 10);
             Frame 3900 3900 4 (2 # 10)])
  = [].
Proof.
  apply (live_webcam_is_left_alone
           [Frame 16 16 4 (1 # 10); Frame 33 33 4 (1 # 10);
            Frame 1500 1500 1 (1 # 10); Frame 1990 1990 4 (2 # 10);
            Frame 3900 3900 4 (2 # 10)]
           (initialState camera1 0)).
  cbn. split; [|split]; [vm_compute; discriminate..|exact I].
Defined.

End WatchdogLaws.

(** ** More on the bubble

    That a configured bubble is drawn on the canvas, and what part of the
    webcam picture fills it. *)

Module GeometryLaws.
Import Session Geometry.

Local Open Scope Q_scope.

Lemma lt_of_ltb (a b : Q) : ltb a b = true <-> a < b.
Proof.
  unfold ltb. rewrite negb_true_iff. split.
  - intros H. apply Qnot_le_lt. intros Hle.
    apply Qle_bool_iff in Hle. congruence.
  - intros H. destruct (Qle_bool b a) eqn:Hle; [|reflexivity].
    apply Qle_bool_iff in Hle. now apply Qlt_not_le in H.
Qed.

Lemma ge_of_ltb (a b : Q) : ltb a b = false <-> b <= a.
Proof. unfold ltb. rewrite negb_false_iff. apply Qle_bool_iff. Qed.

(** Splits on every [Qmin] and [Qmax] in sight. *)
Ltac split_min a b :=
  let m := fresh "m" in
  let H := fresh "H" in
  pose proof (Q.min_spec a b) as H;
  set (m := Qmin a b) in *; clearbody m;
  destruct H as [[? H]|[? H]].

Ltac split_max a b :=
  let m := fresh "m" in
  let H := fresh "H" in
  pose proof (Q.max_spec a b) as H;
  set (m := Qmax a b) in *; clearbody m;
  destruct H as [[? H]|[? H]].

Ltac minmax :=
  repeat match goal with
         | |- context [Qmin ?a ?b] => split_min a b
         | |- context [Qmax ?a ?b] => split_max a b
         | _ : context [Qmin ?a ?b] |- _ => split_min a b
         | _ : context [Qmax ?a ?b] |- _ => split_max a b
         end.

(** [r] lies on the canvas of [f]. *)
Definition onCanvas (f : Frame) (r : Rect) : Prop :=
  0 <= pipX r /\ 0 <= pipY r
  /\ 0 <= pipWidth r /\ 0 <= pipHeight r
  /\ pipX r + pipWidth r <= canvasWidth f
  /\ pipY r + pipHeight r <= canvasHeight f.

Definition usable (c : Overlay) : Prop := 0 < width c /\ 0 < height c.

Lemma configuredRect_onCanvas (f : Frame) (c : Overlay) (r : Rect) :
  0 <= canvasWidth f -> 0 <= canvasHeight f -> usable c ->
  onCanvas f (configuredRect f (Some c) r).
Proof.
  intros Hw Hh [Hcw Hch]. unfold configuredRect.
  rewrite (proj2 (lt_of_ltb 0 (width c)) Hcw), (proj2 (lt_of_ltb 0 (height c)) Hch).
  cbn [andb]. unfold onCanvas. cbn [pipX pipY pipWidth pipHeight].
  repeat split; minmax; lra.
Qed.

Lemma adjusted_usable (f : Frame) (c : Overlay) :
  usable c -> exists c', adjustedOverlayConfig f (Some c) = Some c' /\ usable c'.
Proof.
  intros Hc. unfold adjustedOverlayConfig.
  destruct (displayWidth c) as [dw|]; [|now exists c].
  destruct (displayHeight c) as [dh|]; [|now exists c].
  destruct (truthy dw && truthy dh); [|now exists c].
  eexists. split; [reflexivity|]. unfold usable. cbn [width height].
  split; minmax; lra.
Qed.

Lemma positionedRect_onCanvas (f : Frame) (p : option Position) (r : Rect) :
  onCanvas f r -> onCanvas f (positionedRect f p r).
Proof.
  intros Hr. destruct p as [p|]; [|exact Hr].
  destruct Hr as (Hx & Hy & Hw & Hh & Hxw & Hyh).
  unfold positionedRect, onCanvas. cbn [pipX pipY pipWidth pipHeight].
  repeat split; try assumption; minmax; lra.
Qed.

Lemma shapedRect_onCanvas (f : Frame) (shape : WebcamShape) (r : Rect) :
  onCanvas f r -> onCanvas f (shapedRect shape r).
Proof.
  intros Hr. destruct shape; try exact Hr.
  destruct Hr as (Hx & Hy & Hw & Hh & Hxw & Hyh).
  pose proof (shapedRect_circle r) as H. cbv zeta in H.
  destruct H as (Ew & Eh & _ & _ & Hx1 & Hx2 & Hy1 & Hy2 & _).
  unfold onCanvas. rewrite Ew, Eh.
  assert (Hd : 0 <= Qmin (pipWidth r) (pipHeight r)) by (minmax; lra).
  repeat split; try assumption; lra.
Qed.

(** X23. A bubble with a usable configuration is drawn on the canvas: in
    both versions of the compositor, for every shape and, in the version
    that follows a drag, for every position, even one outside the unit
    square, the rectangle the webcam is drawn in has no negative side and
    lies within the canvas. *)
Theorem configured_bubble_stays_on_canvas (f : Frame) (c : Overlay)
  (shape : WebcamShape) (livePosition sourcePosition : option Position) :
  0 <= canvasWidth f -> 0 <= canvasHeight f ->
  0 < width c -> 0 < height c ->
  onCanvas f (bubble shape f (Some c))
  /\ onCanvas f (bubbleLive shape f (Some c) livePosition sourcePosition).
Proof.
  intros Hw Hh Hcw Hch. unfold bubble, bubbleLive, resolvedRect, resolvedRectLive.
  split.
  - apply shapedRect_onCanvas, configuredRect_onCanvas; now try split.
  - destruct (adjusted_usable f c (conj Hcw Hch)) as (c' & -> & Hc').
    apply shapedRect_onCanvas, positionedRect_onCanvas.
    now apply configuredRect_onCanvas.
Qed.

(** *** The part of the webcam picture that is drawn *)






(** *** On a 1920 x 1080 canvas *)

Lemma configured_bubble_stays_on_canvas_witness :
  onCanvas (mkFrame 1920 1080 1280 720)
    (bubble circle (mkFrame 1920 1080 1280 720)
       (Some (mkOverlay 1800 1000 320 240 None None)))
  /\ onCanvas (mkFrame 1920 1080 1280 720)
       (bubbleLive rounded (mkFrame 1920 1080 1280 720)
          (Some (mkOverlay 1800 1000 320 240 (Some 2560) (Some 1440)))
          (Some (mkPosition (3 # 2) (-1))) None).
Proof.
  split.
  - apply (configured_bubble_stays_on_canvas (mkFrame 1920 1080 1280 720)
             (mkOverlay 1800 1000 320 240 None None) circle None None);
      vm_compute; congruence.
  - apply (configured_bubble_stays_on_canvas (mkFrame 1920 1080 1280 720)
             (mkOverlay 1800 1000 320 240 (Some 2560) (Some 1440)) rounded
             (Some (mkPosition (3 # 2) (-1))) None);
      vm_compute; congruence.
Defined.


End GeometryLaws.
